(** * nurbstk/evaluate.h: point and derivative evaluation on NURBS curves
      and surfaces

    A shallow embedding of the eight evaluators of [evaluate.h].

    - The template parameter [typename T] is a type with the arithmetic the
      evaluators use (class [Scalar]); no algebraic law is assumed unless a
      theorem names it.
    - [glm::vec<dim, T>] is a [list T]; the template parameter [int dim] is
      an explicit argument.
    - [std::vector] is a list.  Indexing with an [int] outside the vector is
      undefined in the source; here it makes the evaluator return [None].
    - [int] is [Z], [uint8_t] is [nat].
    - [for] loops are the combinators [for_le] and [for_lt], threading the
      variables the body assigns.
    - The basis subsystem ([basis.h]) is a record [BasisProvider]. *)

From Stdlib Require Import ZArith Lia QArith Qcanon.
From stdpp Require Import base option list numbers.

Open Scope Z_scope.

(** ** Scalars *)

Class Scalar (T : Type) := {
  s0 : T;
  s1 : T;
  sadd : T → T → T;
  ssub : T → T → T;
  smul : T → T → T;
  sdiv : T → T → T;
  s_of_Z : Z → T;
  sleb : T → T → bool;
  seqb : T → T → bool
}.

(** ** Vectors of scalars ([glm::vec]) *)

Section Vec.
Context {T : Type} `{Scalar T}.

(** [glm::vec<dim, T>(0.0)] *)
Definition vzero (dim : nat) : list T := replicate dim s0.

(** [a + b], [a += b] *)
Definition vadd (a b : list T) : list T := zip_with sadd a b.

(** [a - b], [a -= b] *)
Definition vsub (a b : list T) : list T := zip_with ssub a b.

(** [s * v] with the scalar on the left *)
Definition vscale (s : T) (v : list T) : list T := map (smul s) v.

(** [v *= s] *)
Definition vscale_r (v : list T) (s : T) : list T := map (λ x, smul x s) v.

(** [v / s] *)
Definition vdiv (v : list T) (s : T) : list T := map (λ x, sdiv x s) v.
End Vec.

(** ** Indexing with an [int] *)

(** [v[i]] read; [None] when [i] is outside [v]. *)
Definition at_ {A : Type} (v : list A) (i : Z) : option A :=
  if bool_decide (0 ≤ i) then v !! Z.to_nat i else None.

(** [v[i] = x]; [None] when [i] is outside [v]. *)
Definition set_at {A : Type} (v : list A) (i : Z) (x : A) : option (list A) :=
  if bool_decide (0 ≤ i < Z.of_nat (length v))
  then Some (<[Z.to_nat i := x]> v) else None.

(** [m[i][j]] read. *)
Definition at2 {A : Type} (m : list (list A)) (i j : Z) : option A :=
  row ← at_ m i; at_ row j.

(** [m[i][j] = x]. *)
Definition set_at2 {A : Type} (m : list (list A)) (i j : Z) (x : A)
  : option (list (list A)) :=
  row ← at_ m i; row' ← set_at row j x; set_at m i row'.

(** [m[i][j][c]]: a component of an entry of a table of vectors. *)
Definition at3 {A : Type} (m : list (list (list A))) (i j c : Z) : option A :=
  v ← at2 m i j; at_ v c.

(** ** Loops *)

Section Loops.
Context {S : Type}.

(** [n] iterations of [body], the counter starting at [k] and going up. *)
Fixpoint for_up (n : nat) (k : Z) (body : Z → S → option S) (s : S)
  : option S :=
  match n with
  | O => Some s
  | Datatypes.S n' =>
      match body k s with
      | Some s' => for_up n' (k + 1) body s'
      | None => None
      end
  end.

(** [for (int k = a; k <= b; k++) body] *)
Definition for_le (a b : Z) (body : Z → S → option S) (s : S) : option S :=
  for_up (Z.to_nat (b - a + 1)) a body s.

(** [for (int k = a; k < b; k++) body] *)
Definition for_lt (a b : Z) (body : Z → S → option S) (s : S) : option S :=
  for_up (Z.to_nat (b - a)) a body s.

(** [for (const auto &x : xs) body] *)
Fixpoint for_each {X : Type} (xs : list X) (body : X → S → option S) (s : S)
  : option S :=
  match xs with
  | [] => Some s
  | x :: xs' =>
      match body x s with
      | Some s' => for_each xs' body s'
      | None => None
      end
  end.
End Loops.

(** ** The collaborators of [basis.h] and [util.h] *)

(** The three entry points of [basis.h] the evaluators call. *)
Record BasisProvider (T : Type) := {
  findSpan : nat → list T → T → Z;
  bsplineBasis : nat → Z → list T → T → list T;
  bsplineDerBasis : nat → Z → list T → T → Z → list (list T)
}.
Arguments findSpan {T} _ _ _ _.
Arguments bsplineBasis {T} _ _ _ _ _.
Arguments bsplineDerBasis {T} _ _ _ _ _ _.

Section Util.
Context {T : Type} `{Scalar T}.

(** Modelled from the spec: [util::cartesianToHomogenous(point, weight)],
    whose definition is in [util.h]: the (D+1)-vector
    (weight·point, weight). *)
Definition cartesianToHomogenous (pt : list T) (w : T) : list T :=
  vscale w pt ++ [w].

(** Modelled from the spec: [util::truncateHomogenous], whose definition is
    in [util.h]: drops the last component without dividing. *)
Definition truncateHomogenous (pt : list T) : list T :=
  take (length pt - 1)%nat pt.

(** Modelled from the spec: [util::homogenousToCartesian], whose definition
    is in [util.h]: divides the first D components by the last. *)
Definition homogenousToCartesian (pt : list T) : list T :=
  vdiv (truncateHomogenous pt) (default s0 (list.last pt)).

(** Modelled from the spec: [util::binomial(n, k)], whose definition is in
    [util.h]: the standard binomial coefficient, here by Pascal's rule. *)
Fixpoint binomial_nat (n k : nat) : nat :=
  match n, k with
  | _, O => 1%nat
  | O, Datatypes.S _ => 0%nat
  | Datatypes.S n', Datatypes.S k' =>
      (binomial_nat n' k' + binomial_nat n' k)%nat
  end.

Definition binomial (n k : Z) : Z :=
  Z.of_nat (binomial_nat (Z.to_nat n) (Z.to_nat k)).
End Util.

(** ** The evaluators *)

Section Evaluate.
Context {T : Type} `{Scalar T}.

(** The content of a component of a [glm::vec] that the source creates
    without giving it a value.  The elements [std::vector::resize] creates
    are value-initialised, which fills them with zeros: for them the program
    is the instance [indet = s0], where [vdefault dim] is [vzero dim].  The
    local [tvecn Aderi] of [rationalCurveDerivatives] is default-initialised,
    and [glm], which is not part of the repository, fixes no content for
    it.  The evaluators are given for every [indet]; a statement about the
    content of resized storage is made at [s0]. *)
Variable indet : T.

Variable BP : BasisProvider T.

(** A [glm::vec<dim, T>] created without a value: every component is
    [indet]. *)
Definition vdefault (dim : nat) : list T := replicate dim indet.

(** Modelled from the spec: [isValidRelation], declared in [evaluate.h] and
    defined elsewhere: true iff
    [num_knots == num_ctrl_pts + degree + 1]. *)
Definition isValidRelation (degree num_knots num_ctrl_pts : nat) : bool :=
  bool_decide (num_knots = (num_ctrl_pts + degree + 1)%nat).

(** [curvePoint]: the result is the final value of the out-parameter
    [point]. *)
Definition curvePoint (dim : nat) (u : T) (degree : nat) (knots : list T)
    (control_points : list (list T)) : option (list T) :=
  let point := vzero dim in
  let span := findSpan BP degree knots u in
  let N := bsplineBasis BP degree span knots u in
  for_le 0 (Z.of_nat degree) (λ j point,
    Nj ← at_ N j;
    P ← at_ control_points (span - Z.of_nat degree + j);
    Some (vadd point (vscale Nj P))) point.

(** The loop of the rational evaluators that lifts the control points of a
    curve: [Cw.push_back(cartesianToHomogenous(control_points[i],
    weights[i]))] for every [i]. *)
Definition lift_curve (control_points : list (list T)) (weights : list T)
  : option (list (list T)) :=
  for_lt 0 (Z.of_nat (length control_points)) (λ i Cw,
    P ← at_ control_points i;
    w ← at_ weights i;
    Some (Cw ++ [cartesianToHomogenous P w])) [].

(** [rationalCurvePoint] *)
Definition rationalCurvePoint (dim : nat) (u : T) (degree : nat)
    (knots : list T) (control_points : list (list T)) (weights : list T)
  : option (list T) :=
  Cw ← lift_curve control_points weights;
  pointw ← curvePoint (dim + 1) u degree knots Cw;
  Some (homogenousToCartesian pointw).

(** [curveDerivatives]: the result is the final value of [curve_ders].
    [resize] with a negative [int] asks for more than [max_size] elements
    and throws. *)
Definition curveDerivatives (dim : nat) (u : T) (degree : nat)
    (knots : list T) (control_points : list (list T)) (num_ders : Z)
  : option (list (list T)) :=
  if bool_decide (num_ders + 1 < 0) then None else
  let curve_ders := replicate (Z.to_nat (num_ders + 1)) (vdefault dim) in
  curve_ders ← for_le (Z.of_nat degree + 1) num_ders (λ k curve_ders,
    set_at curve_ders k (vzero dim)) curve_ders;
  let span := findSpan BP degree knots u in
  let ders := bsplineDerBasis BP degree span knots u num_ders in
  let du := if bool_decide (num_ders < Z.of_nat degree)
            then num_ders else Z.of_nat degree in
  for_le 0 du (λ k curve_ders,
    curve_ders ← set_at curve_ders k (vzero dim);
    for_le 0 (Z.of_nat degree) (λ j curve_ders,
      acc ← at_ curve_ders k;
      d ← at2 ders k j;
      P ← at_ control_points (span - Z.of_nat degree + j);
      set_at curve_ders k (vadd acc (vscale d P))) curve_ders) curve_ders.

(** The loop of [rationalCurveDerivatives] under the comment
    "Split Cwders into coordinates and weights": the pair
    ([Aders], [wders]). *)
Definition split_Cwders (dim : nat) (Cwders : list (list T))
  : option (list (list T) * list T) :=
  for_each Cwders (λ val '(Aders, wders),
    Aderi ← for_lt 0 (Z.of_nat dim - 1) (λ i Aderi,
      x ← at_ val i;
      set_at Aderi i x) (vdefault dim);
    w ← at_ val (Z.of_nat dim - 1);
    Some (Aders ++ [Aderi], wders ++ [w])) ([], []).

(** [rationalCurveDerivatives] *)
Definition rationalCurveDerivatives (dim : nat) (u : T) (degree : nat)
    (knots : list T) (control_points : list (list T)) (weights : list T)
    (num_ders : Z) : option (list (list T)) :=
  if bool_decide (num_ders + 1 < 0) then None else
  let curve_ders := replicate (Z.to_nat (num_ders + 1)) (vdefault dim) in
  Cw ← lift_curve control_points weights;
  Cwders ← curveDerivatives (dim + 1) u degree knots Cw num_ders;
  '(Aders, wders) ← split_Cwders dim Cwders;
  for_le 0 num_ders (λ k curve_ders,
    v ← at_ Aders k;
    v ← for_le 1 k (λ i v,
      wi ← at_ wders i;
      C ← at_ curve_ders (k - i);
      Some (vsub v (vscale (smul (s_of_Z (binomial k i)) wi) C))) v;
    w0 ← at_ wders 0;
    set_at curve_ders k (vdiv v w0)) curve_ders.

(** [surfacePoint] *)
Definition surfacePoint (dim : nat) (u v : T) (degree_u degree_v : nat)
    (knots_u knots_v : list T) (control_points : list (list (list T)))
  : option (list T) :=
  let point := vzero dim in
  let span_u := findSpan BP degree_u knots_u u in
  let span_v := findSpan BP degree_v knots_v v in
  let Nu := bsplineBasis BP degree_u span_u knots_u u in
  let Nv := bsplineBasis BP degree_v span_v knots_v v in
  for_le 0 (Z.of_nat degree_v) (λ l point,
    temp ← for_le 0 (Z.of_nat degree_u) (λ k temp,
      Nuk ← at_ Nu k;
      P ← at2 control_points (span_u - Z.of_nat degree_u + k)
                             (span_v - Z.of_nat degree_v + l);
      Some (vadd temp (vscale Nuk P))) (vzero dim);
    Nvl ← at_ Nv l;
    Some (vadd point (vscale Nvl temp))) point.

(** The loops of [rationalSurfacePoint] that lift the control grid: row [i]
    of [Cw] receives [control_points[0].size()] pushed points. *)
Definition lift_grid_push (control_points : list (list (list T)))
    (weights : list (list T)) : option (list (list (list T))) :=
  let Cw := replicate (length control_points) [] in
  for_lt 0 (Z.of_nat (length control_points)) (λ i Cw,
    row0 ← at_ control_points 0;
    for_lt 0 (Z.of_nat (length row0)) (λ j Cw,
      P ← at2 control_points i j;
      w ← at2 weights i j;
      row ← at_ Cw i;
      set_at Cw i (row ++ [cartesianToHomogenous P w])) Cw) Cw.

(** [rationalSurfacePoint] *)
Definition rationalSurfacePoint (dim : nat) (u v : T)
    (degree_u degree_v : nat) (knots_u knots_v : list T)
    (control_points : list (list (list T))) (weights : list (list T))
  : option (list T) :=
  Cw ← lift_grid_push control_points weights;
  pointw ← surfacePoint (dim + 1) u v degree_u degree_v knots_u knots_v Cw;
  Some (homogenousToCartesian pointw).

(** [surfaceDerivatives]: the result is the final value of [surf_ders]. *)
Definition surfaceDerivatives (dim : nat) (u v : T)
    (degree_u degree_v : nat) (knots_u knots_v : list T)
    (control_points : list (list (list T))) (num_ders : Z)
  : option (list (list (list T))) :=
  if bool_decide (num_ders + 1 < 0) then None else
  let n1 := Z.to_nat (num_ders + 1) in
  let surf_ders := replicate n1 (replicate n1 (vdefault dim)) in
  surf_ders ← for_le (Z.of_nat degree_u + 1) num_ders (λ k surf_ders,
    for_le (Z.of_nat degree_v + 1) num_ders (λ l surf_ders,
      set_at2 surf_ders k l (vzero dim)) surf_ders) surf_ders;
  let span_u := findSpan BP degree_u knots_u u in
  let span_v := findSpan BP degree_v knots_v v in
  let ders_u := bsplineDerBasis BP degree_u span_u knots_u u num_ders in
  let ders_v := bsplineDerBasis BP degree_v span_v knots_v v num_ders in
  let du := if bool_decide (num_ders < Z.of_nat degree_u)
            then num_ders else Z.of_nat degree_u in
  let dv := if bool_decide (num_ders < Z.of_nat degree_v)
            then num_ders else Z.of_nat degree_v in
  let temp := replicate (degree_v + 1) (vdefault dim) in
  st ← for_le 0 du (λ k '(surf_ders, temp),
    temp ← for_le 0 (Z.of_nat degree_v) (λ s temp,
      temp ← set_at temp s (vzero dim);
      for_le 0 (Z.of_nat degree_u) (λ r temp,
        acc ← at_ temp s;
        d ← at2 ders_u k r;
        P ← at2 control_points (span_u - Z.of_nat degree_u + r)
                               (span_v - Z.of_nat degree_v + s);
        set_at temp s (vadd acc (vscale d P))) temp) temp;
    let nk := num_ders - k in
    let dd := if bool_decide (nk < dv) then nk else dv in
    surf_ders ← for_le 0 dd (λ l surf_ders,
      surf_ders ← set_at2 surf_ders k l (vzero dim);
      for_le 0 (Z.of_nat degree_v) (λ s surf_ders,
        acc ← at2 surf_ders k l;
        d ← at2 ders_v l s;
        t ← at_ temp s;
        set_at2 surf_ders k l (vadd acc (vscale d t))) surf_ders) surf_ders;
    Some (surf_ders, temp)) (surf_ders, temp);
  Some st.1.

(** The loops of [rationalSurfaceDerivatives] that lift the control grid:
    row [i] of [homo_cp] is resized to [control_points[0].size()] and then
    assigned. *)
Definition lift_grid_assign (dim : nat)
    (control_points : list (list (list T))) (weights : list (list T))
  : option (list (list (list T))) :=
  let homo_cp := replicate (length control_points) [] in
  for_lt 0 (Z.of_nat (length control_points)) (λ i homo_cp,
    row0 ← at_ control_points 0;
    row ← at_ homo_cp i;
    homo_cp ← set_at homo_cp i
                (resize (length row0) (vdefault (dim + 1)) row);
    for_lt 0 (Z.of_nat (length row0)) (λ j homo_cp,
      P ← at2 control_points i j;
      w ← at2 weights i j;
      set_at2 homo_cp i j (cartesianToHomogenous P w)) homo_cp) homo_cp.

(** The loops of [rationalSurfaceDerivatives] that fill [Aders]. *)
Definition truncate_ders (dim : nat) (num_ders : Z)
    (homo_ders : list (list (list T))) : option (list (list (list T))) :=
  let n1 := Z.to_nat (num_ders + 1) in
  let Aders := replicate n1 [] in
  for_lt 0 (Z.of_nat (length homo_ders)) (λ i Aders,
    row ← at_ Aders i;
    Aders ← set_at Aders i (resize n1 (vdefault dim) row);
    row0 ← at_ homo_ders 0;
    for_lt 0 (Z.of_nat (length row0)) (λ j Aders,
      h ← at2 homo_ders i j;
      set_at2 Aders i j (truncateHomogenous h)) Aders) Aders.

(** The body of the [l] loop of [rationalSurfaceDerivatives]: the value
    assigned to [surf_ders[k][l]]. *)
Definition rational_entry (dim : nat)
    (homo_ders Aders surf_ders : list (list (list T))) (k l : Z)
  : option (list T) :=
  der ← at2 Aders k l;
  der ← for_lt 1 (l + 1) (λ j der,
    w ← at3 homo_ders 0 j (Z.of_nat dim);
    C ← at2 surf_ders k (l - j);
    Some (vsub der (vscale (smul (s_of_Z (binomial l j)) w) C))) der;
  der ← for_lt 1 (k + 1) (λ i der,
    w ← at3 homo_ders i 0 (Z.of_nat dim);
    C ← at2 surf_ders (k - i) l;
    let der := vsub der (vscale (smul (s_of_Z (binomial k i)) w) C) in
    tmp ← for_lt 1 (l + 1) (λ j tmp,
      w ← at3 homo_ders i j (Z.of_nat dim);
      C ← at2 surf_ders (k - 1) (l - j);
      Some (vsub tmp (vscale (smul (s_of_Z (binomial l j)) w) C)))
      (vzero dim);
    Some (vsub der (vscale (s_of_Z (binomial k i)) tmp))) der;
  w00 ← at3 homo_ders 0 0 (Z.of_nat dim);
  Some (vscale_r der (sdiv (s_of_Z 1) w00)).

(** [rationalSurfaceDerivatives]: [surf_ders] is the table the caller
    passes in, which this evaluator resizes without clearing; the result
    is its final value. *)
Definition rationalSurfaceDerivatives (dim : nat) (u v : T)
    (degree_u degree_v : nat) (knots_u knots_v : list T)
    (control_points : list (list (list T))) (weights : list (list T))
    (num_ders : Z) (surf_ders : list (list (list T)))
  : option (list (list (list T))) :=
  homo_cp ← lift_grid_assign dim control_points weights;
  homo_ders ← surfaceDerivatives (dim + 1) u v degree_u degree_v
                knots_u knots_v homo_cp num_ders;
  let n1 := Z.to_nat (num_ders + 1) in
  Aders ← truncate_ders dim num_ders homo_ders;
  let surf_ders := resize n1 [] surf_ders in
  for_lt 0 (num_ders + 1) (λ k surf_ders,
    row ← at_ surf_ders k;
    surf_ders ← set_at surf_ders k (resize n1 (vdefault dim) row);
    for_lt 0 (num_ders - k + 1) (λ l surf_ders,
      der ← rational_entry dim homo_ders Aders surf_ders k l;
      set_at2 surf_ders k l der) surf_ders) surf_ders.
End Evaluate.

(** ** The basis subsystem, from its contract *)

Section CoxDeBoor.
Context {T : Type} `{Scalar T}.

Definition knot (knots : list T) (i : Z) : T := default s0 (at_ knots i).

(** [knots[i] <= u < knots[i+1]] *)
Definition in_span (knots : list T) (u : T) (i : Z) : bool :=
  sleb (knot knots i) u && negb (sleb (knot knots (i + 1)) u).

Fixpoint first_span (knots : list T) (u : T) (n : nat) (i : Z) : option Z :=
  match n with
  | O => None
  | Datatypes.S n' =>
      if in_span knots u i then Some i
      else first_span knots u n' (i + 1)
  end.

(** Modelled from the spec: [findSpan(degree, knots, u)], whose definition
    is in [basis.h]: the index [span] with
    [knots[span] <= u < knots[span+1]], and the last valid span (the index
    of the last control point) when [u] is at the upper boundary of the
    domain. *)
Definition CdB_findSpan (degree : nat) (knots : list T) (u : T) : Z :=
  let n := Z.of_nat (length knots) - Z.of_nat degree - 2 in
  if sleb (knot knots (n + 1)) u then n
  else default (Z.of_nat degree)
         (first_span knots u (Z.to_nat (n - Z.of_nat degree + 1))
            (Z.of_nat degree)).

(** A quotient of the recurrence, with the convention 0/0 = 0 of repeated
    knots. *)
Definition ratio (a b : T) : T := if seqb b s0 then s0 else sdiv a b.

(** The B-spline basis function [N_{i,p}] at [u], by the recurrence of
    Cox and de Boor; [span] is the knot span of [u]. *)
Fixpoint basis_fun (knots : list T) (u : T) (span : Z) (p : nat) (i : Z)
  : T :=
  match p with
  | O => if bool_decide (i = span) then s1 else s0
  | Datatypes.S p' =>
      let ip := i + Z.of_nat p in
      sadd
        (smul (ratio (ssub u (knot knots i))
                     (ssub (knot knots ip) (knot knots i)))
              (basis_fun knots u span p' i))
        (smul (ratio (ssub (knot knots (ip + 1)) u)
                     (ssub (knot knots (ip + 1)) (knot knots (i + 1))))
              (basis_fun knots u span p' (i + 1)))
  end.

(** The [k]-th derivative of [N_{i,p}] at [u]. *)
Fixpoint basis_der (knots : list T) (u : T) (span : Z) (k : nat) (p : nat)
    (i : Z) : T :=
  match k with
  | O => basis_fun knots u span p i
  | Datatypes.S k' =>
      match p with
      | O => s0
      | Datatypes.S p' =>
          let ip := i + Z.of_nat p in
          smul (s_of_Z (Z.of_nat p))
            (ssub
               (ratio (basis_der knots u span k' p' i)
                      (ssub (knot knots ip) (knot knots i)))
               (ratio (basis_der knots u span k' p' (i + 1))
                      (ssub (knot knots (ip + 1)) (knot knots (i + 1)))))
      end
  end.

(** Modelled from the spec: [bsplineBasis(degree, span, knots, u)], whose
    definition is in [basis.h]: the degree+1 non-zero B-spline basis
    function values at [u]. *)
Definition CdB_bsplineBasis (degree : nat) (span : Z) (knots : list T)
    (u : T) : list T :=
  map (λ j, basis_fun knots u span degree (span - Z.of_nat degree + j))
      (seqZ 0 (Z.of_nat degree + 1)).

(** Modelled from the spec: [bsplineDerBasis(degree, span, knots, u,
    num_ders)], whose definition is in [basis.h]: the table
    [ders[0..num_ders][0..degree]] of basis values and derivatives;
    [ders[0]] is the row of plain basis values. *)
Definition CdB_bsplineDerBasis (degree : nat) (span : Z) (knots : list T)
    (u : T) (num_ders : Z) : list (list T) :=
  map (λ k,
    map (λ j, basis_der knots u span k degree (span - Z.of_nat degree + j))
        (seqZ 0 (Z.of_nat degree + 1)))
    (seq 0 (Z.to_nat (num_ders + 1))).

Definition CoxDeBoor : BasisProvider T :=
  {| findSpan := CdB_findSpan;
     bsplineBasis := CdB_bsplineBasis;
     bsplineDerBasis := CdB_bsplineDerBasis |}.
End CoxDeBoor.

(** ** Exact rational scalars *)

#[global] Instance Qc_Scalar : Scalar Qc := {|
  s0 := Q2Qc 0;
  s1 := Q2Qc 1;
  sadd := Qcplus;
  ssub := Qcminus;
  smul := Qcmult;
  sdiv := Qcdiv;
  s_of_Z := λ z, Q2Qc (inject_Z z);
  sleb := λ a b, Qle_bool a b;
  seqb := λ a b, Qeq_bool a b
|}.

Definition qc (n : Z) (d : positive) : Qc := Q2Qc (Qmake n d).

(** The degree-2 curve of the concrete scenarios: knots [0,0,0,1,1,1],
    control points (0,0), (1,2), (2,0). *)
Definition knots_bezier2 : list Qc :=
  [qc 0 1; qc 0 1; qc 0 1; qc 1 1; qc 1 1; qc 1 1].
Definition cps_arch : list (list Qc) :=
  [[qc 0 1; qc 0 1]; [qc 1 1; qc 2 1]; [qc 2 1; qc 0 1]].
Definition weights_one3 : list Qc := [qc 1 1; qc 1 1; qc 1 1].

(** The same curve with its middle control point at (1,4). *)
Definition cps_tall : list (list Qc) :=
  [[qc 0 1; qc 0 1]; [qc 1 1; qc 4 1]; [qc 2 1; qc 0 1]].

(** A bidegree-(1,1) surface: knots [0,0,1,1] in each direction, a 2×2
    control grid in the plane and a 2×2 weight grid. *)
Definition knots_lin : list Qc := [qc 0 1; qc 0 1; qc 1 1; qc 1 1].
Definition grid_2x2 : list (list (list Qc)) :=
  [[[qc 0 1; qc 0 1]; [qc 0 1; qc 1 1]];
   [[qc 1 1; qc 0 1]; [qc 2 1; qc 3 1]]].
Definition weights_2x2 : list (list Qc) :=
  [[qc 1 1; qc 1 1]; [qc 1 1; qc 2 1]].

(** A 2×2 derivative table a caller still holds from an earlier call. *)
Definition table_stale : list (list (list Qc)) :=
  [[[qc 9 1; qc 9 1]; [qc 8 1; qc 8 1]];
   [[qc 7 1; qc 7 1]; [qc 6 1; qc 6 1]]].


(** ** The vocabulary of the statements *)

(** A vector entry overwritten in place: [v[i] = x] inside [v]. *)
Definition upd {A : Type} (v : list A) (i : Z) (x : A) : list A :=
  <[Z.to_nat i := x]> v.

(** A table entry overwritten in place: [m[i][j] = x] inside [m]. *)
Definition upd2 {A : Type} (m : list (list A)) (i j : Z) (x : A)
  : list (list A) :=
  match at_ m i with
  | Some row => upd m i (upd row j x)
  | None => m
  end.

(** A table of [r] rows of [c] entries. *)
Definition table_shape {A : Type} (m : list (list A)) (r c : nat) : Prop :=
  length m = r ∧ Forall (λ row, length row = c) m.

Section Vocabulary.
Context {T : Type} `{Scalar T}.
Variable BP : BasisProvider T.

(** [N[j]] and [P[j]], read with a default outside the vector; the
    theorems below use them inside the vector only. *)
Definition coef (N : list T) (j : Z) : T := default s0 (at_ N j).
Definition entry {A : Type} (P : list (list A)) (j : Z) : list A :=
  default [] (at_ P j).

(** Σ_{j=0..n-1} c_j · P_j, accumulated from the zero vector in increasing
    order of [j], as the evaluators accumulate. *)
Definition weighted_sum (dim : nat) (c : Z → T) (P : Z → list T) (n : Z)
  : list T :=
  foldl (λ acc j, vadd acc (vscale (c j) (P j))) (vzero dim) (seqZ 0 n).

(** The span [findSpan] returns is a valid span of the knot vector: at
    least [degree], at most the index of the last control point. *)
Definition span_valid (degree : nat) (knots : list T) (u : T) : Prop :=
  Z.of_nat degree ≤ findSpan BP degree knots u
    ≤ Z.of_nat (length knots) - Z.of_nat degree - 2.

(** [bsplineBasis] returns degree+1 values. *)
Definition basis_shape (degree : nat) (knots : list T) (u : T) : Prop :=
  length (bsplineBasis BP degree (findSpan BP degree knots u) knots u)
  = (degree + 1)%nat.

(** The values [bsplineBasis] returns sum to 1, accumulated from 0. *)
Definition basis_sums_to_one (degree : nat) (knots : list T) (u : T) : Prop :=
  foldl sadd s0
    (bsplineBasis BP degree (findSpan BP degree knots u) knots u) = s1.

(** Every weight set to 1: the weight vector of a curve and the weight grid
    of a surface. *)
Definition unit_weights (control_points : list (list T)) : list T :=
  map (λ _, s1) control_points.
Definition unit_weight_grid (control_points : list (list (list T)))
  : list (list T) :=
  map (map (λ _, s1)) control_points.

(** Control points of dimension [dim]. *)
Definition points_dim (dim : nat) (control_points : list (list T)) : Prop :=
  Forall (λ P, length P = dim) control_points.
Definition grid_dim (dim : nat) (control_points : list (list (list T)))
  : Prop :=
  Forall (points_dim dim) control_points.

(** What the unit of [T] does in a product and in a quotient. *)
Definition unit_laws : Prop :=
  (∀ x : T, smul s1 x = x) ∧ (∀ x : T, smul x s1 = x)
  ∧ (∀ x : T, sdiv x s1 = x).

(** [bsplineDerBasis] returns the table [ders[0..num_ders][0..degree]]. *)
Definition ders_shape (degree : nat) (knots : list T) (u : T)
    (num_ders : Z) : Prop :=
  table_shape
    (bsplineDerBasis BP degree (findSpan BP degree knots u) knots u num_ders)
    (Z.to_nat (num_ders + 1)) (degree + 1).

(** The sum of [curveDerivatives] for the order [k]:
    Σ_{j=0..degree} ders[k][j] · control_points[span − degree + j]. *)
Definition curve_der_sum (dim : nat) (u : T) (degree : nat)
    (knots : list T) (control_points : list (list T)) (num_ders : Z)
    (k : Z) : list T :=
  let span := findSpan BP degree knots u in
  let ders := bsplineDerBasis BP degree span knots u num_ders in
  weighted_sum dim (coef (entry ders k))
    (λ j, entry control_points (span - Z.of_nat degree + j))
    (Z.of_nat degree + 1).

(** A rectangular control grid whose two sizes satisfy the valid relation
    with the two degrees and knot vectors. *)
Definition grid_valid (degree_u degree_v : nat) (knots_u knots_v : list T)
    (control_points : list (list (list T))) : Prop :=
  ∃ nv, table_shape control_points (length control_points) nv
        ∧ isValidRelation degree_u (length knots_u) (length control_points)
          = true
        ∧ isValidRelation degree_v (length knots_v) nv = true.

(** [m[i][j]] of a table of vectors, read with a default. *)
Definition entry2 (m : list (list (list T))) (i j : Z) : list T :=
  entry (entry m i) j.

(** The recursion the specification gives for rational curve derivatives,
    for the orders 0..n-1:
    C_k = (A_k − Σ_{i=1..k} binomial(k,i)·w_i·C_{k-i}) / w_0, in increasing
    order of k. *)
Fixpoint quotient_rule (A : Z → list T) (w : Z → T) (n : nat)
  : list (list T) :=
  match n with
  | O => []
  | Datatypes.S n' =>
      let C := quotient_rule A w n' in
      let k := Z.of_nat n' in
      C ++ [vdiv (foldl (λ acc i,
                     vsub acc (vscale (smul (s_of_Z (binomial k i)) (w i))
                                 (entry C (k - i))))
                    (A k) (seqZ 1 k))
                 (w 0)]
  end.

(** The specification of rational curve derivatives, on the homogeneous
    derivatives [Cwders]: A_k is the first D components of [Cwders[k]] and
    w_k its last component. *)
Definition rationalCurveDerivatives_per_spec (Cwders : list (list T))
    (num_ders : Z) : list (list T) :=
  quotient_rule (λ k, truncateHomogenous (entry Cwders k))
                (λ k, default s0 (list.last (entry Cwders k)))
                (Z.to_nat (num_ders + 1)).

(** The specification of rational surface derivatives, for the order
    (k, l): from A_{k,l} subtract the pure-v terms, the pure-u terms and the
    mixed cross terms, then divide by the base weight w(0,0).  [homo_ders]
    holds the homogeneous derivatives, [Aders] their cartesian parts and
    [surf_ders] the cartesian derivatives of lower order. *)
Definition rational_entry_per_spec (dim : nat)
    (homo_ders Aders surf_ders : list (list (list T))) (k l : Z) : list T :=
  let w i j := default s0 (at3 homo_ders i j (Z.of_nat dim)) in
  let b n i := s_of_Z (binomial n i) in
  let pure_v := foldl (λ acc j,
      vsub acc (vscale (smul (b l j) (w 0 j)) (entry2 surf_ders k (l - j))))
      (entry2 Aders k l) (seqZ 1 l) in
  let pure_u := foldl (λ acc i,
      vsub acc (vscale (smul (b k i) (w i 0)) (entry2 surf_ders (k - i) l)))
      pure_v (seqZ 1 k) in
  let mixed := foldl (λ acc i,
      foldl (λ acc j,
        vsub acc (vscale (smul (smul (b k i) (b l j)) (w i j))
                    (entry2 surf_ders (k - i) (l - j))))
        acc (seqZ 1 l))
      pure_u (seqZ 1 k) in
  vdiv mixed (w 0 0).

(** The table of [rationalSurfaceDerivatives] as its [resize] calls leave
    it, before any entry is assigned: [num_ders + 1] rows of [num_ders + 1]
    entries, an entry of the table passed in where it has one, the
    default-constructed vector elsewhere. *)
Definition resized_table (indet : T) (dim : nat) (num_ders : Z)
    (surf_ders : list (list (list T))) : list (list (list T)) :=
  let n1 := Z.to_nat (num_ders + 1) in
  map (resize n1 (replicate dim indet)) (resize n1 [] surf_ders).

Section Surface.
Variables (indet : T) (dim : nat) (u v : T) (degree_u degree_v : nat)
  (knots_u knots_v : list T) (control_points : list (list (list T)))
  (num_ders : Z).

(** The intermediate vector [temp[s]] of [surfaceDerivatives] for the
    u-order [k]: Σ_{r=0..degree_u} ders_u[k][r] ·
    control_points[span_u − degree_u + r][span_v − degree_v + s]. *)
Definition surf_temp_sum (k s : Z) : list T :=
  let span_u := findSpan BP degree_u knots_u u in
  let span_v := findSpan BP degree_v knots_v v in
  let ders_u := bsplineDerBasis BP degree_u span_u knots_u u num_ders in
  weighted_sum dim (coef (entry ders_u k))
    (λ r, entry (entry control_points (span_u - Z.of_nat degree_u + r))
                (span_v - Z.of_nat degree_v + s))
    (Z.of_nat degree_u + 1).

(** The sum of [surfaceDerivatives] for the mixed order (k, l):
    Σ_{s=0..degree_v} ders_v[l][s] · temp[s]. *)
Definition surf_der_sum (k l : Z) : list T :=
  let span_v := findSpan BP degree_v knots_v v in
  let ders_v := bsplineDerBasis BP degree_v span_v knots_v v num_ders in
  weighted_sum dim (coef (entry ders_v l)) (surf_temp_sum k)
    (Z.of_nat degree_v + 1).

(** The orders for which [surfaceDerivatives] runs the summation:
    k <= min(degree_u, num_ders) and l <= min(degree_v, num_ders − k). *)
Definition surf_computed (k l : Z) : Prop :=
  0 ≤ k ≤ Z.min (Z.of_nat degree_u) num_ders
  ∧ 0 ≤ l ≤ Z.min (Z.of_nat degree_v) (num_ders - k).

(** The entry (k, l) of the table of [surfaceDerivatives] when the
    summation starts: the zero vector where the first loop nest assigned
    it, the resized storage elsewhere. *)
Definition surf_init (k l : Z) : list T :=
  if decide (Z.of_nat degree_u < k ∧ Z.of_nat degree_v < l)
  then vzero dim else vdefault indet dim.
End Surface.
End Vocabulary.

(** ** The vocabulary of the further statements *)

Section FurtherVocabulary.
Context {T : Type} `{Scalar T}.
Variable BP : BasisProvider T.

(** The table [curveDerivatives] returns on a valid curve: the sum for the
    orders up to the degree, the zero vector above. *)
Definition curve_ders_table (dim : nat) (u : T) (degree : nat)
    (knots : list T) (control_points : list (list T)) (num_ders : Z)
  : list (list T) :=
  map (λ k, if decide (k ≤ Z.of_nat degree)
            then curve_der_sum BP dim u degree knots control_points
                   num_ders k
            else vzero dim)
      (seqZ 0 (num_ders + 1)).

(** Row 0 of the table of [bsplineDerBasis] is the vector [bsplineBasis]
    returns. *)
Definition ders_row0_is_basis (degree : nat) (knots : list T) (u : T)
    (num_ders : Z) : Prop :=
  let span := findSpan BP degree knots u in
  at_ (bsplineDerBasis BP degree span knots u num_ders) 0
  = Some (bsplineBasis BP degree span knots u).

(** The indices [curvePoint] reads are inside the vectors it reads them
    from. *)
Definition curvePoint_in_bounds (u : T) (degree : nat) (knots : list T)
    (control_points : list (list T)) : Prop :=
  let span := findSpan BP degree knots u in
  Z.of_nat degree < Z.of_nat (length (bsplineBasis BP degree span knots u))
  ∧ Z.of_nat degree ≤ span < Z.of_nat (length control_points).

(** The homogeneous control grid of the rational surface evaluators: the
    point (i, j) lifted with the weight (i, j). *)
Definition lifted_grid (control_points : list (list (list T)))
    (weights : list (list T)) (nu nv : nat) : list (list (list T)) :=
  map (λ i,
    map (λ j, cartesianToHomogenous (entry2 control_points i j)
                (coef (entry weights i) j))
        (seqZ 0 (Z.of_nat nv)))
    (seqZ 0 (Z.of_nat nu)).

(** The laws of [T] that let a common factor [c] of the weights cancel:
    it moves through products, distributes over sums and cancels in a
    quotient. *)
Definition scaling_laws (c : T) : Prop :=
  (∀ w x : T, smul (smul c w) x = smul c (smul w x))
  ∧ (∀ n x : T, smul n (smul c x) = smul c (smul n x))
  ∧ (∀ a b : T, sadd (smul c a) (smul c b) = smul c (sadd a b))
  ∧ smul c s0 = s0
  ∧ (∀ a b : T, sdiv (smul c a) (smul c b) = sdiv a b).

(** Multiplying by the reciprocal [1 / w] is dividing by [w]. *)
Definition reciprocal_law : Prop :=
  ∀ x w : T, smul x (sdiv (s_of_Z 1) w) = sdiv x w.

(** The laws of [T] that make a sum of multiples of one point a multiple of
    that point. *)
Definition combination_laws : Prop :=
  (∀ x : T, smul s0 x = s0)
  ∧ (∀ x : T, smul s1 x = x)
  ∧ (∀ a b x : T, sadd (smul a x) (smul b x) = smul (sadd a b) x).
End FurtherVocabulary.

(** * Properties *)

(** ** Loops and indexing *)

Section LoopFacts.
Context {S : Type}.
Implicit Types (body : Z → S → option S) (I : Z → S → Prop).

Lemma for_up_inv I n a body s :
  I a s →
  (∀ k st, a ≤ k < a + Z.of_nat n → I k st →
     ∃ st', body k st = Some st' ∧ I (k + 1) st') →
  ∃ s', for_up n a body s = Some s' ∧ I (a + Z.of_nat n) s'.
Proof.
  revert a s. induction n as [|n IH]; intros a s H0 Hstep; simpl.
  - exists s. split; [done|]. by replace (a + Z.of_nat 0) with a by lia.
  - destruct (Hstep a s) as (s1 & -> & H1); [lia|done|].
    destruct (IH (a + 1) s1) as (s' & -> & H'); [done| |].
    + intros k st Hk. apply Hstep. lia.
    + exists s'. split; [done|].
      by replace (a + Z.of_nat (Datatypes.S n)) with (a + 1 + Z.of_nat n)
        by lia.
Qed.

Lemma for_le_inv I a b body s :
  a ≤ b + 1 →
  I a s →
  (∀ k st, a ≤ k ≤ b → I k st →
     ∃ st', body k st = Some st' ∧ I (k + 1) st') →
  ∃ s', for_le a b body s = Some s' ∧ I (b + 1) s'.
Proof.
  intros Hab H0 Hstep. unfold for_le.
  destruct (for_up_inv I (Z.to_nat (b - a + 1)) a body s) as (s' & E & H');
    [done| |].
  - intros k st Hk. apply Hstep. lia.
  - exists s'. split; [done|].
    by replace (b + 1) with (a + Z.of_nat (Z.to_nat (b - a + 1))) by lia.
Qed.

Lemma for_lt_inv I a b body s :
  a ≤ b →
  I a s →
  (∀ k st, a ≤ k < b → I k st →
     ∃ st', body k st = Some st' ∧ I (k + 1) st') →
  ∃ s', for_lt a b body s = Some s' ∧ I b s'.
Proof.
  intros Hab H0 Hstep. unfold for_lt.
  destruct (for_up_inv I (Z.to_nat (b - a)) a body s) as (s' & E & H');
    [done| |].
  - intros k st Hk. apply Hstep. lia.
  - exists s'. split; [done|].
    by replace (a + Z.of_nat (Z.to_nat (b - a))) with b in H' by lia.
Qed.

(** The same without a condition on the bounds: an empty loop leaves the
    invariant at [a]. *)
Lemma for_le_inv_max I a b body s :
  I a s →
  (∀ k st, a ≤ k ≤ b → I k st →
     ∃ st', body k st = Some st' ∧ I (k + 1) st') →
  ∃ s', for_le a b body s = Some s' ∧ I (Z.max a (b + 1)) s'.
Proof.
  intros H0 Hstep. destruct (decide (a ≤ b + 1)) as [Hab|Hab].
  - rewrite Z.max_r by done. by apply for_le_inv.
  - exists s. rewrite Z.max_l by lia. split; [|done].
    unfold for_le. by replace (Z.to_nat (b - a + 1)) with O by lia.
Qed.

(** A loop whose body is a total update [f] on the states it meets is a
    left fold of [f] over the counter values. *)
Lemma for_le_foldl (f : S → Z → S) a b body s :
  a ≤ b + 1 →
  (∀ k, a ≤ k ≤ b →
     body k (foldl f s (seqZ a (k - a)))
     = Some (f (foldl f s (seqZ a (k - a))) k)) →
  for_le a b body s = Some (foldl f s (seqZ a (b - a + 1))).
Proof.
  intros Hab Hbody.
  destruct (for_le_inv (λ k st, st = foldl f s (seqZ a (k - a))) a b body s)
    as (s' & -> & ->); [done| | |].
  - by replace (a - a) with 0 by lia.
  - intros k st Hk ->. eexists. split; [by apply Hbody|].
    replace (k + 1 - a) with ((k - a) + 1) by lia.
    rewrite seqZ_app by lia. rewrite foldl_app. simpl.
    by replace (a + (k - a)) with k by lia.
  - by replace (b + 1 - a) with (b - a + 1) by lia.
Qed.

Lemma for_lt_foldl (f : S → Z → S) a b body s :
  a ≤ b →
  (∀ k, a ≤ k < b →
     body k (foldl f s (seqZ a (k - a)))
     = Some (f (foldl f s (seqZ a (k - a))) k)) →
  for_lt a b body s = Some (foldl f s (seqZ a (b - a))).
Proof.
  intros Hab Hbody.
  replace (for_lt a b body s) with (for_le a (b - 1) body s).
  - replace (b - a) with (b - 1 - a + 1) by lia.
    apply for_le_foldl; [lia|]. intros k Hk. apply Hbody. lia.
  - unfold for_le, for_lt. f_equal. lia.
Qed.

(** A loop whose body never fails returns. *)
Lemma for_lt_is_Some a b body s :
  (∀ k st, a ≤ k < b → is_Some (body k st)) →
  is_Some (for_lt a b body s).
Proof.
  intros Hbody. destruct (decide (a ≤ b)) as [Hab|Hab].
  - destruct (for_lt_inv (λ _ _, True) a b body s) as (s' & -> & _);
      [done..| |done].
    intros k st Hk _. destruct (Hbody k st Hk) as [st' ->]. by exists st'.
  - unfold for_lt. by replace (Z.to_nat (b - a)) with O by lia.
Qed.

(** A loop that only rewrites one cell [put] of its state folds the cell's
    value. *)
Lemma for_le_cell {A : Type} (put : A → S) (g : A → Z → A) a b body x0 :
  a ≤ b + 1 →
  (∀ j x, a ≤ j ≤ b → body j (put x) = Some (put (g x j))) →
  for_le a b body (put x0) = Some (put (foldl g x0 (seqZ a (b - a + 1)))).
Proof.
  intros Hab Hbody.
  destruct (for_le_inv (λ j st, st = put (foldl g x0 (seqZ a (j - a))))
              a b body (put x0)) as (s' & -> & ->); [done| | |].
  - by replace (a - a) with 0 by lia.
  - intros j st Hj ->. eexists. split; [by apply Hbody|].
    replace (j + 1 - a) with ((j - a) + 1) by lia.
    rewrite seqZ_app by lia. rewrite foldl_app. simpl.
    by replace (a + (j - a)) with j by lia.
  - by replace (b + 1 - a) with (b - a + 1) by lia.
Qed.

Lemma for_lt_cell {A : Type} (put : A → S) (g : A → Z → A) a b body x0 :
  a ≤ b →
  (∀ j x, a ≤ j < b → body j (put x) = Some (put (g x j))) →
  for_lt a b body (put x0) = Some (put (foldl g x0 (seqZ a (b - a)))).
Proof.
  intros Hab Hbody.
  replace (for_lt a b body (put x0)) with (for_le a (b - 1) body (put x0)).
  - replace (b - a) with (b - 1 - a + 1) by lia.
    apply for_le_cell; [lia|]. intros j x Hj. apply Hbody. lia.
  - unfold for_le, for_lt. f_equal. lia.
Qed.
End LoopFacts.

Section IndexFacts.
Context {A : Type}.
Implicit Types (v : list A) (m : list (list A)).

Lemma at_lookup v i : 0 ≤ i → at_ v i = v !! Z.to_nat i.
Proof. intros. unfold at_. by rewrite bool_decide_eq_true_2. Qed.

Lemma at_is_Some v i : 0 ≤ i < Z.of_nat (length v) → is_Some (at_ v i).
Proof.
  intros. rewrite at_lookup by lia. apply lookup_lt_is_Some. lia.
Qed.

Lemma at_Some_range v i x : at_ v i = Some x → 0 ≤ i < Z.of_nat (length v).
Proof.
  unfold at_. case_bool_decide; [|done]. intros E%lookup_lt_Some. lia.
Qed.

Lemma at_default v i d :
  0 ≤ i < Z.of_nat (length v) → at_ v i = Some (default d (at_ v i)).
Proof. intros Hi. by destruct (at_is_Some v i Hi) as [x ->]. Qed.

Lemma set_at_Some v i x :
  0 ≤ i < Z.of_nat (length v) → set_at v i x = Some (<[Z.to_nat i := x]> v).
Proof. intros. unfold set_at. by rewrite bool_decide_eq_true_2. Qed.

Lemma at_insert_eq v i x :
  0 ≤ i < Z.of_nat (length v) → at_ (<[Z.to_nat i := x]> v) i = Some x.
Proof.
  intros. rewrite at_lookup by lia. apply list_lookup_insert_eq. lia.
Qed.

Lemma at_insert_ne v i j x :
  0 ≤ i → i ≠ j → at_ (<[Z.to_nat i := x]> v) j = at_ v j.
Proof.
  intros. unfold at_. case_bool_decide; [|done].
  apply list_lookup_insert_ne. lia.
Qed.

Lemma at_replicate n (x : A) i :
  0 ≤ i < Z.of_nat n → at_ (replicate n x) i = Some x.
Proof.
  intros. rewrite at_lookup by lia. apply lookup_replicate_2. lia.
Qed.

Lemma length_upd v i x : length (upd v i x) = length v.
Proof. apply length_insert. Qed.

Lemma set_at_upd v i x :
  0 ≤ i < Z.of_nat (length v) → set_at v i x = Some (upd v i x).
Proof. apply set_at_Some. Qed.

Lemma at_upd v i j x :
  0 ≤ i < Z.of_nat (length v) →
  at_ (upd v i x) j = if decide (j = i) then Some x else at_ v j.
Proof.
  intros. unfold upd. case_decide as E.
  - subst j. by apply at_insert_eq.
  - apply at_insert_ne; lia.
Qed.

Lemma upd_upd v i x y : upd (upd v i x) i y = upd v i y.
Proof. apply list_insert_insert_eq. Qed.

End IndexFacts.

Section TableFacts.
Context {A : Type}.
Implicit Types (v : list A) (m : list (list A)).

Lemma upd2_row m i j x row :
  at_ m i = Some row → upd2 m i j x = upd m i (upd row j x).
Proof. intros E. unfold upd2. by rewrite E. Qed.

Lemma set_at2_upd2 m i j x row :
  at_ m i = Some row → 0 ≤ j < Z.of_nat (length row) →
  set_at2 m i j x = Some (upd2 m i j x).
Proof.
  intros E Hj. unfold set_at2. rewrite E. simpl.
  rewrite set_at_upd by done. simpl.
  rewrite (upd2_row _ _ _ _ row) by done.
  apply set_at_upd. by eapply at_Some_range.
Qed.

Lemma at_upd2 m i j x row i' :
  at_ m i = Some row →
  at_ (upd2 m i j x) i'
  = if decide (i' = i) then Some (upd row j x) else at_ m i'.
Proof.
  intros E. rewrite (upd2_row _ _ _ _ row) by done.
  apply at_upd. by eapply at_Some_range.
Qed.

Lemma at2_upd2 m i j x row i' j' :
  at_ m i = Some row → 0 ≤ j < Z.of_nat (length row) →
  at2 (upd2 m i j x) i' j'
  = if decide (i' = i ∧ j' = j) then Some x else at2 m i' j'.
Proof.
  intros E Hj. unfold at2. rewrite (at_upd2 _ _ _ _ row) by done.
  destruct (decide (i' = i)) as [->|Hi]; simpl.
  - rewrite at_upd by done. rewrite E. simpl.
    destruct (decide (j' = j)) as [->|Hne].
    + by rewrite decide_True.
    + by rewrite decide_False by (by intros [_ ?]).
  - by rewrite decide_False by (by intros [? _]).
Qed.

Lemma upd2_upd2 m i j x y row :
  at_ m i = Some row →
  upd2 (upd2 m i j x) i j y = upd2 m i j y.
Proof.
  intros E. pose proof (at_Some_range _ _ _ E).
  rewrite (upd2_row (upd2 m i j x) _ _ _ (upd row j x)).
  - rewrite !(upd2_row m _ _ _ row) by done. by rewrite !upd_upd.
  - rewrite (at_upd2 _ _ _ _ row) by done. by rewrite decide_True.
Qed.

Lemma length_upd2 m i j x : length (upd2 m i j x) = length m.
Proof. unfold upd2. destruct (at_ m i); [apply length_upd|done]. Qed.

Lemma table_shape_at m r c i :
  table_shape m r c → 0 ≤ i < Z.of_nat r →
  ∃ row, at_ m i = Some row ∧ length row = c.
Proof.
  intros [Hr Hc] Hi. destruct (at_is_Some m i) as [row E]; [lia|].
  exists row. split; [done|].
  rewrite at_lookup in E by lia.
  by eapply (Forall_lookup_1 _ _ _ _ Hc).
Qed.

Lemma table_shape_upd2 m r c i j x :
  table_shape m r c → table_shape (upd2 m i j x) r c.
Proof.
  intros [Hr Hc]. split; [by rewrite length_upd2|].
  unfold upd2. destruct (at_ m i) as [row|] eqn:E; [|done].
  unfold upd. apply Forall_insert; [done|].
  rewrite length_insert.
  unfold at_ in E. case_bool_decide; [|done].
  by eapply (Forall_lookup_1 _ _ _ _ Hc).
Qed.

Lemma table_shape_replicate r c (x : A) :
  table_shape (replicate r (replicate c x)) r c.
Proof.
  split; [apply length_replicate|].
  apply Forall_replicate. apply length_replicate.
Qed.
End TableFacts.

Section SumFacts.
Context {T : Type} `{Scalar T}.

Lemma seqZ_0_succ (m : nat) :
  seqZ 0 (Z.of_nat (Datatypes.S m)) = seqZ 0 (Z.of_nat m) ++ [Z.of_nat m].
Proof.
  replace (Z.of_nat (Datatypes.S m)) with (Z.of_nat m + 1) by lia.
  rewrite seqZ_app by lia. by rewrite Z.add_0_l.
Qed.

(** An invariant of a fold over the counter values 0..n-1. *)
Lemma foldl_seqZ_inv {A : Type} (Inv : Z → A → Prop) (f : A → Z → A)
    (a : A) (n : Z) :
  0 ≤ n →
  Inv 0 a →
  (∀ k x, 0 ≤ k < n → Inv k x → Inv (k + 1) (f x k)) →
  Inv n (foldl f a (seqZ 0 n)).
Proof.
  intros Hn H0 Hstep.
  rewrite <- (Z2Nat.id n) in Hstep |- * by done.
  induction (Z.to_nat n) as [|m IH]; [done|].
  rewrite seqZ_0_succ, foldl_app. simpl.
  replace (Z.of_nat (Datatypes.S m)) with (Z.of_nat m + 1) by lia.
  apply Hstep; [lia|]. apply IH. intros k x Hk. apply Hstep. lia.
Qed.

Lemma foldl_seqZ_ext {A : Type} (f g : A → Z → A) (a : A) (n : Z) :
  (∀ k x, 0 ≤ k < n → f x k = g x k) →
  foldl f a (seqZ 0 n) = foldl g a (seqZ 0 n).
Proof.
  intros Hfg. destruct (decide (0 ≤ n)) as [Hn|Hn].
  - apply (foldl_seqZ_inv (λ k x, x = foldl g a (seqZ 0 k))); [done..|].
    intros k x Hk ->. rewrite seqZ_app by lia. rewrite foldl_app. simpl.
    by apply Hfg.
  - unfold seqZ. by replace (Z.to_nat n) with O by lia.
Qed.

Lemma weighted_sum_ext (dim : nat) (c c' : Z → T) (P P' : Z → list T)
    (n : Z) :
  (∀ j, 0 ≤ j < n → c j = c' j) →
  (∀ j, 0 ≤ j < n → P j = P' j) →
  weighted_sum dim c P n = weighted_sum dim c' P' n.
Proof.
  intros Hc HP. unfold weighted_sum. apply foldl_seqZ_ext.
  intros k x Hk. by rewrite Hc, HP.
Qed.

Lemma length_vzero (dim : nat) : length (vzero (T:=T) dim) = dim.
Proof. apply length_replicate. Qed.

Lemma length_vadd (a b : list T) :
  length a = length b → length (vadd a b) = length a.
Proof. intros E. unfold vadd. rewrite length_zip_with. lia. Qed.

Lemma length_vscale (x : T) (v : list T) : length (vscale x v) = length v.
Proof. apply length_map. Qed.

Lemma length_weighted_sum (dim : nat) (c : Z → T) (P : Z → list T) (n : Z) :
  (∀ j, 0 ≤ j < n → length (P j) = dim) →
  length (weighted_sum dim c P n) = dim.
Proof.
  intros HP. unfold weighted_sum. destruct (decide (0 ≤ n)) as [Hn|Hn].
  - apply (foldl_seqZ_inv (λ _ x, length x = dim)); [done|apply length_vzero|].
    intros k x Hk Hx. rewrite length_vadd; [done|].
    rewrite length_vscale, HP; done.
  - unfold seqZ. replace (Z.to_nat n) with O by lia. apply length_vzero.
Qed.

(** The sum of points lifted with weight 1: the sum of the points, followed
    by the sum of the coefficients. *)
Lemma weighted_sum_lifted (dim : nat) (c : Z → T) (P : Z → list T) (n : Z) :
  (∀ x : T, smul x s1 = x) →
  0 ≤ n →
  (∀ j, 0 ≤ j < n → length (P j) = dim) →
  weighted_sum (dim + 1) c (λ j, P j ++ [s1]) n
  = weighted_sum dim c P n ++ [foldl (λ a j, sadd a (c j)) s0 (seqZ 0 n)].
Proof.
  intros Hmul Hn HP. unfold weighted_sum.
  apply (foldl_seqZ_inv (λ k x,
    x = foldl (λ acc j, vadd acc (vscale (c j) (P j))) (vzero dim) (seqZ 0 k)
        ++ [foldl (λ a j, sadd a (c j)) s0 (seqZ 0 k)])); [done| |].
  - unfold vzero. by rewrite replicate_add.
  - intros k x Hk ->. rewrite !seqZ_app by lia. rewrite !foldl_app. simpl.
    unfold vadd, vscale. rewrite map_app. simpl. rewrite Hmul.
    rewrite zip_with_app; [done|].
    rewrite length_map, HP by done.
    apply (length_weighted_sum dim c P k). intros j Hj. apply HP. lia.
Qed.

(** The indexed sum of the entries of a list is its fold. *)
Lemma foldl_coef (N : list T) :
  foldl (λ a j, sadd a (coef N j)) s0 (seqZ 0 (Z.of_nat (length N)))
  = foldl sadd s0 N.
Proof.
  induction N as [|x N IH] using rev_ind; [done|].
  rewrite length_app. simpl.
  replace (length N + 1)%nat with (Datatypes.S (length N)) by lia.
  rewrite seqZ_0_succ, !foldl_app. simpl. rewrite <- IH. f_equal.
  - apply foldl_seqZ_ext. intros k a Hk. f_equal. unfold coef.
    rewrite !at_lookup by lia. by rewrite lookup_app_l by lia.
  - unfold coef. rewrite at_lookup by lia. rewrite Nat2Z.id.
    by rewrite list_lookup_middle.
Qed.

Lemma truncateHomogenous_snoc (x : list T) (w : T) :
  truncateHomogenous (x ++ [w]) = x.
Proof.
  unfold truncateHomogenous. rewrite length_app. simpl.
  replace (length x + 1 - 1)%nat with (length x) by lia.
  by rewrite take_app_length.
Qed.

Lemma homogenousToCartesian_unit (x : list T) :
  (∀ y : T, sdiv y s1 = y) → homogenousToCartesian (x ++ [s1]) = x.
Proof.
  intros Hdiv. unfold homogenousToCartesian.
  rewrite truncateHomogenous_snoc, last_snoc. simpl.
  unfold vdiv. induction x as [|y x IH]; [done|].
  simpl. by rewrite Hdiv, IH.
Qed.

Lemma cartesianToHomogenous_unit (x : list T) :
  (∀ y : T, smul s1 y = y) → cartesianToHomogenous x s1 = x ++ [s1].
Proof.
  intros Hmul. unfold cartesianToHomogenous, vscale. f_equal.
  induction x as [|y x IH]; [done|]. simpl. by rewrite Hmul, IH.
Qed.
End SumFacts.

Section Statements.
Context {T : Type} `{Scalar T}.
Variable indet : T.
Variable BP : BasisProvider T.

Lemma at2_entry {A : Type} (P : list (list (list A))) nu nv i j :
  table_shape P nu nv → 0 ≤ i < Z.of_nat nu → 0 ≤ j < Z.of_nat nv →
  at2 P i j = Some (entry (entry P i) j).
Proof.
  intros HP Hi Hj.
  destruct (table_shape_at P nu nv i HP Hi) as (row & E & L).
  unfold at2, entry. rewrite E. simpl. apply at_default. lia.
Qed.

Lemma at2_coef (ders : list (list T)) r c i j :
  table_shape ders r c → 0 ≤ i < Z.of_nat r → 0 ≤ j < Z.of_nat c →
  at2 ders i j = Some (coef (entry ders i) j).
Proof.
  intros HP Hi Hj.
  destruct (table_shape_at ders r c i HP Hi) as (row & E & L).
  unfold at2, entry, coef. rewrite E. simpl. apply at_default. lia.
Qed.

Lemma at_map {A B : Type} (f : A → B) (l : list A) (i : Z) :
  at_ (map f l) i = f <$> at_ l i.
Proof. unfold at_. case_bool_decide; [|done]. apply list_lookup_fmap. Qed.

Lemma entry_map {A B : Type} (f : list A → list B) (l : list (list A))
    (i : Z) :
  0 ≤ i < Z.of_nat (length l) → entry (map f l) i = f (entry l i).
Proof.
  intros Hi. unfold entry. rewrite at_map.
  by destruct (at_is_Some l i Hi) as [x ->].
Qed.

(** Pushing the image of every entry, in order, builds the mapped list. *)
Lemma foldl_snoc_map {A B : Type} (g : list A → B) (l : list (list A)) :
  foldl (λ acc i, acc ++ [g (entry l i)]) [] (seqZ 0 (Z.of_nat (length l)))
  = map g l.
Proof.
  induction l as [|x l IH] using rev_ind; [done|].
  rewrite length_app. simpl.
  replace (length l + 1)%nat with (Datatypes.S (length l)) by lia.
  rewrite seqZ_0_succ, foldl_app, map_app. simpl. rewrite <- IH. f_equal.
  - apply foldl_seqZ_ext. intros k a Hk. do 2 f_equal. unfold entry.
    rewrite !at_lookup by lia. by rewrite lookup_app_l by lia.
  - unfold entry. rewrite at_lookup by lia. rewrite Nat2Z.id.
    by rewrite list_lookup_middle.
Qed.

(** [curvePoint] on control points its span reaches. *)
Lemma curvePoint_weighted_sum (dim : nat) (u : T) (degree : nat)
    (knots : list T) (control_points : list (list T)) :
  let span := findSpan BP degree knots u in
  let N := bsplineBasis BP degree span knots u in
  Z.of_nat degree ≤ span < Z.of_nat (length control_points) →
  length N = (degree + 1)%nat →
  curvePoint BP dim u degree knots control_points
  = Some (weighted_sum dim (coef N)
            (λ j, entry control_points (span - Z.of_nat degree + j))
            (Z.of_nat degree + 1)).
Proof.
  intros span N Hspan HN. unfold curvePoint, weighted_sum. fold span N.
  rewrite (for_le_foldl
             (λ acc j, vadd acc (vscale (coef N j)
                (entry control_points (span - Z.of_nat degree + j)))));
    [by rewrite Z.sub_0_r|lia|].
  intros j Hj. unfold coef, entry.
  rewrite (at_default N j s0) by lia. simpl.
  by rewrite (at_default control_points _ []) by lia.
Qed.

(** C5. On a curve whose degree, knots and control points satisfy the
    valid relation, at a parameter for which [findSpan] returns a valid
    span and [bsplineBasis] its degree+1 values, [curvePoint] returns the
    sum over j = 0..degree of N_j · control_points[span − degree + j]. *)
Theorem curvePoint_is_local_sum (dim : nat) (u : T) (degree : nat)
    (knots : list T) (control_points : list (list T)) :
  isValidRelation degree (length knots) (length control_points) = true →
  span_valid BP degree knots u →
  basis_shape BP degree knots u →
  let span := findSpan BP degree knots u in
  let N := bsplineBasis BP degree span knots u in
  curvePoint BP dim u degree knots control_points
  = Some (weighted_sum dim (coef N)
            (λ j, entry control_points (span - Z.of_nat degree + j))
            (Z.of_nat degree + 1)).
Proof.
  intros Hrel%bool_decide_eq_true_1 Hspan HN span N.
  unfold span_valid in Hspan.
  apply curvePoint_weighted_sum; [lia|done].
Qed.

(** [surfacePoint] on a control grid its spans reach. *)
Lemma surfacePoint_weighted_sum (dim : nat) (u v : T)
    (degree_u degree_v : nat) (knots_u knots_v : list T)
    (control_points : list (list (list T))) (nu nv : nat) :
  let span_u := findSpan BP degree_u knots_u u in
  let span_v := findSpan BP degree_v knots_v v in
  let Nu := bsplineBasis BP degree_u span_u knots_u u in
  let Nv := bsplineBasis BP degree_v span_v knots_v v in
  table_shape control_points nu nv →
  Z.of_nat degree_u ≤ span_u < Z.of_nat nu →
  Z.of_nat degree_v ≤ span_v < Z.of_nat nv →
  length Nu = (degree_u + 1)%nat →
  length Nv = (degree_v + 1)%nat →
  surfacePoint BP dim u v degree_u degree_v knots_u knots_v control_points
  = Some (weighted_sum dim (coef Nv)
            (λ l, weighted_sum dim (coef Nu)
                    (λ k, entry2 control_points
                            (span_u - Z.of_nat degree_u + k)
                            (span_v - Z.of_nat degree_v + l))
                    (Z.of_nat degree_u + 1))
            (Z.of_nat degree_v + 1)).
Proof.
  intros span_u span_v Nu Nv Hcp Hsu Hsv HNu HNv.
  unfold surfacePoint. fold span_u span_v Nu Nv.
  unfold weighted_sum at 1.
  rewrite (for_le_foldl
    (λ acc l, vadd acc (vscale (coef Nv l)
       (weighted_sum dim (coef Nu)
          (λ k, entry2 control_points (span_u - Z.of_nat degree_u + k)
                  (span_v - Z.of_nat degree_v + l))
          (Z.of_nat degree_u + 1)))));
    [by rewrite Z.sub_0_r|lia|].
  intros l Hl.
  rewrite (for_le_foldl
    (λ acc k, vadd acc (vscale (coef Nu k)
       (entry2 control_points (span_u - Z.of_nat degree_u + k)
          (span_v - Z.of_nat degree_v + l))))); [|lia|].
  - simpl. rewrite (at_default Nv l s0) by lia. simpl.
    unfold weighted_sum. by rewrite !Z.sub_0_r.
  - intros k Hk. unfold coef.
    rewrite (at_default Nu k s0) by lia. simpl.
    by rewrite (at2_entry control_points _ _ _ _ Hcp) by lia.
Qed.

(** The storage of [curve_ders] after [clear] and [resize]. *)
Lemma at_vdefaults (n dim : nat) (i : Z) :
  0 ≤ i < Z.of_nat n →
  at_ (replicate n (vdefault indet dim)) i = Some (vdefault indet dim).
Proof. apply at_replicate. Qed.

(** C7. For [num_ders >= 0], on a valid curve, [curveDerivatives] returns
    num_ders+1 entries; the entry of every order k with
    degree < k <= num_ders is the zero vector, and the entry of every order
    k <= min(degree, num_ders) is the sum over j = 0..degree of
    ders[k][j] · control_points[span − degree + j]. *)
Theorem curveDerivatives_table (dim : nat) (u : T) (degree : nat)
    (knots : list T) (control_points : list (list T)) (num_ders : Z) :
  0 ≤ num_ders →
  isValidRelation degree (length knots) (length control_points) = true →
  span_valid BP degree knots u →
  ders_shape BP degree knots u num_ders →
  ∃ curve_ders,
    curveDerivatives indet BP dim u degree knots control_points num_ders
      = Some curve_ders
    ∧ length curve_ders = Z.to_nat (num_ders + 1)
    ∧ (∀ k, Z.of_nat degree < k ≤ num_ders →
             at_ curve_ders k = Some (vzero dim))
    ∧ (∀ k, 0 ≤ k ≤ Z.min (Z.of_nat degree) num_ders →
             at_ curve_ders k
             = Some (curve_der_sum BP dim u degree knots control_points
                       num_ders k)).
Proof.
  intros Hnd Hrel Hspan Hders. unfold curveDerivatives.
  apply bool_decide_eq_true_1 in Hrel.
  unfold span_valid in Hspan. unfold ders_shape in Hders.
  rewrite bool_decide_eq_false_2 by lia.
  set (n1 := Z.to_nat (num_ders + 1)).
  set (span := findSpan BP degree knots u) in *.
  set (ders := bsplineDerBasis BP degree span knots u num_ders) in *.
  set (du := if bool_decide (num_ders < Z.of_nat degree)
             then num_ders else Z.of_nat degree).
  assert (Hdu : du = Z.min (Z.of_nat degree) num_ders)
    by (unfold du; case_bool_decide; lia).
  (* the loop that assigns zero to the orders above the degree *)
  destruct (for_le_inv_max
    (λ k cd, length cd = n1 ∧
       ∀ i, 0 ≤ i < Z.of_nat n1 →
         at_ cd i = Some (if decide (Z.of_nat degree < i < k)
                          then vzero dim else vdefault indet dim))
    (Z.of_nat degree + 1) num_ders
    (λ k cd, set_at cd k (vzero dim))
    (replicate n1 (vdefault indet dim))) as (cd1 & -> & Hlen1 & Hcd1).
  { split; [apply length_replicate|]. intros i Hi.
    rewrite at_vdefaults by done. by rewrite decide_False by lia. }
  { intros k cd Hk [Hlen Hcd]. exists (upd cd k (vzero dim)).
    split; [apply set_at_upd; lia|]. split; [by rewrite length_upd|].
    intros i Hi. rewrite at_upd by lia. rewrite Hcd by done.
    repeat case_decide; try done; lia. }
  simpl.
  (* the loop that computes the orders up to the degree *)
  destruct (for_le_inv
    (λ k cd, length cd = n1 ∧
       ∀ i, 0 ≤ i < Z.of_nat n1 →
         at_ cd i = Some (
           if decide (i < k)
           then curve_der_sum BP dim u degree knots control_points
                  num_ders i
           else if decide (Z.of_nat degree < i)
                then vzero dim else vdefault indet dim))
    0 du
    (λ k curve_ders,
       curve_ders ← set_at curve_ders k (vzero dim);
       for_le 0 (Z.of_nat degree) (λ j curve_ders,
         acc ← at_ curve_ders k;
         d ← at2 ders k j;
         P ← at_ control_points (span - Z.of_nat degree + j);
         set_at curve_ders k (vadd acc (vscale d P))) curve_ders)
    cd1) as (cd2 & -> & Hlen2 & Hcd2).
  { lia. }
  { split; [done|]. intros i Hi. rewrite Hcd1 by done.
    repeat case_decide; try done; lia. }
  { intros k cd Hk [Hlen Hcd].
    exists (upd cd k (curve_der_sum BP dim u degree knots control_points
                        num_ders k)).
    split.
    - rewrite set_at_upd by lia. simpl.
      unfold curve_der_sum, weighted_sum. fold span ders.
      rewrite (for_le_cell (upd cd k)
        (λ acc j, vadd acc (vscale (coef (entry ders k) j)
           (entry control_points (span - Z.of_nat degree + j)))));
        [by rewrite Z.sub_0_r|lia|].
      intros j x Hj. rewrite at_upd by lia. rewrite decide_True by done.
      simpl.
      destruct (table_shape_at ders _ _ k Hders) as (row & Erow & Lrow);
        [lia|].
      unfold at2, coef, entry. rewrite Erow. simpl.
      rewrite (at_default row j s0) by lia. simpl.
      rewrite (at_default control_points _ []) by lia. simpl.
      rewrite set_at_upd by (rewrite length_upd; lia).
      by rewrite upd_upd.
    - split; [by rewrite length_upd|].
      intros i Hi. rewrite at_upd by lia. rewrite Hcd by done.
      repeat case_decide; subst; try done; lia. }
  exists cd2. split; [done|]. split; [done|]. split.
  - intros k Hk. rewrite Hcd2 by lia.
    rewrite decide_False by lia. by rewrite decide_True by lia.
  - intros k Hk. rewrite Hcd2 by lia. by rewrite decide_True by lia.
Qed.

Section SurfaceDerivatives.
Variables (dim : nat) (u v : T) (degree_u degree_v : nat)
  (knots_u knots_v : list T) (control_points : list (list (list T)))
  (num_ders : Z).
Hypothesis Hnd : 0 ≤ num_ders.
Hypothesis Hgrid :
  grid_valid degree_u degree_v knots_u knots_v control_points.
Hypothesis Hspan_u : span_valid BP degree_u knots_u u.
Hypothesis Hspan_v : span_valid BP degree_v knots_v v.
Hypothesis Hders_u : ders_shape BP degree_u knots_u u num_ders.
Hypothesis Hders_v : ders_shape BP degree_v knots_v v num_ders.

Local Abbreviation n1 := (Z.to_nat (num_ders + 1)).
Local Abbreviation span_u := (findSpan BP degree_u knots_u u).
Local Abbreviation span_v := (findSpan BP degree_v knots_v v).
Local Abbreviation ders_u :=
  (bsplineDerBasis BP degree_u (findSpan BP degree_u knots_u u) knots_u u
     num_ders).
Local Abbreviation ders_v :=
  (bsplineDerBasis BP degree_v (findSpan BP degree_v knots_v v) knots_v v
     num_ders).
Local Abbreviation tsum :=
  (surf_temp_sum BP dim u v degree_u degree_v knots_u knots_v control_points
     num_ders).
Local Abbreviation dsum :=
  (surf_der_sum BP dim u v degree_u degree_v knots_u knots_v control_points
     num_ders).
Local Abbreviation init := (surf_init indet dim degree_u degree_v).

(** The loop nest under "Set higher order derivatives to 0". *)
Lemma surfaceDerivatives_zero_loops :
  ∃ sd,
    for_le (Z.of_nat degree_u + 1) num_ders (λ k surf_ders,
      for_le (Z.of_nat degree_v + 1) num_ders (λ l surf_ders,
        set_at2 surf_ders k l (vzero dim)) surf_ders)
      (replicate n1 (replicate n1 (vdefault indet dim))) = Some sd
    ∧ table_shape sd n1 n1
    ∧ ∀ i j, 0 ≤ i ≤ num_ders → 0 ≤ j ≤ num_ders →
        at2 sd i j = Some (init i j).
Proof.
  destruct (for_le_inv_max
    (λ k sd, table_shape sd n1 n1 ∧
       ∀ i j, 0 ≤ i ≤ num_ders → 0 ≤ j ≤ num_ders →
         at2 sd i j
         = Some (if decide (Z.of_nat degree_u < i < k
                            ∧ Z.of_nat degree_v < j)
                 then vzero dim else vdefault indet dim))
    (Z.of_nat degree_u + 1) num_ders
    (λ k surf_ders,
      for_le (Z.of_nat degree_v + 1) num_ders (λ l surf_ders,
        set_at2 surf_ders k l (vzero dim)) surf_ders)
    (replicate n1 (replicate n1 (vdefault indet dim))))
    as (sd & E & Hsh & Hsd).
  { split; [apply table_shape_replicate|]. intros i j Hi Hj.
    unfold at2. rewrite at_replicate by lia. simpl.
    rewrite at_replicate by lia. by rewrite decide_False by lia. }
  { intros k sd Hk [Hsh Hsd].
    destruct (for_le_inv_max
      (λ l sd', table_shape sd' n1 n1 ∧
         ∀ i j, 0 ≤ i ≤ num_ders → 0 ≤ j ≤ num_ders →
           at2 sd' i j
           = Some (if decide ((Z.of_nat degree_u < i < k
                               ∧ Z.of_nat degree_v < j)
                              ∨ (i = k ∧ Z.of_nat degree_v < j < l))
                   then vzero dim else vdefault indet dim))
      (Z.of_nat degree_v + 1) num_ders
      (λ l surf_ders, set_at2 surf_ders k l (vzero dim)) sd)
      as (sd' & E' & Hsh' & Hsd').
    { split; [done|]. intros i j Hi Hj. rewrite Hsd by done.
      repeat case_decide; try done; lia. }
    { intros l st Hl [Hst1 Hst2].
      destruct (table_shape_at st n1 n1 k Hst1) as (row & Erow & Lrow);
        [lia|].
      exists (upd2 st k l (vzero dim)). split.
      - apply (set_at2_upd2 _ _ _ _ row); [done|lia].
      - split; [by apply table_shape_upd2|]. intros i j Hi Hj.
        rewrite (at2_upd2 _ _ _ _ row) by (done || lia).
        rewrite Hst2 by done.
        repeat case_decide; try done; lia. }
    exists sd'. split; [done|]. split; [done|].
    intros i j Hi Hj. rewrite Hsd' by done.
    repeat case_decide; try done; lia. }
  exists sd. split; [done|]. split; [done|].
  intros i j Hi Hj. rewrite Hsd by done. unfold surf_init.
  repeat case_decide; try done; lia.
Qed.

(** The loop over [s] that fills [temp] for the u-order [k]. *)
Lemma surfaceDerivatives_temp_loop (k : Z) (temp : list (list T)) :
  0 ≤ k ≤ num_ders →
  length temp = (degree_v + 1)%nat →
  ∃ temp',
    for_le 0 (Z.of_nat degree_v) (λ s temp,
      temp ← set_at temp s (vzero dim);
      for_le 0 (Z.of_nat degree_u) (λ r temp,
        acc ← at_ temp s;
        d ← at2 ders_u k r;
        P ← at2 control_points (span_u - Z.of_nat degree_u + r)
                               (span_v - Z.of_nat degree_v + s);
        set_at temp s (vadd acc (vscale d P))) temp) temp = Some temp'
    ∧ length temp' = (degree_v + 1)%nat
    ∧ ∀ s, 0 ≤ s ≤ Z.of_nat degree_v → at_ temp' s = Some (tsum k s).
Proof.
  intros Hk Hlen.
  destruct Hgrid as (nv & Hcp & Hru%bool_decide_eq_true_1
                        & Hrv%bool_decide_eq_true_1).
  unfold span_valid in Hspan_u, Hspan_v.
  destruct (for_le_inv
    (λ s t, length t = (degree_v + 1)%nat ∧
       ∀ s', 0 ≤ s' < s → at_ t s' = Some (tsum k s'))
    0 (Z.of_nat degree_v)
    (λ s temp,
      temp ← set_at temp s (vzero dim);
      for_le 0 (Z.of_nat degree_u) (λ r temp,
        acc ← at_ temp s;
        d ← at2 ders_u k r;
        P ← at2 control_points (span_u - Z.of_nat degree_u + r)
                               (span_v - Z.of_nat degree_v + s);
        set_at temp s (vadd acc (vscale d P))) temp) temp)
    as (temp' & E & Hlen' & Htemp'); [lia| | |].
  { split; [done|]. intros; lia. }
  { intros s t Hs [Ht1 Ht2]. exists (upd t s (tsum k s)). split.
    - rewrite set_at_upd by lia. simpl.
      unfold surf_temp_sum, weighted_sum.
      rewrite (for_le_cell (upd t s)
        (λ acc r, vadd acc (vscale (coef (entry ders_u k) r)
           (entry (entry control_points
                     (span_u - Z.of_nat degree_u + r))
                  (span_v - Z.of_nat degree_v + s)))));
        [by rewrite Z.sub_0_r|lia|].
      intros r x Hr. rewrite at_upd by lia.
      rewrite decide_True by done. simpl.
      rewrite (at2_coef ders_u _ _ k r Hders_u) by lia. simpl.
      rewrite (at2_entry control_points _ _ _ _ Hcp) by lia. simpl.
      rewrite set_at_upd by (rewrite length_upd; lia).
      by rewrite upd_upd.
    - split; [by rewrite length_upd|]. intros s' Hs'.
      rewrite at_upd by lia. case_decide; [by subst|].
      apply Ht2. lia. }
  exists temp'. split; [done|]. split; [done|].
  intros s Hs. apply Htemp'. lia.
Qed.

(** The loop over [l] that fills row [k] of the table from [temp]. *)
Lemma surfaceDerivatives_row_loop (k dd : Z) (temp : list (list T))
    (sd : list (list (list T))) (old : Z → Z → list T) :
  0 ≤ k ≤ num_ders → 0 ≤ dd ≤ num_ders →
  (∀ s, 0 ≤ s ≤ Z.of_nat degree_v → at_ temp s = Some (tsum k s)) →
  table_shape sd n1 n1 →
  (∀ i j, 0 ≤ i ≤ num_ders → 0 ≤ j ≤ num_ders →
     at2 sd i j = Some (old i j)) →
  ∃ sd',
    for_le 0 dd (λ l surf_ders,
      surf_ders ← set_at2 surf_ders k l (vzero dim);
      for_le 0 (Z.of_nat degree_v) (λ s surf_ders,
        acc ← at2 surf_ders k l;
        d ← at2 ders_v l s;
        t ← at_ temp s;
        set_at2 surf_ders k l (vadd acc (vscale d t))) surf_ders) sd
    = Some sd'
    ∧ table_shape sd' n1 n1
    ∧ ∀ i j, 0 ≤ i ≤ num_ders → 0 ≤ j ≤ num_ders →
        at2 sd' i j = Some (if decide (i = k ∧ j ≤ dd)
                            then dsum k j else old i j).
Proof.
  intros Hk Hdd Htemp Hsh Hsd.
  destruct (for_le_inv
    (λ l st, table_shape st n1 n1 ∧
       ∀ i j, 0 ≤ i ≤ num_ders → 0 ≤ j ≤ num_ders →
         at2 st i j = Some (if decide (i = k ∧ j < l)
                            then dsum k j else old i j))
    0 dd
    (λ l surf_ders,
      surf_ders ← set_at2 surf_ders k l (vzero dim);
      for_le 0 (Z.of_nat degree_v) (λ s surf_ders,
        acc ← at2 surf_ders k l;
        d ← at2 ders_v l s;
        t ← at_ temp s;
        set_at2 surf_ders k l (vadd acc (vscale d t))) surf_ders) sd)
    as (sd' & E & Hsh' & Hsd'); [lia| | |].
  { split; [done|]. intros i j Hi Hj. rewrite Hsd by done.
    by rewrite decide_False by lia. }
  { intros l st Hl [Hst1 Hst2].
    destruct (table_shape_at st n1 n1 k Hst1) as (row & Erow & Lrow);
      [lia|].
    exists (upd2 st k l (dsum k l)). split.
    - rewrite (set_at2_upd2 _ _ _ _ row) by (done || lia). simpl.
      unfold surf_der_sum at 1. unfold weighted_sum at 1.
      rewrite (for_le_cell (upd2 st k l)
        (λ acc s, vadd acc (vscale (coef (entry ders_v l) s)
                              (tsum k s))));
        [by rewrite Z.sub_0_r|lia|].
      intros s x Hs.
      rewrite (at2_upd2 _ _ _ _ row) by (done || lia).
      rewrite decide_True by done. simpl.
      rewrite (at2_coef ders_v _ _ l s Hders_v) by lia. simpl.
      rewrite Htemp by lia. simpl.
      rewrite (set_at2_upd2 _ _ _ _ (upd row l x)).
      + by rewrite (upd2_upd2 _ _ _ _ _ row).
      + rewrite (at_upd2 _ _ _ _ row) by done.
        by rewrite decide_True.
      + rewrite length_upd. lia.
    - split; [by apply table_shape_upd2|]. intros i j Hi Hj.
      rewrite (at2_upd2 _ _ _ _ row) by (done || lia).
      rewrite Hst2 by done.
      repeat case_decide; try done;
        repeat match goal with H : _ ∧ _ |- _ => destruct H end;
        subst; try done; lia. }
  exists sd'. split; [done|]. split; [done|].
  intros i j Hi Hj. rewrite Hsd' by done.
  repeat case_decide; try done; lia.
Qed.

(** The table [surfaceDerivatives] returns: the sum where the summation
    ran, the table of the first loop nest elsewhere. *)
Lemma surfaceDerivatives_table :
  ∃ tbl,
    surfaceDerivatives indet BP dim u v degree_u degree_v knots_u knots_v
      control_points num_ders = Some tbl
    ∧ table_shape tbl n1 n1
    ∧ ∀ k l, 0 ≤ k ≤ num_ders → 0 ≤ l ≤ num_ders →
        at2 tbl k l
        = Some (if decide (surf_computed degree_u degree_v num_ders k l)
                then dsum k l else init k l).
Proof.
  unfold surfaceDerivatives. rewrite bool_decide_eq_false_2 by lia.
  cbv zeta.
  destruct surfaceDerivatives_zero_loops as (sd0 & -> & Hsh0 & Hsd0).
  simpl.
  set (du := if bool_decide (num_ders < Z.of_nat degree_u)
             then num_ders else Z.of_nat degree_u).
  set (dv := if bool_decide (num_ders < Z.of_nat degree_v)
             then num_ders else Z.of_nat degree_v).
  assert (Hdu : du = Z.min (Z.of_nat degree_u) num_ders)
    by (unfold du; case_bool_decide; lia).
  assert (Hdv : dv = Z.min (Z.of_nat degree_v) num_ders)
    by (unfold dv; case_bool_decide; lia).
  match goal with |- context [for_le 0 du ?body ?s] =>
    destruct (for_le_inv
      (λ k (st : list (list (list T)) * list (list T)),
         table_shape st.1 n1 n1 ∧ length st.2 = (degree_v + 1)%nat ∧
         ∀ i j, 0 ≤ i ≤ num_ders → 0 ≤ j ≤ num_ders →
           at2 st.1 i j
           = Some (if decide (i < k ∧ surf_computed degree_u degree_v
                                          num_ders i j)
                   then dsum i j else init i j))
      0 du body s) as ([tbl temp] & -> & Hsh & Hlen & Htbl)
  end.
  { lia. }
  { simpl. split; [done|]. split; [apply length_replicate|].
    intros i j Hi Hj. rewrite Hsd0 by done.
    by rewrite decide_False by lia. }
  { intros k [sd temp] Hk (Hsh & Hlen & Hsd). simpl in Hsh, Hlen, Hsd.
    destruct (surfaceDerivatives_temp_loop k temp)
      as (temp' & -> & Hlen' & Htemp'); [lia|done|].
    simpl.
    set (dd := if bool_decide (num_ders - k < dv)
               then num_ders - k else dv).
    assert (Hdd : dd = Z.min (Z.of_nat degree_v) (num_ders - k))
      by (unfold dd; case_bool_decide; lia).
    destruct (surfaceDerivatives_row_loop k dd temp' sd _
                ltac:(lia) ltac:(lia) Htemp' Hsh Hsd)
      as (sd' & -> & Hsh' & Hsd').
    simpl. exists (sd', temp'). split; [done|]. simpl.
    split; [done|]. split; [done|].
    intros i j Hi Hj. rewrite Hsd' by done. unfold surf_computed.
    repeat case_decide; try done;
      repeat match goal with H : _ ∧ _ |- _ => destruct H end;
      subst; try done; exfalso; lia. }
  simpl. exists tbl. split; [done|]. split; [done|].
  intros k l Hk Hl. rewrite Htbl by done. unfold surf_computed.
  repeat case_decide; try done; exfalso; lia.
Qed.
End SurfaceDerivatives.

(** C9. For [num_ders >= 0], on a valid surface, the summation of
    [surfaceDerivatives] writes the entries (k, l) with
    k <= min(degree_u, num_ders) and l <= min(degree_v, num_ders − k) and
    no other: each of those holds the sum and has k + l <= num_ders, and
    every other entry of the table still holds what it held when the
    summation started. *)
Theorem surfaceDerivatives_computed_orders (dim : nat) (u v : T)
    (degree_u degree_v : nat) (knots_u knots_v : list T)
    (control_points : list (list (list T))) (num_ders : Z) :
  0 ≤ num_ders →
  grid_valid degree_u degree_v knots_u knots_v control_points →
  span_valid BP degree_u knots_u u →
  span_valid BP degree_v knots_v v →
  ders_shape BP degree_u knots_u u num_ders →
  ders_shape BP degree_v knots_v v num_ders →
  ∃ tbl,
    surfaceDerivatives indet BP dim u v degree_u degree_v knots_u knots_v
      control_points num_ders = Some tbl
    ∧ ∀ k l, 0 ≤ k ≤ num_ders → 0 ≤ l ≤ num_ders →
        (surf_computed degree_u degree_v num_ders k l →
           k + l ≤ num_ders
           ∧ at2 tbl k l
             = Some (surf_der_sum BP dim u v degree_u degree_v
                       knots_u knots_v control_points num_ders k l))
        ∧ (¬ surf_computed degree_u degree_v num_ders k l →
           at2 tbl k l = Some (surf_init indet dim degree_u degree_v k l)).
Proof.
  intros Hnd Hgrid Hsu Hsv Hdu Hdv.
  destruct (surfaceDerivatives_table dim u v degree_u degree_v
              knots_u knots_v control_points num_ders
              Hnd Hgrid Hsu Hsv Hdu Hdv) as (tbl & E & _ & Htbl).
  exists tbl. split; [done|]. intros k l Hk Hl. split.
  - intros Hc. split; [unfold surf_computed in Hc; lia|].
    rewrite Htbl by done. by rewrite decide_True.
  - intros Hc. rewrite Htbl by done. by rewrite decide_False.
Qed.

(** *** Unit weights *)

Lemma entry_length (dim : nat) (control_points : list (list T)) (i : Z) :
  points_dim dim control_points →
  0 ≤ i < Z.of_nat (length control_points) →
  length (entry control_points i) = dim.
Proof.
  intros Hd Hi. unfold entry.
  destruct (at_is_Some control_points i Hi) as [P E]. rewrite E. simpl.
  rewrite at_lookup in E by lia.
  by eapply (Forall_lookup_1 _ _ _ _ Hd).
Qed.

Lemma lift_curve_unit (control_points : list (list T)) :
  (∀ x : T, smul s1 x = x) →
  lift_curve control_points (unit_weights control_points)
  = Some (map (λ P, P ++ [s1]) control_points).
Proof.
  intros Hmul. unfold lift_curve.
  rewrite (for_lt_foldl
    (λ Cw i, Cw ++ [(λ P, P ++ [s1]) (entry control_points i)])); [|lia|].
  - rewrite Z.sub_0_r. f_equal.
    apply (foldl_snoc_map (λ P, P ++ [s1]) control_points).
  - intros i Hi. unfold unit_weights. rewrite at_map.
    rewrite (at_default control_points i []) by lia. simpl.
    by rewrite cartesianToHomogenous_unit.
Qed.

(** With every weight 1 and basis values that sum to 1,
    [rationalCurvePoint] returns the point of [curvePoint]. *)
Lemma rationalCurvePoint_unit_weights (dim : nat) (u : T) (degree : nat)
    (knots : list T) (control_points : list (list T)) :
  unit_laws →
  points_dim dim control_points →
  isValidRelation degree (length knots) (length control_points) = true →
  span_valid BP degree knots u →
  basis_shape BP degree knots u →
  basis_sums_to_one BP degree knots u →
  rationalCurvePoint BP dim u degree knots control_points
    (unit_weights control_points)
  = curvePoint BP dim u degree knots control_points.
Proof.
  intros (Hmul_l & Hmul_r & Hdiv) Hdim Hrel%bool_decide_eq_true_1
    Hspan HN Hsum.
  unfold span_valid in Hspan. unfold basis_shape in HN.
  unfold basis_sums_to_one in Hsum.
  unfold rationalCurvePoint. rewrite lift_curve_unit by done. simpl.
  rewrite curvePoint_weighted_sum by (rewrite ?length_map; lia || done).
  rewrite curvePoint_weighted_sum by (lia || done).
  simpl. f_equal.
  set (span := findSpan BP degree knots u) in *.
  set (N := bsplineBasis BP degree span knots u) in *.
  rewrite (weighted_sum_ext (dim + 1) _ (coef N) _
             (λ j, entry control_points (span - Z.of_nat degree + j)
                   ++ [s1]) _ (λ _ _, eq_refl)).
  - rewrite weighted_sum_lifted; [|done|lia|].
    + replace (Z.of_nat degree + 1) with (Z.of_nat (length N)) at 2 by lia.
      rewrite foldl_coef, Hsum. by apply homogenousToCartesian_unit.
    + intros j Hj. apply entry_length; [done|lia].
  - intros j Hj. apply (entry_map (λ P, P ++ [s1])). lia.
Qed.

Lemma at2_unit_weight_grid (control_points : list (list (list T)))
    (nu nv : nat) (i j : Z) :
  table_shape control_points nu nv →
  0 ≤ i < Z.of_nat nu → 0 ≤ j < Z.of_nat nv →
  at2 (unit_weight_grid control_points) i j = Some s1.
Proof.
  intros Hcp Hi Hj.
  destruct (table_shape_at control_points nu nv i Hcp Hi) as (row & E & L).
  unfold at2, unit_weight_grid. rewrite at_map, E. simpl.
  rewrite at_map. by destruct (at_is_Some row j ltac:(lia)) as [x ->].
Qed.

(** The grid [rationalSurfacePoint] builds when every weight is 1. *)
Lemma lift_grid_push_unit (control_points : list (list (list T)))
    (nu nv : nat) :
  (∀ x : T, smul s1 x = x) →
  table_shape control_points nu nv →
  ∃ Cw,
    lift_grid_push control_points (unit_weight_grid control_points) = Some Cw
    ∧ table_shape Cw nu nv
    ∧ ∀ i j, 0 ≤ i < Z.of_nat nu → 0 ≤ j < Z.of_nat nv →
        entry2 Cw i j = entry2 control_points i j ++ [s1].
Proof.
  intros Hmul Hcp. pose proof Hcp as [Hnu Hrows]. unfold lift_grid_push.
  rewrite Hnu.
  match goal with |- context [for_lt 0 _ ?body ?s0] =>
    destruct (for_lt_inv
      (λ i (Cw : list (list (list T))),
         length Cw = nu
         ∧ (∀ i', 0 ≤ i' < i →
              at_ Cw i' = Some (map (λ P, P ++ [s1])
                                  (entry control_points i')))
         ∧ (∀ i', i ≤ i' < Z.of_nat nu → at_ Cw i' = Some []))
      0 (Z.of_nat nu) body s0) as (Cw & E & HL & Hdone & _)
  end.
  { lia. }
  { split; [apply length_replicate|]. split; [intros; lia|].
    intros i' Hi'. apply at_replicate. lia. }
  { intros i Cw Hi (HL & Hdone & Hrest).
    destruct (table_shape_at control_points nu nv 0 Hcp)
      as (row0 & Erow0 & Lrow0); [lia|].
    destruct (table_shape_at control_points nu nv i Hcp)
      as (rowi & Erowi & Lrowi); [lia|].
    rewrite Erow0. simpl. rewrite Lrow0.
    exists (upd Cw i (map (λ P, P ++ [s1]) (entry control_points i))).
    split.
    - assert (ECw : Cw = upd Cw i []).
      { unfold upd. symmetry. apply list_insert_id.
        rewrite <- at_lookup by lia. apply Hrest. lia. }
      rewrite ECw at 1.
      rewrite (for_lt_cell (upd Cw i)
        (λ row j, row ++ [(λ P, P ++ [s1])
                            (entry (entry control_points i) j)]));
        [|lia|].
      + rewrite Z.sub_0_r.
        replace (Z.of_nat nv)
          with (Z.of_nat (length (entry control_points i))).
        * do 2 f_equal.
          apply (foldl_snoc_map (λ P, P ++ [s1]) (entry control_points i)).
        * unfold entry. rewrite Erowi. simpl. lia.
      + intros j row Hj.
        rewrite (at2_entry control_points _ _ _ _ Hcp) by lia. simpl.
        rewrite (at2_unit_weight_grid _ _ _ _ _ Hcp) by lia. simpl.
        rewrite at_upd by lia. rewrite decide_True by done. simpl.
        rewrite set_at_upd by (rewrite length_upd; lia).
        rewrite upd_upd. by rewrite cartesianToHomogenous_unit.
    - split; [by rewrite length_upd|]. split.
      + intros i' Hi'. rewrite at_upd by lia.
        case_decide; [by subst|]. apply Hdone. lia.
      + intros i' Hi'. rewrite at_upd by lia.
        rewrite decide_False by lia. apply Hrest. lia. }
  exists Cw. split; [done|]. split.
  - split; [done|]. apply Forall_lookup_2. intros i row Ei.
    pose proof (lookup_lt_Some _ _ _ Ei) as Hi.
    rewrite <- (Nat2Z.id i), <- at_lookup in Ei by lia.
    rewrite Hdone in Ei by lia. injection Ei as <-.
    rewrite length_map.
    destruct (table_shape_at control_points nu nv (Z.of_nat i) Hcp)
      as (rowi & Erowi & Lrowi); [lia|].
    unfold entry. by rewrite Erowi.
  - intros i j Hi Hj. unfold entry2. unfold entry at 2.
    rewrite Hdone by lia. simpl.
    apply (entry_map (λ P, P ++ [s1])).
    destruct (table_shape_at control_points nu nv i Hcp)
      as (rowi & Erowi & Lrowi); [lia|].
    unfold entry. rewrite Erowi. simpl. lia.
Qed.

Lemma entry2_length (dim : nat) (control_points : list (list (list T)))
    (nu nv : nat) (i j : Z) :
  grid_dim dim control_points →
  table_shape control_points nu nv →
  0 ≤ i < Z.of_nat nu → 0 ≤ j < Z.of_nat nv →
  length (entry2 control_points i j) = dim.
Proof.
  intros Hd Hcp Hi Hj.
  destruct (table_shape_at control_points nu nv i Hcp Hi) as (row & E & L).
  unfold entry2. unfold entry at 2. rewrite E. simpl.
  apply entry_length; [|lia].
  rewrite at_lookup in E by lia.
  by eapply (Forall_lookup_1 _ _ _ _ Hd).
Qed.

(** With every weight 1 and basis values that sum to 1 in both directions,
    [rationalSurfacePoint] returns the point of [surfacePoint]. *)
Lemma rationalSurfacePoint_unit_weights (dim : nat) (u v : T)
    (degree_u degree_v : nat) (knots_u knots_v : list T)
    (control_points : list (list (list T))) :
  unit_laws →
  grid_dim dim control_points →
  grid_valid degree_u degree_v knots_u knots_v control_points →
  span_valid BP degree_u knots_u u →
  span_valid BP degree_v knots_v v →
  basis_shape BP degree_u knots_u u →
  basis_shape BP degree_v knots_v v →
  basis_sums_to_one BP degree_u knots_u u →
  basis_sums_to_one BP degree_v knots_v v →
  rationalSurfacePoint BP dim u v degree_u degree_v knots_u knots_v
    control_points (unit_weight_grid control_points)
  = surfacePoint BP dim u v degree_u degree_v knots_u knots_v control_points.
Proof.
  intros (Hmul_l & Hmul_r & Hdiv) Hdim
    (nv & Hcp & Hru%bool_decide_eq_true_1 & Hrv%bool_decide_eq_true_1)
    Hsu Hsv HNu HNv Hsum_u Hsum_v.
  unfold span_valid in Hsu, Hsv. unfold basis_shape in HNu, HNv.
  unfold basis_sums_to_one in Hsum_u, Hsum_v.
  unfold rationalSurfacePoint.
  destruct (lift_grid_push_unit control_points _ nv Hmul_l Hcp)
    as (Cw & -> & HCw & Hentry).
  simpl.
  rewrite (surfacePoint_weighted_sum (dim + 1) u v degree_u degree_v
             knots_u knots_v Cw _ nv HCw) by (lia || done).
  rewrite (surfacePoint_weighted_sum dim u v degree_u degree_v
             knots_u knots_v control_points _ nv Hcp) by (lia || done).
  simpl. f_equal.
  set (span_u := findSpan BP degree_u knots_u u) in *.
  set (span_v := findSpan BP degree_v knots_v v) in *.
  set (Nu := bsplineBasis BP degree_u span_u knots_u u) in *.
  set (Nv := bsplineBasis BP degree_v span_v knots_v v) in *.
  set (inner := λ l, weighted_sum dim (coef Nu)
                 (λ k, entry2 control_points (span_u - Z.of_nat degree_u + k)
                         (span_v - Z.of_nat degree_v + l))
                 (Z.of_nat degree_u + 1)).
  assert (Hinner : ∀ l, 0 ≤ l < Z.of_nat degree_v + 1 →
            length (inner l) = dim).
  { intros l Hl. apply length_weighted_sum. intros k Hk.
    apply (entry2_length dim control_points (length control_points) nv);
      (done || lia). }
  rewrite (weighted_sum_ext (dim + 1) _ (coef Nv) _
             (λ l, inner l ++ [s1]) _ (λ _ _, eq_refl)).
  - rewrite weighted_sum_lifted; [|done|lia|done].
    replace (Z.of_nat degree_v + 1) with (Z.of_nat (length Nv)) at 2 by lia.
    rewrite foldl_coef, Hsum_v. by apply homogenousToCartesian_unit.
  - intros l Hl.
    rewrite (weighted_sum_ext (dim + 1) _ (coef Nu) _
               (λ k, entry2 control_points
                       (span_u - Z.of_nat degree_u + k)
                       (span_v - Z.of_nat degree_v + l) ++ [s1])
               _ (λ _ _, eq_refl)).
    + rewrite weighted_sum_lifted; [|done|lia|].
      * replace (Z.of_nat degree_u + 1)
          with (Z.of_nat (length Nu)) at 2 by lia.
        by rewrite foldl_coef, Hsum_u.
      * intros k Hk.
        apply (entry2_length dim control_points (length control_points) nv);
      (done || lia).
    + intros k Hk. apply Hentry; lia.
Qed.

(** *** The rational surface derivative table *)

Lemma bind_is_Some {A B : Type} (m : option A) (f : A → option B) :
  is_Some m → (∀ x, is_Some (f x)) → is_Some (m ≫= f).
Proof. intros [x ->] Hf. apply Hf. Qed.

Lemma length_cartesianToHomogenous (P : list T) (w : T) :
  length (cartesianToHomogenous P w) = (length P + 1)%nat.
Proof.
  unfold cartesianToHomogenous. rewrite length_app, length_vscale. done.
Qed.

(** The lifted grid of [rationalSurfaceDerivatives] has the shape of the
    control grid and points of dimension [dim + 1]. *)
Lemma lift_grid_assign_shape (dim : nat)
    (control_points : list (list (list T))) (weights : list (list T))
    (nu nv : nat) :
  table_shape control_points nu nv →
  table_shape weights nu nv →
  grid_dim dim control_points →
  ∃ homo_cp,
    lift_grid_assign indet dim control_points weights = Some homo_cp
    ∧ table_shape homo_cp nu nv
    ∧ grid_dim (dim + 1) homo_cp.
Proof.
  intros Hcp Hwt Hdim. pose proof Hcp as [Hnu _]. unfold lift_grid_assign.
  rewrite Hnu.
  match goal with |- context [for_lt 0 _ ?body ?s0] =>
    destruct (for_lt_inv
      (λ i (hc : list (list (list T))),
         length hc = nu
         ∧ (∀ i', 0 ≤ i' < i →
              ∃ row, at_ hc i' = Some row ∧ length row = nv
                     ∧ points_dim (dim + 1) row)
         ∧ (∀ i', i ≤ i' < Z.of_nat nu → at_ hc i' = Some []))
      0 (Z.of_nat nu) body s0) as (hc & E & HL & Hdone & _)
  end.
  { lia. }
  { split; [apply length_replicate|]. split; [intros; lia|].
    intros i' Hi'. apply at_replicate. lia. }
  { intros i hc Hi (HL & Hdone & Hrest).
    destruct (table_shape_at control_points nu nv 0 Hcp)
      as (row0 & Erow0 & Lrow0); [lia|].
    rewrite Erow0. simpl. rewrite Hrest by lia. simpl.
    rewrite set_at_upd by lia. simpl. rewrite resize_nil, Lrow0.
    set (hc1 := upd hc i (replicate nv (vdefault indet (dim + 1)))).
    destruct (for_lt_inv
      (λ (_ : Z) (st : list (list (list T))),
         length st = nu
         ∧ (∃ row, at_ st i = Some row ∧ length row = nv
                   ∧ points_dim (dim + 1) row)
         ∧ (∀ i', i' ≠ i → at_ st i' = at_ hc i'))
      0 (Z.of_nat nv)
      (λ j homo_cp,
         P ← at2 control_points i j;
         w ← at2 weights i j;
         set_at2 homo_cp i j (cartesianToHomogenous P w)) hc1)
      as (hc2 & E2 & HL2 & (row & Erow & Lrow & Drow) & Hother).
    { lia. }
    { split; [unfold hc1; by rewrite length_upd|]. split.
      - exists (replicate nv (vdefault indet (dim + 1))).
        unfold hc1. rewrite at_upd by lia. rewrite decide_True by done.
        split; [done|]. split; [apply length_replicate|].
        apply Forall_replicate. apply length_replicate.
      - intros i' Hi'. unfold hc1. rewrite at_upd by lia.
        by rewrite decide_False. }
    { intros j st Hj (HLs & (row & Erow & Lrow & Drow) & Hother).
      rewrite (at2_entry control_points _ _ _ _ Hcp) by lia. simpl.
      rewrite (at2_coef weights _ _ i j Hwt) by lia. simpl.
      rewrite (set_at2_upd2 _ _ _ _ row) by (done || lia).
      eexists. split; [done|]. split; [by rewrite length_upd2|]. split.
      - eexists. rewrite (at_upd2 _ _ _ _ row) by done.
        rewrite decide_True by done. split; [done|].
        split; [by rewrite length_upd|].
        unfold upd. apply Forall_insert; [done|].
        rewrite length_cartesianToHomogenous. f_equal.
        apply (entry2_length dim control_points nu nv); (done || lia).
      - intros i' Hi'. rewrite (at_upd2 _ _ _ _ row) by done.
        rewrite decide_False by done. by apply Hother. }
    exists hc2. split; [done|]. split; [done|]. split.
    - intros i' Hi'. destruct (decide (i' = i)) as [->|Hne].
      + by exists row.
      + rewrite Hother by done. apply Hdone. lia.
    - intros i' Hi'. rewrite Hother by lia. apply Hrest. lia. }
  exists hc. split; [done|].
  assert (Hrows : ∀ (i : nat) row, hc !! i = Some row →
            length row = nv ∧ points_dim (dim + 1) row).
  { intros i row Ei. pose proof (lookup_lt_Some _ _ _ Ei) as Hi.
    rewrite <- (Nat2Z.id i), <- at_lookup in Ei by lia.
    destruct (Hdone (Z.of_nat i)) as (row' & E' & L' & D'); [lia|].
    rewrite E' in Ei. by injection Ei as <-. }
  split; [split; [done|]|]; apply Forall_lookup_2; intros i row Ei;
    by destruct (Hrows i row Ei).
Qed.

Lemma length_vdefault (dim : nat) : length (vdefault indet dim) = dim.
Proof. apply length_replicate. Qed.

(** Every entry of the table of [surfaceDerivatives] is a vector of [dim]
    components, so its component [c < dim] can be read. *)
Lemma surfaceDerivatives_entries (dim : nat) (u v : T)
    (degree_u degree_v : nat) (knots_u knots_v : list T)
    (control_points : list (list (list T))) (num_ders : Z) :
  0 ≤ num_ders →
  grid_valid degree_u degree_v knots_u knots_v control_points →
  grid_dim dim control_points →
  span_valid BP degree_u knots_u u →
  span_valid BP degree_v knots_v v →
  ders_shape BP degree_u knots_u u num_ders →
  ders_shape BP degree_v knots_v v num_ders →
  ∃ tbl,
    surfaceDerivatives indet BP dim u v degree_u degree_v knots_u knots_v
      control_points num_ders = Some tbl
    ∧ table_shape tbl (Z.to_nat (num_ders + 1)) (Z.to_nat (num_ders + 1))
    ∧ ∀ k l c, 0 ≤ k ≤ num_ders → 0 ≤ l ≤ num_ders →
        0 ≤ c < Z.of_nat dim → is_Some (at3 tbl k l c).
Proof.
  intros Hnd Hgrid Hdim Hsu Hsv Hdu Hdv.
  destruct (surfaceDerivatives_table dim u v degree_u degree_v
              knots_u knots_v control_points num_ders
              Hnd Hgrid Hsu Hsv Hdu Hdv) as (tbl & E & Hsh & Htbl).
  exists tbl. split; [done|]. split; [done|].
  intros k l c Hk Hl Hc. unfold at3. rewrite Htbl by done. simpl.
  apply at_is_Some.
  destruct Hgrid as (nv & Hcp & Hru%bool_decide_eq_true_1
                        & Hrv%bool_decide_eq_true_1).
  unfold span_valid in Hsu, Hsv.
  case_decide.
  - unfold surf_der_sum. rewrite length_weighted_sum; [lia|].
    intros s Hs. unfold surf_temp_sum. apply length_weighted_sum.
    intros r Hr.
    apply (entry2_length dim control_points (length control_points) nv);
      (done || lia).
  - unfold surf_init. case_decide.
    + rewrite length_vzero. lia.
    + rewrite length_vdefault. lia.
Qed.

(** [Aders] has the shape of the table of homogeneous derivatives. *)
Lemma truncate_ders_shape (dim : nat) (num_ders : Z)
    (homo_ders : list (list (list T))) :
  0 ≤ num_ders →
  table_shape homo_ders (Z.to_nat (num_ders + 1)) (Z.to_nat (num_ders + 1)) →
  ∃ Aders,
    truncate_ders indet dim num_ders homo_ders = Some Aders
    ∧ table_shape Aders (Z.to_nat (num_ders + 1)) (Z.to_nat (num_ders + 1)).
Proof.
  intros Hnd Hh. pose proof Hh as [Hlen _]. unfold truncate_ders.
  rewrite Hlen. set (n1 := Z.to_nat (num_ders + 1)) in *.
  match goal with |- context [for_lt 0 _ ?body ?s0] =>
    destruct (for_lt_inv
      (λ i (A : list (list (list T))),
         length A = n1
         ∧ (∀ i', 0 ≤ i' < i →
              ∃ row, at_ A i' = Some row ∧ length row = n1)
         ∧ (∀ i', i ≤ i' < Z.of_nat n1 → at_ A i' = Some []))
      0 (Z.of_nat n1) body s0) as (A & E & HL & Hdone & _)
  end.
  { lia. }
  { split; [apply length_replicate|]. split; [intros; lia|].
    intros i' Hi'. apply at_replicate. lia. }
  { intros i A Hi (HL & Hdone & Hrest).
    rewrite Hrest by lia. simpl. rewrite set_at_upd by lia. simpl.
    rewrite resize_nil.
    destruct (table_shape_at homo_ders n1 n1 0 Hh)
      as (row0 & Erow0 & Lrow0); [lia|].
    rewrite Erow0. simpl. rewrite Lrow0.
    set (A1 := upd A i (replicate n1 (vdefault indet dim))).
    destruct (for_lt_inv
      (λ (_ : Z) (st : list (list (list T))),
         length st = n1
         ∧ (∃ row, at_ st i = Some row ∧ length row = n1)
         ∧ (∀ i', i' ≠ i → at_ st i' = at_ A i'))
      0 (Z.of_nat n1)
      (λ j Aders,
         h ← at2 homo_ders i j;
         set_at2 Aders i j (truncateHomogenous h)) A1)
      as (A2 & E2 & HL2 & (row & Erow & Lrow) & Hother).
    { lia. }
    { split; [unfold A1; by rewrite length_upd|]. split.
      - exists (replicate n1 (vdefault indet dim)).
        unfold A1. rewrite at_upd by lia. rewrite decide_True by done.
        split; [done|]. apply length_replicate.
      - intros i' Hi'. unfold A1. rewrite at_upd by lia.
        by rewrite decide_False. }
    { intros j st Hj (HLs & (row & Erow & Lrow) & Hother).
      rewrite (at2_entry homo_ders _ _ _ _ Hh) by lia. simpl.
      rewrite (set_at2_upd2 _ _ _ _ row) by (done || lia).
      eexists. split; [done|]. split; [by rewrite length_upd2|]. split.
      - eexists. rewrite (at_upd2 _ _ _ _ row) by done.
        rewrite decide_True by done. split; [done|].
        by rewrite length_upd.
      - intros i' Hi'. rewrite (at_upd2 _ _ _ _ row) by done.
        rewrite decide_False by done. by apply Hother. }
    exists A2. split; [done|]. split; [done|]. split.
    - intros i' Hi'. destruct (decide (i' = i)) as [->|Hne].
      + by exists row.
      + rewrite Hother by done. apply Hdone. lia.
    - intros i' Hi'. rewrite Hother by lia. apply Hrest. lia. }
  exists A. split; [done|]. split; [done|].
  apply Forall_lookup_2. intros i row Ei.
  pose proof (lookup_lt_Some _ _ _ Ei) as Hi.
  rewrite <- (Nat2Z.id i), <- at_lookup in Ei by lia.
  destruct (Hdone (Z.of_nat i)) as (row' & E' & L'); [lia|].
  rewrite E' in Ei. by injection Ei as <-.
Qed.

(** Every read of the body of the [l] loop succeeds once the rows up to [k]
    of [surf_ders] have their [num_ders + 1] entries. *)
Lemma rational_entry_is_Some (dim : nat) (num_ders : Z)
    (homo_ders Aders surf_ders : list (list (list T))) (k l : Z) :
  0 ≤ k → 0 ≤ l → k + l ≤ num_ders →
  (∀ i j, 0 ≤ i ≤ num_ders → 0 ≤ j ≤ num_ders → is_Some (at2 Aders i j)) →
  (∀ i j, 0 ≤ i ≤ num_ders → 0 ≤ j ≤ num_ders →
     is_Some (at3 homo_ders i j (Z.of_nat dim))) →
  (∀ i j, 0 ≤ i ≤ k → 0 ≤ j ≤ num_ders → is_Some (at2 surf_ders i j)) →
  is_Some (rational_entry dim homo_ders Aders surf_ders k l).
Proof.
  intros Hk Hl Hkl HA Hh Hsd. unfold rational_entry.
  apply bind_is_Some; [apply HA; lia|]. intros der.
  apply bind_is_Some.
  { apply for_lt_is_Some. intros j st Hj.
    apply bind_is_Some; [apply Hh; lia|]. intros w.
    apply bind_is_Some; [apply Hsd; lia|]. intros C. by eexists. }
  intros der1. apply bind_is_Some.
  { apply for_lt_is_Some. intros i st Hi.
    apply bind_is_Some; [apply Hh; lia|]. intros w.
    apply bind_is_Some; [apply Hsd; lia|]. intros C. cbv zeta.
    apply bind_is_Some; [|intros tmp; by eexists].
    apply for_lt_is_Some. intros j tmp Hj.
    apply bind_is_Some; [apply Hh; lia|]. intros w'.
    apply bind_is_Some; [apply Hsd; lia|]. intros C'. by eexists. }
  intros der2. apply bind_is_Some; [apply Hh; lia|]. intros w00.
  by eexists.
Qed.

Lemma at2_is_Some_row {A : Type} (m : list (list A)) (i j : Z) :
  is_Some (at2 m i j) →
  ∃ row, at_ m i = Some row ∧ 0 ≤ j < Z.of_nat (length row).
Proof.
  unfold at2. destruct (at_ m i) as [row|]; simpl; [|by intros [? ?]].
  intros [x Ex]. exists row. split; [done|]. by eapply at_Some_range.
Qed.

(** On a valid rational surface, for [num_ders >= 0] and whatever table the
    caller passes in, [rationalSurfaceDerivatives] returns, and every entry
    of its table with k + l > num_ders is the entry [resize] left there. *)
Lemma rationalSurfaceDerivatives_frame (dim : nat) (u v : T)
    (degree_u degree_v : nat) (knots_u knots_v : list T)
    (control_points : list (list (list T))) (weights : list (list T))
    (num_ders : Z) (surf_ders : list (list (list T))) (nv : nat) :
  0 ≤ num_ders →
  table_shape control_points (length control_points) nv →
  table_shape weights (length control_points) nv →
  grid_dim dim control_points →
  isValidRelation degree_u (length knots_u) (length control_points) = true →
  isValidRelation degree_v (length knots_v) nv = true →
  span_valid BP degree_u knots_u u →
  span_valid BP degree_v knots_v v →
  ders_shape BP degree_u knots_u u num_ders →
  ders_shape BP degree_v knots_v v num_ders →
  ∃ tbl,
    rationalSurfaceDerivatives indet BP dim u v degree_u degree_v
      knots_u knots_v control_points weights num_ders surf_ders = Some tbl
    ∧ ∀ k l, 0 ≤ k ≤ num_ders → 0 ≤ l ≤ num_ders → num_ders < k + l →
        at2 tbl k l = at2 (resized_table indet dim num_ders surf_ders) k l.
Proof.
  intros Hnd Hcp Hwt Hdim Hru Hrv Hsu Hsv Hdu Hdv.
  unfold rationalSurfaceDerivatives.
  destruct (lift_grid_assign_shape dim control_points weights _ nv
              Hcp Hwt Hdim) as (homo_cp & -> & Hhc & Hhd).
  simpl.
  destruct (surfaceDerivatives_entries (dim + 1) u v degree_u degree_v
              knots_u knots_v homo_cp num_ders) as (homo_ders & -> & Hhs & Hh);
    [done| |done..|].
  { exists nv. destruct Hhc as [Hlen Hrows]. rewrite Hlen. by repeat split. }
  simpl.
  destruct (truncate_ders_shape dim num_ders homo_ders Hnd Hhs)
    as (Aders & -> & HA).
  simpl.
  set (n1 := Z.to_nat (num_ders + 1)) in *.
  set (sd0 := resize n1 [] surf_ders).
  set (R := resized_table indet dim num_ders surf_ders).
  assert (Hlen0 : length sd0 = n1) by apply length_resize.
  assert (HR : ∀ i, at_ R i = resize n1 (vdefault indet dim) <$> at_ sd0 i).
  { intros i. unfold R, resized_table. apply at_map. }
  assert (HA' : ∀ i j, 0 ≤ i ≤ num_ders → 0 ≤ j ≤ num_ders →
            is_Some (at2 Aders i j)).
  { intros i j Hi Hj. rewrite (at2_entry Aders _ _ _ _ HA) by lia. done. }
  assert (Hh' : ∀ i j, 0 ≤ i ≤ num_ders → 0 ≤ j ≤ num_ders →
            is_Some (at3 homo_ders i j (Z.of_nat dim))).
  { intros i j Hi Hj. apply Hh; lia. }
  match goal with |- context [for_lt 0 _ ?body sd0] =>
    destruct (for_lt_inv
      (λ k (sd : list (list (list T))),
         length sd = n1
         ∧ (∀ i j, 0 ≤ i < k → 0 ≤ j ≤ num_ders → is_Some (at2 sd i j))
         ∧ (∀ i j, 0 ≤ i < k → 0 ≤ j ≤ num_ders → num_ders < i + j →
              at2 sd i j = at2 R i j)
         ∧ (∀ i, k ≤ i ≤ num_ders → at_ sd i = at_ sd0 i))
      0 (num_ders + 1) body sd0) as (tbl & E & HL & _ & Hframe & _)
  end.
  { lia. }
  { split; [done|]. repeat split; intros; (done || lia). }
  { intros k sd Hk (HL & Hsome & Hframe & Hrest).
    destruct (at_is_Some sd0 k) as [rowk Erowk]; [lia|].
    rewrite Hrest by lia. rewrite Erowk. simpl.
    rewrite set_at_upd by lia. simpl.
    set (sd1 := upd sd k (resize n1 (vdefault indet dim) rowk)).
    assert (HRk : at_ R k = Some (resize n1 (vdefault indet dim) rowk))
      by (by rewrite HR, Erowk).
    destruct (for_lt_inv
      (λ l (st : list (list (list T))),
         length st = n1
         ∧ (∀ i j, 0 ≤ i ≤ k → 0 ≤ j ≤ num_ders → is_Some (at2 st i j))
         ∧ (∀ i j, 0 ≤ i < k → 0 ≤ j ≤ num_ders → num_ders < i + j →
              at2 st i j = at2 R i j)
         ∧ (∀ j, l ≤ j ≤ num_ders → at2 st k j = at2 R k j)
         ∧ (∀ i, k < i ≤ num_ders → at_ st i = at_ sd0 i))
      0 (num_ders - k + 1)
      (λ l surf_ders,
         der ← rational_entry dim homo_ders Aders surf_ders k l;
         set_at2 surf_ders k l der) sd1)
      as (sd2 & E2 & HL2 & Hsome2 & Hframe2 & Hrow2 & Hrest2).
    { lia. }
    { assert (Hsd1 : ∀ i j, at2 sd1 i j
                = if decide (i = k)
                  then at_ (resize n1 (vdefault indet dim) rowk) j
                  else at2 sd i j).
      { intros i j. unfold at2, sd1. rewrite at_upd by lia.
        by case_decide. }
      split; [unfold sd1; by rewrite length_upd|]. split; [|split; [|split]].
      - intros i j Hi Hj. rewrite Hsd1. case_decide.
        + apply at_is_Some. rewrite length_resize. lia.
        + apply Hsome; lia.
      - intros i j Hi Hj Hij. rewrite Hsd1.
        rewrite decide_False by lia. by apply Hframe.
      - intros j Hj. rewrite Hsd1. rewrite decide_True by done.
        unfold at2. by rewrite HRk.
      - intros i Hi. unfold sd1. rewrite at_upd by lia.
        rewrite decide_False by lia. apply Hrest. lia. }
    { intros l st Hl (HLs & Hsomes & Hframes & Hrows & Hrests).
      destruct (rational_entry_is_Some dim num_ders homo_ders Aders st k l)
        as [der ->]; [lia..|done|done|done|].
      simpl.
      destruct (at2_is_Some_row st k l) as (row & Erow & Lrow);
        [apply Hsomes; lia|].
      rewrite (set_at2_upd2 _ _ _ _ row) by done.
      eexists. split; [done|].
      assert (Hst : ∀ i j, at2 (upd2 st k l der) i j
                = if decide (i = k ∧ j = l) then Some der else at2 st i j).
      { intros i j. by apply (at2_upd2 _ _ _ _ row). }
      split; [by rewrite length_upd2|]. split; [|split; [|split]].
      - intros i j Hi Hj. rewrite Hst. case_decide; [by eexists|].
        by apply Hsomes.
      - intros i j Hi Hj Hij. rewrite Hst.
        rewrite decide_False by lia. by apply Hframes.
      - intros j Hj. rewrite Hst. rewrite decide_False by lia.
        apply Hrows. lia.
      - intros i Hi. rewrite (at_upd2 _ _ _ _ row) by done.
        rewrite decide_False by lia. by apply Hrests. }
    exists sd2. split; [done|]. split; [done|]. split; [|split].
    - intros i j Hi Hj. apply Hsome2; lia.
    - intros i j Hi Hj Hij. destruct (decide (i = k)) as [->|Hne].
      + apply Hrow2. lia.
      + apply Hframe2; lia.
    - intros i Hi. apply Hrest2. lia. }
  exists tbl. split; [done|]. intros k l Hk Hl Hkl. apply Hframe; lia.
Qed.
End Statements.

(** ** Orders above the degree *)

Section AboveDegree.
Context {T : Type} `{Scalar T}.
Variable BP : BasisProvider T.

(** Storage that [resize] value-initialised holds zero vectors. *)
Lemma vdefault_s0 (dim : nat) : vdefault (T:=T) s0 dim = vzero dim.
Proof. reflexivity. Qed.

(** No order above its degree is one the summation computes. *)
Lemma above_degree_not_computed (degree_u degree_v : nat)
    (num_ders k l : Z) :
  Z.of_nat degree_u < k ∨ Z.of_nat degree_v < l →
  ¬ surf_computed degree_u degree_v num_ders k l.
Proof. unfold surf_computed. lia. Qed.

(** C2. For [num_ders >= 0], on a valid surface, [surfaceDerivatives]
    returns a table whose every entry (k, l), 0 <= k, l <= num_ders, with
    k > degree_u or l > degree_v is the zero vector.  The first loop nest
    assigns the zero vector where k > degree_u and l > degree_v; where one
    order only is above its degree no statement assigns the entry, since the
    summation stops at k <= min(degree_u, num_ders) and
    l <= min(degree_v, num_ders − k), and the entry holds the zero vector
    that [resize] put there after [clear]. *)
Theorem surfaceDerivatives_zero_above_degree (dim : nat) (u v : T)
    (degree_u degree_v : nat) (knots_u knots_v : list T)
    (control_points : list (list (list T))) (num_ders : Z) :
  0 ≤ num_ders →
  grid_valid degree_u degree_v knots_u knots_v control_points →
  span_valid BP degree_u knots_u u →
  span_valid BP degree_v knots_v v →
  ders_shape BP degree_u knots_u u num_ders →
  ders_shape BP degree_v knots_v v num_ders →
  ∃ surf_ders,
    surfaceDerivatives s0 BP dim u v degree_u degree_v knots_u knots_v
      control_points num_ders = Some surf_ders
    ∧ ∀ k l, 0 ≤ k ≤ num_ders → 0 ≤ l ≤ num_ders →
        Z.of_nat degree_u < k ∨ Z.of_nat degree_v < l →
        at2 surf_ders k l = Some (vzero dim).
Proof.
  intros Hnd Hgrid Hsu Hsv Hdu Hdv.
  destruct (surfaceDerivatives_table s0 BP dim u v degree_u degree_v
              knots_u knots_v control_points num_ders
              Hnd Hgrid Hsu Hsv Hdu Hdv) as (tbl & E & _ & Htbl).
  exists tbl. split; [done|]. intros k l Hk Hl Habove.
  rewrite Htbl by done.
  rewrite decide_False by by apply above_degree_not_computed.
  unfold surf_init. case_decide; [done|]. by rewrite vdefault_s0.
Qed.
End AboveDegree.

(** ** Concrete curves and surfaces *)

(** Two vectors, or tables, of canonical rationals with the same
    numerators and denominators are equal. *)
Lemma Qc_this_inj (a b : Qc) : this a = this b → a = b.
Proof. intros E. apply Qc_is_canon. unfold Qeq. by rewrite E. Qed.

Lemma Qc_vec_inj (a b : list Qc) : map this a = map this b → a = b.
Proof.
  revert b. induction a as [|x a IH]; intros [|y b]; simpl; try done.
  intros [= Exy Eab]. f_equal; [by apply Qc_this_inj|by apply IH].
Qed.

Lemma Qc_some_vec (a : option (list Qc)) (b : list Qc) :
  (map this <$> a) = Some (map this b) → a = Some b.
Proof. destruct a; [|done]. intros [= E]. f_equal. by apply Qc_vec_inj. Qed.

(** The premises of C5 hold of the degree-2 curve at u = 1/2. *)
Lemma curvePoint_is_local_sum_witness :
  curvePoint CoxDeBoor 2 (qc 1 2) 2 knots_bezier2 cps_arch
  = Some (weighted_sum 2
            (coef (bsplineBasis CoxDeBoor 2
                     (findSpan CoxDeBoor 2 knots_bezier2 (qc 1 2))
                     knots_bezier2 (qc 1 2)))
            (λ j, entry cps_arch
                    (findSpan CoxDeBoor 2 knots_bezier2 (qc 1 2)
                     - Z.of_nat 2 + j))
            (Z.of_nat 2 + 1)).
Proof.
  apply (curvePoint_is_local_sum CoxDeBoor 2 (qc 1 2) 2 knots_bezier2
           cps_arch).
  - reflexivity.
  - by vm_compute.
  - reflexivity.
Defined.

(** The premises of C7 hold of the degree-2 curve at u = 1/2 with
    num_ders = 3. *)
Lemma curveDerivatives_table_witness :
  ∃ curve_ders,
    curveDerivatives (qc 7 1) CoxDeBoor 2 (qc 1 2) 2 knots_bezier2 cps_arch 3
      = Some curve_ders
    ∧ length curve_ders = Z.to_nat (3 + 1)
    ∧ (∀ k, Z.of_nat 2 < k ≤ 3 → at_ curve_ders k = Some (vzero 2))
    ∧ (∀ k, 0 ≤ k ≤ Z.min (Z.of_nat 2) 3 →
         at_ curve_ders k
         = Some (curve_der_sum CoxDeBoor 2 (qc 1 2) 2 knots_bezier2 cps_arch
                   3 k)).
Proof.
  apply (curveDerivatives_table (qc 7 1) CoxDeBoor 2 (qc 1 2) 2
           knots_bezier2 cps_arch 3).
  - lia.
  - reflexivity.
  - by vm_compute.
  - split; [reflexivity|]. vm_compute. repeat constructor.
Defined.

(** The premises of C9 hold of the bidegree-(1,1) surface at (1/2, 1/2)
    with num_ders = 2. *)
Lemma surfaceDerivatives_computed_orders_witness :
  ∃ tbl,
    surfaceDerivatives (qc 7 1) CoxDeBoor 2 (qc 1 2) (qc 1 2) 1 1
      knots_lin knots_lin grid_2x2 2 = Some tbl
    ∧ ∀ k l, 0 ≤ k ≤ 2 → 0 ≤ l ≤ 2 →
        (surf_computed 1 1 2 k l →
           k + l ≤ 2
           ∧ at2 tbl k l
             = Some (surf_der_sum CoxDeBoor 2 (qc 1 2) (qc 1 2) 1 1
                       knots_lin knots_lin grid_2x2 2 k l))
        ∧ (¬ surf_computed 1 1 2 k l →
           at2 tbl k l = Some (surf_init (qc 7 1) 2 1 1 k l)).
Proof.
  apply (surfaceDerivatives_computed_orders (qc 7 1) CoxDeBoor 2
           (qc 1 2) (qc 1 2) 1 1 knots_lin knots_lin grid_2x2 2).
  - lia.
  - exists 2%nat. split; [|split; reflexivity].
    split; [reflexivity|]. repeat constructor.
  - by vm_compute.
  - by vm_compute.
  - split; [reflexivity|]. vm_compute. repeat constructor.
  - split; [reflexivity|]. vm_compute. repeat constructor.
Defined.

(** C8. The degree-2 curve with knots [0,0,0,1,1,1] and control points
    (0,0), (1,2), (2,0), with [findSpan] and [bsplineBasis] as their
    contracts describe them: [curvePoint] returns (1,1) at u = 1/2, (0,0) at
    u = 0 and (2,0) at u = 1. *)
Theorem curvePoint_degree2_scenario :
  curvePoint CoxDeBoor 2 (qc 1 2) 2 knots_bezier2 cps_arch
    = Some [qc 1 1; qc 1 1]
  ∧ curvePoint CoxDeBoor 2 (qc 0 1) 2 knots_bezier2 cps_arch
    = Some [qc 0 1; qc 0 1]
  ∧ curvePoint CoxDeBoor 2 (qc 1 1) 2 knots_bezier2 cps_arch
    = Some [qc 2 1; qc 0 1].
Proof. repeat split; apply Qc_some_vec; vm_compute; reflexivity. Qed.

(** C1. On the degree-2 curve with control points (0,0), (1,4), (2,0) and
    weights 1, 1, 1 at u = 1/2 the homogeneous derivatives are (1,2,1) and
    (2,0,0).  [rationalCurveDerivatives] returns 1/2 and 1 as first
    coordinates of C_0 and C_1, whatever the unassigned last component of
    [Aderi] holds: it takes [val[dim - 1]] = 2, the last cartesian
    coordinate, as the weight.  The recursion of the specification, on the
    same homogeneous derivatives, gives C_0 = (1,2) and C_1 = (2,0). *)
Theorem rationalCurveDerivatives_splits_one_component_early (indet : Qc) :
  (∃ y0 y1,
     rationalCurveDerivatives indet CoxDeBoor 2 (qc 1 2) 2 knots_bezier2
       cps_tall weights_one3 1
     = Some [[qc 1 2; y0]; [qc 1 1; y1]])
  ∧ (Cw ← lift_curve cps_tall weights_one3;
     Cwders ← curveDerivatives indet CoxDeBoor 3 (qc 1 2) 2 knots_bezier2
                Cw 1;
     Some (Cwders, rationalCurveDerivatives_per_spec Cwders 1))
    = Some ([[qc 1 1; qc 2 1; qc 1 1]; [qc 2 1; qc 0 1; qc 0 1]],
            [[qc 1 1; qc 2 1]; [qc 2 1; qc 0 1]]).
Proof.
  split.
  - vm_compute.
    match goal with
    | |- ∃ _ _, Some [[_; ?a]; [_; ?b]] = _ => exists a, b
    end.
    f_equal. repeat (f_equal; try (apply Qc_is_canon; reflexivity)).
  - vm_compute.
    repeat (f_equal; try (apply Qc_is_canon; reflexivity)).
Qed.

(** The premises of C2 hold of the bidegree-(1,1) surface at (1/2, 1/2)
    with num_ders = 2: the entries (2,0), (2,1), (0,2), (1,2) and (2,2) of
    the table are the zero vector. *)
Lemma surfaceDerivatives_zero_above_degree_witness :
  ∃ surf_ders,
    surfaceDerivatives s0 CoxDeBoor 2 (qc 1 2) (qc 1 2) 1 1
      knots_lin knots_lin grid_2x2 2 = Some surf_ders
    ∧ ∀ k l, 0 ≤ k ≤ 2 → 0 ≤ l ≤ 2 →
        Z.of_nat 1 < k ∨ Z.of_nat 1 < l →
        at2 surf_ders k l = Some (vzero 2).
Proof.
  apply (surfaceDerivatives_zero_above_degree CoxDeBoor 2
           (qc 1 2) (qc 1 2) 1 1 knots_lin knots_lin grid_2x2 2).
  - lia.
  - exists 2%nat. split; [|split; reflexivity].
    split; [reflexivity|]. repeat constructor.
  - by vm_compute.
  - by vm_compute.
  - split; [reflexivity|]. vm_compute. repeat constructor.
  - split; [reflexivity|]. vm_compute. repeat constructor.
Defined.

(** C3. On the bidegree-(1,1) surface with weights 1, 1, 1, 2 at
    (1/2, 1/2), with num_ders = 2: [rationalSurfaceDerivatives] returns
    (56/25, 456/125) as the entry (1,1).  The formula of the specification,
    on the same homogeneous derivatives and the same entries of lower order,
    gives (16/25, 176/125): the source adds the mixed cross term it is to
    subtract. *)
Theorem rationalSurfaceDerivatives_adds_cross_terms :
  (homo_cp ← lift_grid_assign (qc 0 1) 2 grid_2x2 weights_2x2;
   homo_ders ← surfaceDerivatives (qc 0 1) CoxDeBoor 3 (qc 1 2) (qc 1 2) 1 1
                 knots_lin knots_lin homo_cp 2;
   Aders ← truncate_ders (qc 0 1) 2 2 homo_ders;
   tbl ← rationalSurfaceDerivatives (qc 0 1) CoxDeBoor 2 (qc 1 2) (qc 1 2)
           1 1 knots_lin knots_lin grid_2x2 weights_2x2 2 [];
   code ← at2 tbl 1 1;
   Some (code, rational_entry_per_spec 2 homo_ders Aders tbl 1 1))
  = Some ([qc 56 25; qc 456 125], [qc 16 25; qc 176 125]).
Proof.
  vm_compute. repeat (f_equal; try (apply Qc_is_canon; reflexivity)).
Qed.

(** C4. On the degree-2 curve with control points (0,0), (1,4), (2,0) and
    all weights 1, at u = 1/2 with num_ders = 0,
    [rationalCurveDerivatives] and [curveDerivatives] return different
    tables, whatever the unassigned component of [Aderi] holds: the first
    has 1/2 as first coordinate of its entry, the second has 1. *)
Theorem rationalCurveDerivatives_unit_weights_differ (indet : Qc) :
  rationalCurveDerivatives indet CoxDeBoor 2 (qc 1 2) 2 knots_bezier2
    cps_tall weights_one3 0
  ≠ curveDerivatives indet CoxDeBoor 2 (qc 1 2) 2 knots_bezier2 cps_tall 0.
Proof.
  intros E.
  apply (f_equal (λ r, this <$> (tbl ← r; v ← at_ tbl 0; at_ v 0))) in E.
  vm_compute in E. discriminate E.
Qed.

(** C10. With num_ders = 1 the entry (1,1) has k + l > num_ders.  When the
    caller passes an empty table, [rationalSurfaceDerivatives] leaves the
    default of the resized storage there; when the caller passes a 2×2 table
    it already holds, the entry keeps the caller's vector (6,6). *)
Theorem rationalSurfaceDerivatives_keeps_passed_entries :
  (tbl ← rationalSurfaceDerivatives (qc 5 1) CoxDeBoor 2 (qc 1 2) (qc 1 2)
           1 1 knots_lin knots_lin grid_2x2 weights_2x2 1 [];
   at2 tbl 1 1) = Some (vdefault (qc 5 1) 2)
  ∧ (tbl ← rationalSurfaceDerivatives (qc 5 1) CoxDeBoor 2 (qc 1 2) (qc 1 2)
             1 1 knots_lin knots_lin grid_2x2 weights_2x2 1 table_stale;
     at2 tbl 1 1) = Some [qc 6 1; qc 6 1].
Proof.
  split; vm_compute; repeat (f_equal; try (apply Qc_is_canon; reflexivity)).
Qed.

(** The unit of the canonical rationals is neutral in products and
    quotients. *)
Lemma Qc_unit_laws : unit_laws (T:=Qc).
Proof.
  repeat split; intros x; simpl.
  - apply Qcmult_1_l.
  - apply Qcmult_1_r.
  - unfold Qcdiv. replace (/ Q2Qc 1)%Qc with (Q2Qc 1).
    + apply Qcmult_1_r.
    + by apply Qc_this_inj.
Qed.

(** C6. With every weight set to 1, on a valid curve or surface whose basis
    values sum to 1, over scalars whose unit is neutral in products and
    quotients, [rationalCurvePoint] returns the point of [curvePoint] and
    [rationalSurfacePoint] the point of [surfacePoint]; and the degree-2
    curve with knots [0,0,0,1,1,1], control points (0,0), (1,2), (2,0) and
    weights 1, 1, 1 evaluated rationally at u = 1/2 yields (1,1). *)
Theorem rational_points_with_unit_weights :
  (∀ (T : Type) (ST : Scalar T) (BP : BasisProvider T) (dim : nat) (u : T)
     (degree : nat) (knots : list T) (control_points : list (list T)),
     unit_laws →
     points_dim dim control_points →
     isValidRelation degree (length knots) (length control_points) = true →
     span_valid BP degree knots u →
     basis_shape BP degree knots u →
     basis_sums_to_one BP degree knots u →
     rationalCurvePoint BP dim u degree knots control_points
       (unit_weights control_points)
     = curvePoint BP dim u degree knots control_points)
  ∧ (∀ (T : Type) (ST : Scalar T) (BP : BasisProvider T) (dim : nat)
       (u v : T) (degree_u degree_v : nat) (knots_u knots_v : list T)
       (control_points : list (list (list T))),
       unit_laws →
       grid_dim dim control_points →
       grid_valid degree_u degree_v knots_u knots_v control_points →
       span_valid BP degree_u knots_u u →
       span_valid BP degree_v knots_v v →
       basis_shape BP degree_u knots_u u →
       basis_shape BP degree_v knots_v v →
       basis_sums_to_one BP degree_u knots_u u →
       basis_sums_to_one BP degree_v knots_v v →
       rationalSurfacePoint BP dim u v degree_u degree_v knots_u knots_v
         control_points (unit_weight_grid control_points)
       = surfacePoint BP dim u v degree_u degree_v knots_u knots_v
           control_points)
  ∧ rationalCurvePoint CoxDeBoor 2 (qc 1 2) 2 knots_bezier2 cps_arch
      weights_one3 = Some [qc 1 1; qc 1 1].
Proof.
  split; [|split].
  - intros. by apply rationalCurvePoint_unit_weights.
  - intros. by apply rationalSurfacePoint_unit_weights.
  - apply Qc_some_vec. vm_compute. reflexivity.
Qed.

(** The premises of C6 hold of the degree-2 curve at u = 1/2 and of the
    bidegree-(1,1) surface at (1/2, 1/2), over the canonical rationals. *)
Lemma rational_points_with_unit_weights_witness :
  rationalCurvePoint CoxDeBoor 2 (qc 1 2) 2 knots_bezier2 cps_arch
    (unit_weights cps_arch)
  = curvePoint CoxDeBoor 2 (qc 1 2) 2 knots_bezier2 cps_arch
  ∧ rationalSurfacePoint CoxDeBoor 2 (qc 1 2) (qc 1 2) 1 1
      knots_lin knots_lin grid_2x2 (unit_weight_grid grid_2x2)
    = surfacePoint CoxDeBoor 2 (qc 1 2) (qc 1 2) 1 1
        knots_lin knots_lin grid_2x2.
Proof.
  split.
  - apply (proj1 rational_points_with_unit_weights).
    + apply Qc_unit_laws.
    + repeat constructor.
    + reflexivity.
    + by vm_compute.
    + reflexivity.
    + apply Qc_this_inj. vm_compute. reflexivity.
  - apply (proj1 (proj2 rational_points_with_unit_weights)).
    + apply Qc_unit_laws.
    + repeat constructor.
    + exists 2%nat. split; [|split; reflexivity].
      split; [reflexivity|]. repeat constructor.
    + by vm_compute.
    + by vm_compute.
    + reflexivity.
    + reflexivity.
    + apply Qc_this_inj. vm_compute. reflexivity.
    + apply Qc_this_inj. vm_compute. reflexivity.
Defined.

(** * Further properties of the evaluators *)

Section Further.
Context {T : Type} `{Scalar T}.
Variable BP : BasisProvider T.

(** A list whose entries are given by a function of the index. *)
Lemma list_eq_map_seqZ {A : Type} (l : list A) (f : Z → A) (n : Z) :
  Z.of_nat (length l) = n →
  (∀ i, 0 ≤ i < n → at_ l i = Some (f i)) →
  l = map f (seqZ 0 n).
Proof.
  intros Hlen Hl. apply list_eq. intros i.
  destruct (decide (Z.of_nat i < n)) as [Hi|Hi].
  - rewrite list_lookup_fmap, lookup_seqZ_lt by done. simpl.
    rewrite Z.add_0_l. rewrite <- (Hl (Z.of_nat i)) by lia. rewrite at_lookup by lia.
    by rewrite Nat2Z.id.
  - rewrite lookup_ge_None_2 by lia. symmetry. apply lookup_ge_None_2.
    rewrite length_map, length_seqZ. lia.
Qed.

(** [curveDerivatives] on a valid curve, in closed form. *)
Lemma curveDerivatives_closed_form (indet : T) (dim : nat) (u : T)
    (degree : nat)
    (knots : list T) (control_points : list (list T)) (num_ders : Z) :
  0 ≤ num_ders →
  isValidRelation degree (length knots) (length control_points) = true →
  span_valid BP degree knots u →
  ders_shape BP degree knots u num_ders →
  curveDerivatives indet BP dim u degree knots control_points num_ders
  = Some (curve_ders_table BP dim u degree knots control_points num_ders).
Proof.
  intros Hnd Hrel%bool_decide_eq_true_1 Hspan Hders.
  unfold curveDerivatives.
  unfold span_valid in Hspan. unfold ders_shape in Hders.
  rewrite bool_decide_eq_false_2 by lia.
  set (n1 := Z.to_nat (num_ders + 1)).
  set (span := findSpan BP degree knots u) in *.
  set (ders := bsplineDerBasis BP degree span knots u num_ders) in *.
  set (du := if bool_decide (num_ders < Z.of_nat degree)
             then num_ders else Z.of_nat degree).
  assert (Hdu : du = Z.min (Z.of_nat degree) num_ders)
    by (unfold du; case_bool_decide; lia).
  destruct (for_le_inv_max
    (λ k cd, length cd = n1 ∧
       ∀ i, 0 ≤ i < Z.of_nat n1 →
         at_ cd i = Some (if decide (Z.of_nat degree < i < k)
                          then vzero dim else vdefault indet dim))
    (Z.of_nat degree + 1) num_ders
    (λ k cd, set_at cd k (vzero dim))
    (replicate n1 (vdefault indet dim))) as (cd1 & -> & Hlen1 & Hcd1).
  { split; [apply length_replicate|]. intros i Hi.
    rewrite at_replicate by done. by rewrite decide_False by lia. }
  { intros k cd Hk [Hlen Hcd]. exists (upd cd k (vzero dim)).
    split; [apply set_at_upd; lia|]. split; [by rewrite length_upd|].
    intros i Hi. rewrite at_upd by lia. rewrite Hcd by done.
    repeat case_decide; try done; lia. }
  simpl.
  match goal with |- context [for_le 0 du ?body cd1] =>
    destruct (for_le_inv
      (λ k cd, length cd = n1 ∧
         ∀ i, 0 ≤ i < Z.of_nat n1 →
           at_ cd i = Some (
             if decide (i < k)
             then curve_der_sum BP dim u degree knots control_points
                    num_ders i
             else if decide (Z.of_nat degree < i)
                  then vzero dim else vdefault indet dim))
      0 du body cd1) as (cd2 & -> & Hlen2 & Hcd2)
  end.
  { lia. }
  { split; [done|]. intros i Hi. rewrite Hcd1 by done.
    repeat case_decide; try done; lia. }
  { intros k cd Hk [Hlen Hcd].
    exists (upd cd k (curve_der_sum BP dim u degree knots control_points
                        num_ders k)).
    split.
    - rewrite set_at_upd by lia. simpl.
      unfold curve_der_sum, weighted_sum. fold span ders.
      rewrite (for_le_cell (upd cd k)
        (λ acc j, vadd acc (vscale (coef (entry ders k) j)
           (entry control_points (span - Z.of_nat degree + j)))));
        [by rewrite Z.sub_0_r|lia|].
      intros j x Hj. rewrite at_upd by lia. rewrite decide_True by done.
      simpl.
      rewrite (at2_coef ders _ _ k j Hders) by lia. simpl.
      rewrite (at_default control_points _ []) by lia. simpl.
      rewrite set_at_upd by (rewrite length_upd; lia).
      by rewrite upd_upd.
    - split; [by rewrite length_upd|].
      intros i Hi. rewrite at_upd by lia. rewrite Hcd by done.
      repeat case_decide; subst; try done; lia. }
  f_equal. apply list_eq_map_seqZ; [lia|].
  intros i Hi. rewrite Hcd2 by lia.
  repeat case_decide; try done; lia.
Qed.

(** X1. On a valid surface [surfacePoint] returns the tensor-product sum
    Σ_{l=0..degree_v} Nv_l · (Σ_{k=0..degree_u} Nu_k ·
    control_points[span_u − degree_u + k][span_v − degree_v + l]). *)
Theorem surfacePoint_is_tensor_sum (dim : nat) (u v : T)
    (degree_u degree_v : nat) (knots_u knots_v : list T)
    (control_points : list (list (list T))) :
  grid_valid degree_u degree_v knots_u knots_v control_points →
  span_valid BP degree_u knots_u u →
  span_valid BP degree_v knots_v v →
  basis_shape BP degree_u knots_u u →
  basis_shape BP degree_v knots_v v →
  let span_u := findSpan BP degree_u knots_u u in
  let span_v := findSpan BP degree_v knots_v v in
  let Nu := bsplineBasis BP degree_u span_u knots_u u in
  let Nv := bsplineBasis BP degree_v span_v knots_v v in
  surfacePoint BP dim u v degree_u degree_v knots_u knots_v control_points
  = Some (weighted_sum dim (coef Nv)
            (λ l, weighted_sum dim (coef Nu)
                    (λ k, entry2 control_points
                            (span_u - Z.of_nat degree_u + k)
                            (span_v - Z.of_nat degree_v + l))
                    (Z.of_nat degree_u + 1))
            (Z.of_nat degree_v + 1)).
Proof.
  intros (nv & Hcp & Hru%bool_decide_eq_true_1 & Hrv%bool_decide_eq_true_1)
    Hsu Hsv HNu HNv span_u span_v Nu Nv.
  unfold span_valid in Hsu, Hsv.
  apply (surfacePoint_weighted_sum BP dim u v degree_u degree_v
           knots_u knots_v control_points _ nv Hcp); (lia || done).
Qed.

(** X2. On a valid curve, for [num_ders >= 0], the table of
    [curveDerivatives] does not depend on what default-constructed vectors
    hold: every entry of the resized storage is assigned before the
    evaluator returns. *)
Theorem curveDerivatives_ignores_default_storage (indet indet' : T)
    (dim : nat) (u : T) (degree : nat) (knots : list T)
    (control_points : list (list T)) (num_ders : Z) :
  0 ≤ num_ders →
  isValidRelation degree (length knots) (length control_points) = true →
  span_valid BP degree knots u →
  ders_shape BP degree knots u num_ders →
  curveDerivatives indet BP dim u degree knots control_points num_ders
  = curveDerivatives indet' BP dim u degree knots control_points num_ders
  ∧ is_Some (curveDerivatives indet BP dim u degree knots control_points
               num_ders).
Proof.
  intros Hnd Hrel Hspan Hders.
  rewrite !curveDerivatives_closed_form by done. by split.
Qed.
Lemma at_seqZ (n i : Z) : 0 ≤ i < n → at_ (seqZ 0 n) i = Some i.
Proof.
  intros Hi. rewrite at_lookup by lia. rewrite lookup_seqZ_lt by lia.
  f_equal. lia.
Qed.

(** X3. On a valid curve, for [num_ders >= 0], when row 0 of the basis
    derivatives is the vector of basis values, the entry of order 0 of
    [curveDerivatives] is the point [curvePoint] returns. *)
Theorem curveDerivatives_order0_is_curvePoint (indet : T) (dim : nat)
    (u : T) (degree : nat) (knots : list T)
    (control_points : list (list T)) (num_ders : Z) :
  0 ≤ num_ders →
  isValidRelation degree (length knots) (length control_points) = true →
  span_valid BP degree knots u →
  ders_shape BP degree knots u num_ders →
  ders_row0_is_basis BP degree knots u num_ders →
  ∃ curve_ders,
    curveDerivatives indet BP dim u degree knots control_points num_ders
      = Some curve_ders
    ∧ at_ curve_ders 0 = curvePoint BP dim u degree knots control_points.
Proof.
  intros Hnd Hrel Hspan Hders Hrow0.
  rewrite curveDerivatives_closed_form by done.
  eexists. split; [done|].
  apply bool_decide_eq_true_1 in Hrel.
  unfold span_valid in Hspan. unfold ders_shape in Hders.
  unfold ders_row0_is_basis in Hrow0. cbv zeta in Hrow0.
  destruct (table_shape_at _ _ _ 0 Hders) as (row & Erow & Lrow); [lia|].
  rewrite Hrow0 in Erow. injection Erow as <-.
  unfold curve_ders_table. rewrite at_map, at_seqZ by lia. simpl.
  rewrite decide_True by lia.
  rewrite curvePoint_weighted_sum by (lia || done).
  unfold curve_der_sum. do 2 f_equal. unfold entry. by rewrite Hrow0.
Qed.

(** The entry (0,0) of [surfaceDerivatives] and [surfacePoint]. *)
Lemma surfaceDerivatives_order00 (indet : T) (dim : nat)
    (u v : T) (degree_u degree_v : nat) (knots_u knots_v : list T)
    (control_points : list (list (list T))) (num_ders : Z) :
  0 ≤ num_ders →
  grid_valid degree_u degree_v knots_u knots_v control_points →
  span_valid BP degree_u knots_u u →
  span_valid BP degree_v knots_v v →
  ders_shape BP degree_u knots_u u num_ders →
  ders_shape BP degree_v knots_v v num_ders →
  ders_row0_is_basis BP degree_u knots_u u num_ders →
  ders_row0_is_basis BP degree_v knots_v v num_ders →
  ∃ surf_ders,
    surfaceDerivatives indet BP dim u v degree_u degree_v knots_u knots_v
      control_points num_ders = Some surf_ders
    ∧ at2 surf_ders 0 0
      = surfacePoint BP dim u v degree_u degree_v knots_u knots_v
          control_points.
Proof.
  intros Hnd Hgrid Hsu Hsv Hdu Hdv Hrow_u Hrow_v.
  destruct (surfaceDerivatives_table indet BP dim u v degree_u degree_v
              knots_u knots_v control_points num_ders
              Hnd Hgrid Hsu Hsv Hdu Hdv) as (tbl & E & _ & Htbl).
  exists tbl. split; [done|]. rewrite Htbl by lia.
  rewrite decide_True by (unfold surf_computed; lia).
  destruct Hgrid as (nv & Hcp & Hru%bool_decide_eq_true_1
                        & Hrv%bool_decide_eq_true_1).
  unfold span_valid in Hsu, Hsv. unfold ders_shape in Hdu, Hdv.
  unfold ders_row0_is_basis in Hrow_u, Hrow_v.
  cbv zeta in Hrow_u, Hrow_v.
  destruct (table_shape_at _ _ _ 0 Hdu) as (ru & Eru & Lru); [lia|].
  destruct (table_shape_at _ _ _ 0 Hdv) as (rv & Erv & Lrv); [lia|].
  rewrite Hrow_u in Eru. injection Eru as <-.
  rewrite Hrow_v in Erv. injection Erv as <-.
  rewrite (surfacePoint_weighted_sum BP dim u v degree_u degree_v
             knots_u knots_v control_points _ nv Hcp) by (lia || done).
  unfold surf_der_sum, surf_temp_sum, entry2. f_equal.
  unfold entry at 1. rewrite Hrow_v. simpl.
  apply weighted_sum_ext; [done|]. intros l Hl.
  unfold entry at 1. by rewrite Hrow_u.
Qed.

(** X4. On a valid surface, for [num_ders >= 0], when row 0 of the basis
    derivatives is the vector of basis values in both directions, the entry
    (0,0) of [surfaceDerivatives] is the point [surfacePoint] returns. *)
Theorem surfaceDerivatives_order00_is_surfacePoint (indet : T) (dim : nat)
    (u v : T) (degree_u degree_v : nat) (knots_u knots_v : list T)
    (control_points : list (list (list T))) (num_ders : Z) :
  0 ≤ num_ders →
  grid_valid degree_u degree_v knots_u knots_v control_points →
  span_valid BP degree_u knots_u u →
  span_valid BP degree_v knots_v v →
  ders_shape BP degree_u knots_u u num_ders →
  ders_shape BP degree_v knots_v v num_ders →
  ders_row0_is_basis BP degree_u knots_u u num_ders →
  ders_row0_is_basis BP degree_v knots_v v num_ders →
  ∃ surf_ders,
    surfaceDerivatives indet BP dim u v degree_u degree_v knots_u knots_v
      control_points num_ders = Some surf_ders
    ∧ at2 surf_ders 0 0
      = surfacePoint BP dim u v degree_u degree_v knots_u knots_v
          control_points.
Proof. intros. by apply surfaceDerivatives_order00. Qed.

(** X5. On a valid surface, for [num_ders >= 0], [surfaceDerivatives]
    returns a table of num_ders+1 rows of num_ders+1 entries, and every
    entry (k, l) with k > degree_u and l > degree_v is the zero vector. *)
Theorem surfaceDerivatives_shape_and_zeros (indet : T) (dim : nat)
    (u v : T) (degree_u degree_v : nat) (knots_u knots_v : list T)
    (control_points : list (list (list T))) (num_ders : Z) :
  0 ≤ num_ders →
  grid_valid degree_u degree_v knots_u knots_v control_points →
  span_valid BP degree_u knots_u u →
  span_valid BP degree_v knots_v v →
  ders_shape BP degree_u knots_u u num_ders →
  ders_shape BP degree_v knots_v v num_ders →
  ∃ surf_ders,
    surfaceDerivatives indet BP dim u v degree_u degree_v knots_u knots_v
      control_points num_ders = Some surf_ders
    ∧ table_shape surf_ders (Z.to_nat (num_ders + 1))
        (Z.to_nat (num_ders + 1))
    ∧ ∀ k l, Z.of_nat degree_u < k ≤ num_ders →
             Z.of_nat degree_v < l ≤ num_ders →
             at2 surf_ders k l = Some (vzero dim).
Proof.
  intros Hnd Hgrid Hsu Hsv Hdu Hdv.
  destruct (surfaceDerivatives_table indet BP dim u v degree_u degree_v
              knots_u knots_v control_points num_ders
              Hnd Hgrid Hsu Hsv Hdu Hdv) as (tbl & E & Hsh & Htbl).
  exists tbl. split; [done|]. split; [done|].
  intros k l Hk Hl. rewrite Htbl by lia.
  rewrite decide_False by (unfold surf_computed; lia).
  unfold surf_init. by rewrite decide_True by lia.
Qed.

Lemma at2_resized_table_nil (indet : T) (dim : nat) (num_ders k l : Z) :
  0 ≤ k ≤ num_ders → 0 ≤ l ≤ num_ders →
  at2 (resized_table indet dim num_ders []) k l
  = Some (vdefault indet dim).
Proof.
  intros Hk Hl. unfold resized_table, at2.
  rewrite resize_nil, at_map, at_replicate by lia. simpl.
  rewrite resize_nil. apply at_replicate. lia.
Qed.

(** X6. On a valid rational surface, for [num_ders >= 0] and whatever
    table the caller passes in, [rationalSurfaceDerivatives] returns a
    table, and every entry (k, l) of it with k + l > num_ders is the entry
    its [resize] calls left there: the entry of the table passed in where
    it had one, the default-constructed vector elsewhere, and so the
    default-constructed vector everywhere when the table passed in is
    empty. *)
Theorem rationalSurfaceDerivatives_leaves_upper_triangle (indet : T)
    (dim : nat) (u v : T) (degree_u degree_v : nat)
    (knots_u knots_v : list T) (control_points : list (list (list T)))
    (weights : list (list T)) (num_ders : Z)
    (surf_ders : list (list (list T))) (nv : nat) :
  0 ≤ num_ders →
  table_shape control_points (length control_points) nv →
  table_shape weights (length control_points) nv →
  grid_dim dim control_points →
  isValidRelation degree_u (length knots_u) (length control_points) = true →
  isValidRelation degree_v (length knots_v) nv = true →
  span_valid BP degree_u knots_u u →
  span_valid BP degree_v knots_v v →
  ders_shape BP degree_u knots_u u num_ders →
  ders_shape BP degree_v knots_v v num_ders →
  ∃ tbl,
    rationalSurfaceDerivatives indet BP dim u v degree_u degree_v
      knots_u knots_v control_points weights num_ders surf_ders = Some tbl
    ∧ (∀ k l, 0 ≤ k ≤ num_ders → 0 ≤ l ≤ num_ders → num_ders < k + l →
         at2 tbl k l = at2 (resized_table indet dim num_ders surf_ders) k l)
    ∧ (surf_ders = [] →
       ∀ k l, 0 ≤ k ≤ num_ders → 0 ≤ l ≤ num_ders → num_ders < k + l →
         at2 tbl k l = Some (vdefault indet dim)).
Proof.
  intros Hnd Hcp Hwt Hdim Hru Hrv Hsu Hsv Hdu Hdv.
  destruct (rationalSurfaceDerivatives_frame indet BP dim u v
              degree_u degree_v knots_u knots_v control_points weights
              num_ders surf_ders nv Hnd Hcp Hwt Hdim Hru Hrv Hsu Hsv
              Hdu Hdv) as (tbl & E & Hframe).
  exists tbl. split; [done|]. split; [done|].
  intros -> k l Hk Hl Hkl. rewrite Hframe by done.
  by apply at2_resized_table_nil.
Qed.
(** *** Bounds and edge cases *)

(** A loop that returns ran its body with success at every counter value. *)
Lemma for_up_Some_body {S : Type} (n : nat) (a : Z)
    (body : Z → S → option S) (s s' : S) :
  for_up n a body s = Some s' →
  ∀ k, a ≤ k < a + Z.of_nat n → ∃ st, is_Some (body k st).
Proof.
  revert a s. induction n as [|n IH]; intros a s E k Hk; [lia|].
  simpl in E. destruct (body a s) as [s1|] eqn:E1; [|done].
  destruct (decide (k = a)) as [->|Hne].
  - exists s. by rewrite E1.
  - apply (IH (a + 1) s1 E). lia.
Qed.

Lemma for_le_Some_body {S : Type} (a b : Z) (body : Z → S → option S)
    (s s' : S) :
  for_le a b body s = Some s' →
  ∀ k, a ≤ k ≤ b → ∃ st, is_Some (body k st).
Proof.
  intros E k Hk. apply (for_up_Some_body _ _ _ _ _ E). lia.
Qed.

Lemma for_lt_Some_body {S : Type} (a b : Z) (body : Z → S → option S)
    (s s' : S) :
  for_lt a b body s = Some s' →
  ∀ k, a ≤ k < b → ∃ st, is_Some (body k st).
Proof.
  intros E k Hk. apply (for_up_Some_body _ _ _ _ _ E). lia.
Qed.

Lemma for_le_is_Some {S : Type} (a b : Z) (body : Z → S → option S)
    (s : S) :
  (∀ k st, a ≤ k ≤ b → is_Some (body k st)) →
  is_Some (for_le a b body s).
Proof.
  intros Hbody.
  destruct (for_le_inv_max (λ _ _, True) a b body s) as (s' & -> & _);
    [done| |done].
  intros k st Hk _. destruct (Hbody k st Hk) as [st' ->]. by exists st'.
Qed.

Lemma bind_Some_inv {A B : Type} (m : option A) (f : A → option B) :
  is_Some (m ≫= f) → ∃ x, m = Some x ∧ is_Some (f x).
Proof. destruct m as [x|]; simpl; [by exists x|by intros [? ?]]. Qed.

(** X7. [curvePoint] returns a point exactly when the indices it reads are
    in bounds: [bsplineBasis] returned more than [degree] values, the span
    is at least [degree] and the span is the index of a control point.
    Otherwise a read of [N] or of [control_points] is outside the vector. *)
Theorem curvePoint_defined_iff_in_bounds (dim : nat) (u : T) (degree : nat)
    (knots : list T) (control_points : list (list T)) :
  is_Some (curvePoint BP dim u degree knots control_points)
  ↔ curvePoint_in_bounds BP u degree knots control_points.
Proof.
  unfold curvePoint, curvePoint_in_bounds.
  set (span := findSpan BP degree knots u).
  set (N := bsplineBasis BP degree span knots u).
  split.
  - intros [pt E].
    destruct (for_le_Some_body _ _ _ _ _ E 0) as [st0 H0]; [lia|].
    destruct (for_le_Some_body _ _ _ _ _ E (Z.of_nat degree)) as [st1 H1];
      [lia|].
    apply bind_Some_inv in H0 as (N0 & _ & H0).
    apply bind_Some_inv in H0 as (P0 & EP0%at_Some_range & _).
    apply bind_Some_inv in H1 as (Nd & ENd%at_Some_range & H1).
    apply bind_Some_inv in H1 as (P1 & EP1%at_Some_range & _).
    lia.
  - intros [HN Hspan]. apply for_le_is_Some. intros j st Hj.
    apply bind_is_Some; [apply at_is_Some; lia|]. intros Nj.
    apply bind_is_Some; [apply at_is_Some; lia|]. intros P. by eexists.
Qed.

(** *** The weights the rational curve evaluators read *)

Lemma foldl_snoc_from {A B : Type} (g : A → B) (l : list A) (a : list B) :
  foldl (λ acc x, acc ++ [g x]) a l = a ++ map g l.
Proof.
  revert a. induction l as [|x l IH]; intros a; simpl.
  - by rewrite app_nil_r.
  - rewrite IH. by rewrite <- app_assoc.
Qed.

(** The lifted control points: one per control point, each with the weight
    of the same index. *)
Lemma lift_curve_closed_form (control_points : list (list T))
    (weights : list T) :
  (length control_points ≤ length weights)%nat →
  lift_curve control_points weights
  = Some (map (λ i, cartesianToHomogenous (entry control_points i)
                      (coef weights i))
              (seqZ 0 (Z.of_nat (length control_points)))).
Proof.
  intros Hlen. unfold lift_curve.
  rewrite (for_lt_foldl
    (λ Cw i, Cw ++ [cartesianToHomogenous (entry control_points i)
                      (coef weights i)])); [|lia|].
  - rewrite Z.sub_0_r. f_equal.
    exact (foldl_snoc_from
             (λ i, cartesianToHomogenous (entry control_points i)
                     (coef weights i)) _ []).
  - intros i Hi. unfold entry, coef.
    rewrite (at_default control_points i []) by lia. simpl.
    by rewrite (at_default weights i s0) by lia.
Qed.

Lemma lift_curve_short_weights (control_points : list (list T))
    (weights : list T) :
  (length weights < length control_points)%nat →
  lift_curve control_points weights = None.
Proof.
  intros Hlen. unfold lift_curve.
  match goal with |- ?l = None => destruct l as [Cw|] eqn:E end; [|done].
  destruct (for_lt_Some_body _ _ _ _ _ E (Z.of_nat (length weights)))
    as [st Hst]; [lia|].
  apply bind_Some_inv in Hst as (P & _ & Hst).
  apply bind_Some_inv in Hst as (w & Ew%at_Some_range & _). lia.
Qed.

Lemma lift_curve_take_weights (control_points : list (list T))
    (weights : list T) :
  (length control_points ≤ length weights)%nat →
  lift_curve control_points (take (length control_points) weights)
  = lift_curve control_points weights.
Proof.
  intros Hlen.
  rewrite !lift_curve_closed_form by (rewrite ?length_take; lia).
  f_equal. apply map_ext_in. intros i Hi%list_elem_of_In%elem_of_seqZ.
  f_equal. unfold coef. rewrite !at_lookup by lia.
  by rewrite lookup_take_lt by lia.
Qed.

(** X9. The rational curve evaluators read one weight per control point:
    with fewer weights than control points they read outside [weights] and
    fail; with more, the weights beyond the last control point do not
    change the result. *)
Theorem rational_curve_reads_one_weight_per_point (indet : T) (dim : nat)
    (u : T) (degree : nat) (knots : list T)
    (control_points : list (list T)) (weights : list T) (num_ders : Z) :
  ((length weights < length control_points)%nat →
     rationalCurvePoint BP dim u degree knots control_points weights = None
     ∧ rationalCurveDerivatives indet BP dim u degree knots control_points
         weights num_ders = None)
  ∧ ((length control_points ≤ length weights)%nat →
     rationalCurvePoint BP dim u degree knots control_points
       (take (length control_points) weights)
     = rationalCurvePoint BP dim u degree knots control_points weights
     ∧ rationalCurveDerivatives indet BP dim u degree knots control_points
         (take (length control_points) weights) num_ders
       = rationalCurveDerivatives indet BP dim u degree knots control_points
           weights num_ders).
Proof.
  split; intros Hlen; unfold rationalCurvePoint, rationalCurveDerivatives.
  - rewrite lift_curve_short_weights by done. split; [done|].
    by case_bool_decide.
  - by rewrite lift_curve_take_weights by done.
Qed.

(** *** Control points that coincide *)

Lemma vscale_zero (P : list T) :
  (∀ x : T, smul s0 x = s0) → vscale s0 P = vzero (length P).
Proof.
  intros H0. unfold vscale, vzero. induction P as [|x P IH]; [done|].
  simpl. by rewrite H0, IH.
Qed.

Lemma vscale_one (P : list T) :
  (∀ x : T, smul s1 x = x) → vscale s1 P = P.
Proof.
  intros H1. unfold vscale. induction P as [|x P IH]; [done|].
  simpl. by rewrite H1, IH.
Qed.

Lemma vadd_vscale (a b : T) (P : list T) :
  (∀ a b x : T, sadd (smul a x) (smul b x) = smul (sadd a b) x) →
  vadd (vscale a P) (vscale b P) = vscale (sadd a b) P.
Proof.
  intros Hd. unfold vadd, vscale. induction P as [|x P IH]; [done|].
  simpl. by rewrite Hd, IH.
Qed.

(** The sum of multiples of one point is the multiple by the sum of the
    coefficients. *)
Lemma weighted_sum_const (c : Z → T) (P : list T) (n : Z) :
  combination_laws →
  0 ≤ n →
  weighted_sum (length P) c (λ _, P) n
  = vscale (foldl (λ a j, sadd a (c j)) s0 (seqZ 0 n)) P.
Proof.
  intros (H0 & H1 & Hd) Hn. unfold weighted_sum.
  apply (foldl_seqZ_inv (λ k x,
    x = vscale (foldl (λ a j, sadd a (c j)) s0 (seqZ 0 k)) P)); [done| |].
  - simpl. by rewrite vscale_zero.
  - intros k x Hk ->. rewrite seqZ_app by lia. rewrite foldl_app. simpl.
    by apply vadd_vscale.
Qed.

(** X10. When all the control points of a valid curve are one point [P]
    and the basis values sum to 1, over scalars with 0·x = 0, 1·x = x and
    a·x + b·x = (a + b)·x, [curvePoint] returns [P]. *)
Theorem curvePoint_of_coinciding_points (u : T) (degree : nat)
    (knots : list T) (P : list T) (n : nat) :
  combination_laws →
  isValidRelation degree (length knots) n = true →
  span_valid BP degree knots u →
  basis_shape BP degree knots u →
  basis_sums_to_one BP degree knots u →
  curvePoint BP (length P) u degree knots (replicate n P) = Some P.
Proof.
  intros Hlaws Hrel%bool_decide_eq_true_1 Hspan HN Hsum.
  unfold span_valid in Hspan. unfold basis_shape in HN.
  unfold basis_sums_to_one in Hsum.
  rewrite curvePoint_weighted_sum by (rewrite ?length_replicate; lia || done).
  f_equal.
  set (span := findSpan BP degree knots u) in *.
  set (N := bsplineBasis BP degree span knots u) in *.
  rewrite (weighted_sum_ext _ _ (coef N) _ (λ _, P) _ (λ _ _, eq_refl)).
  - rewrite weighted_sum_const by (done || lia).
    replace (Z.of_nat degree + 1) with (Z.of_nat (length N)) by lia.
    rewrite foldl_coef, Hsum. apply vscale_one. apply Hlaws.
  - intros j Hj. unfold entry. by rewrite at_replicate by lia.
Qed.

(** X11. When all the control points of a valid surface are one point [P]
    and the basis values sum to 1 in both directions, over the same
    scalars, [surfacePoint] returns [P]. *)
Theorem surfacePoint_of_coinciding_points (u v : T)
    (degree_u degree_v : nat) (knots_u knots_v : list T) (P : list T)
    (nu nv : nat) :
  combination_laws →
  isValidRelation degree_u (length knots_u) nu = true →
  isValidRelation degree_v (length knots_v) nv = true →
  span_valid BP degree_u knots_u u →
  span_valid BP degree_v knots_v v →
  basis_shape BP degree_u knots_u u →
  basis_shape BP degree_v knots_v v →
  basis_sums_to_one BP degree_u knots_u u →
  basis_sums_to_one BP degree_v knots_v v →
  surfacePoint BP (length P) u v degree_u degree_v knots_u knots_v
    (replicate nu (replicate nv P)) = Some P.
Proof.
  intros Hlaws Hru%bool_decide_eq_true_1 Hrv%bool_decide_eq_true_1
    Hsu Hsv HNu HNv Hsum_u Hsum_v.
  unfold span_valid in Hsu, Hsv. unfold basis_shape in HNu, HNv.
  unfold basis_sums_to_one in Hsum_u, Hsum_v.
  rewrite (surfacePoint_weighted_sum BP _ u v degree_u degree_v
             knots_u knots_v _ nu nv (table_shape_replicate nu nv P))
    by (lia || done).
  f_equal.
  set (span_u := findSpan BP degree_u knots_u u) in *.
  set (span_v := findSpan BP degree_v knots_v v) in *.
  set (Nu := bsplineBasis BP degree_u span_u knots_u u) in *.
  set (Nv := bsplineBasis BP degree_v span_v knots_v v) in *.
  assert (Hone : ∀ N : list T, foldl sadd s0 N = s1 →
            ∀ d, Z.of_nat (length N) = d →
            weighted_sum (length P) (coef N) (λ _, P) d = P).
  { intros N HsumN d <-. rewrite weighted_sum_const by (done || lia).
    rewrite foldl_coef, HsumN. apply vscale_one. apply Hlaws. }
  rewrite (weighted_sum_ext _ _ (coef Nv) _ (λ _, P) _ (λ _ _, eq_refl)).
  - apply Hone; [done|lia].
  - intros l Hl.
    rewrite (weighted_sum_ext _ _ (coef Nu) _ (λ _, P) _ (λ _ _, eq_refl)).
    + apply Hone; [done|lia].
    + intros k Hk. unfold entry2, entry.
      rewrite at_replicate by lia. simpl. by rewrite at_replicate by lia.
Qed.
(** *** The rational surface evaluators at order (0,0) *)

Lemma lift_grid_push_closed_form (control_points : list (list (list T)))
    (weights : list (list T)) (nu nv : nat) :
  table_shape control_points nu nv →
  table_shape weights nu nv →
  lift_grid_push control_points weights
  = Some (lifted_grid control_points weights nu nv).
Proof.
  intros Hcp Hwt. pose proof Hcp as [Hnu _]. unfold lift_grid_push.
  rewrite Hnu.
  set (cell := λ i j, cartesianToHomogenous (entry2 control_points i j)
                        (coef (entry weights i) j)).
  match goal with |- context [for_lt 0 _ ?body ?s0] =>
    destruct (for_lt_inv
      (λ i (Cw : list (list (list T))),
         length Cw = nu
         ∧ (∀ i', 0 ≤ i' < i →
              at_ Cw i' = Some (map (cell i') (seqZ 0 (Z.of_nat nv))))
         ∧ (∀ i', i ≤ i' < Z.of_nat nu → at_ Cw i' = Some []))
      0 (Z.of_nat nu) body s0) as (Cw & -> & HL & Hdone & _)
  end.
  { lia. }
  { split; [apply length_replicate|]. split; [intros; lia|].
    intros i' Hi'. apply at_replicate. lia. }
  { intros i Cw Hi (HL & Hdone & Hrest).
    destruct (table_shape_at control_points nu nv 0 Hcp)
      as (row0 & Erow0 & Lrow0); [lia|].
    rewrite Erow0. simpl. rewrite Lrow0.
    exists (upd Cw i (map (cell i) (seqZ 0 (Z.of_nat nv)))). split.
    - assert (ECw : Cw = upd Cw i []).
      { unfold upd. symmetry. apply list_insert_id.
        rewrite <- at_lookup by lia. apply Hrest. lia. }
      rewrite ECw at 1.
      rewrite (for_lt_cell (upd Cw i) (λ row j, row ++ [cell i j]));
        [|lia|].
      + rewrite Z.sub_0_r. do 2 f_equal.
        exact (foldl_snoc_from (cell i) _ []).
      + intros j row Hj.
        rewrite (at2_entry control_points _ _ _ _ Hcp) by lia. simpl.
        rewrite (at2_coef weights _ _ i j Hwt) by lia. simpl.
        rewrite at_upd by lia. rewrite decide_True by done. simpl.
        rewrite set_at_upd by (rewrite length_upd; lia).
        by rewrite upd_upd.
    - split; [by rewrite length_upd|]. split.
      + intros i' Hi'. rewrite at_upd by lia.
        case_decide; [by subst|]. apply Hdone. lia.
      + intros i' Hi'. rewrite at_upd by lia.
        rewrite decide_False by lia. apply Hrest. lia. }
  f_equal. apply list_eq_map_seqZ; [lia|]. intros i Hi. by apply Hdone.
Qed.

Lemma lift_grid_assign_closed_form (indet : T) (dim : nat)
    (control_points : list (list (list T))) (weights : list (list T))
    (nu nv : nat) :
  table_shape control_points nu nv →
  table_shape weights nu nv →
  lift_grid_assign indet dim control_points weights
  = Some (lifted_grid control_points weights nu nv).
Proof.
  intros Hcp Hwt. pose proof Hcp as [Hnu _]. unfold lift_grid_assign.
  rewrite Hnu.
  set (cell := λ i j, cartesianToHomogenous (entry2 control_points i j)
                        (coef (entry weights i) j)).
  match goal with |- context [for_lt 0 _ ?body ?s0] =>
    destruct (for_lt_inv
      (λ i (hc : list (list (list T))),
         length hc = nu
         ∧ (∀ i', 0 ≤ i' < i →
              at_ hc i' = Some (map (cell i') (seqZ 0 (Z.of_nat nv))))
         ∧ (∀ i', i ≤ i' < Z.of_nat nu → at_ hc i' = Some []))
      0 (Z.of_nat nu) body s0) as (hc & -> & HL & Hdone & _)
  end.
  { lia. }
  { split; [apply length_replicate|]. split; [intros; lia|].
    intros i' Hi'. apply at_replicate. lia. }
  { intros i hc Hi (HL & Hdone & Hrest).
    destruct (table_shape_at control_points nu nv 0 Hcp)
      as (row0 & Erow0 & Lrow0); [lia|].
    rewrite Erow0. simpl. rewrite Hrest by lia. simpl.
    rewrite set_at_upd by lia. simpl. rewrite resize_nil, Lrow0.
    set (hc1 := upd hc i (replicate nv (vdefault indet (dim + 1)))).
    destruct (for_lt_inv
      (λ j (st : list (list (list T))),
         length st = nu
         ∧ (∃ row, at_ st i = Some row ∧ length row = nv
                   ∧ ∀ j', 0 ≤ j' < j → at_ row j' = Some (cell i j'))
         ∧ (∀ i', i' ≠ i → at_ st i' = at_ hc i'))
      0 (Z.of_nat nv)
      (λ j homo_cp,
         P ← at2 control_points i j;
         w ← at2 weights i j;
         set_at2 homo_cp i j (cartesianToHomogenous P w)) hc1)
      as (hc2 & -> & HL2 & (row & Erow & Lrow & Crow) & Hother).
    { lia. }
    { split; [unfold hc1; by rewrite length_upd|]. split.
      - exists (replicate nv (vdefault indet (dim + 1))).
        unfold hc1. rewrite at_upd by lia. rewrite decide_True by done.
        split; [done|]. split; [apply length_replicate|]. intros; lia.
      - intros i' Hi'. unfold hc1. rewrite at_upd by lia.
        by rewrite decide_False. }
    { intros j st Hj (HLs & (row & Erow & Lrow & Crow) & Hother).
      rewrite (at2_entry control_points _ _ _ _ Hcp) by lia. simpl.
      rewrite (at2_coef weights _ _ i j Hwt) by lia. simpl.
      rewrite (set_at2_upd2 _ _ _ _ row) by (done || lia).
      eexists. split; [done|]. split; [by rewrite length_upd2|]. split.
      - eexists. rewrite (at_upd2 _ _ _ _ row) by done.
        rewrite decide_True by done. split; [done|].
        split; [by rewrite length_upd|].
        intros j' Hj'. rewrite at_upd by lia.
        case_decide; [by subst|]. apply Crow. lia.
      - intros i' Hi'. rewrite (at_upd2 _ _ _ _ row) by done.
        rewrite decide_False by done. by apply Hother. }
    exists hc2. split; [done|]. split; [done|]. split.
    - intros i' Hi'. destruct (decide (i' = i)) as [->|Hne].
      + rewrite Erow. f_equal. apply list_eq_map_seqZ; [lia|done].
      + rewrite Hother by done. apply Hdone. lia.
    - intros i' Hi'. rewrite Hother by lia. apply Hrest. lia. }
  f_equal. apply list_eq_map_seqZ; [lia|]. intros i Hi. by apply Hdone.
Qed.

Lemma lifted_grid_shape (control_points : list (list (list T)))
    (weights : list (list T)) (nu nv : nat) :
  table_shape (lifted_grid control_points weights nu nv) nu nv.
Proof.
  unfold lifted_grid. split.
  - rewrite length_map, length_seqZ. lia.
  - apply Forall_map. apply Forall_forall. intros i _. simpl.
    rewrite length_map, length_seqZ. lia.
Qed.

(** [Aders] holds the truncated homogeneous derivatives. *)
Lemma truncate_ders_entries (indet : T) (dim : nat) (num_ders : Z)
    (homo_ders : list (list (list T))) :
  0 ≤ num_ders →
  table_shape homo_ders (Z.to_nat (num_ders + 1)) (Z.to_nat (num_ders + 1)) →
  ∃ Aders,
    truncate_ders indet dim num_ders homo_ders = Some Aders
    ∧ ∀ i j, 0 ≤ i ≤ num_ders → 0 ≤ j ≤ num_ders →
        at2 Aders i j = Some (truncateHomogenous (entry2 homo_ders i j)).
Proof.
  intros Hnd Hh. pose proof Hh as [Hlen _]. unfold truncate_ders.
  rewrite Hlen. set (n1 := Z.to_nat (num_ders + 1)) in *.
  set (cell := λ i j, truncateHomogenous (entry2 homo_ders i j)).
  match goal with |- context [for_lt 0 _ ?body ?s0] =>
    destruct (for_lt_inv
      (λ i (A : list (list (list T))),
         length A = n1
         ∧ (∀ i' j, 0 ≤ i' < i → 0 ≤ j < Z.of_nat n1 →
              at2 A i' j = Some (cell i' j))
         ∧ (∀ i', i ≤ i' < Z.of_nat n1 → at_ A i' = Some []))
      0 (Z.of_nat n1) body s0) as (A & E & HL & Hdone & _)
  end.
  { lia. }
  { split; [apply length_replicate|]. split; [intros; lia|].
    intros i' Hi'. apply at_replicate. lia. }
  { intros i A Hi (HL & Hdone & Hrest).
    rewrite Hrest by lia. simpl. rewrite set_at_upd by lia. simpl.
    rewrite resize_nil.
    destruct (table_shape_at homo_ders n1 n1 0 Hh)
      as (row0 & Erow0 & Lrow0); [lia|].
    rewrite Erow0. simpl. rewrite Lrow0.
    set (A1 := upd A i (replicate n1 (vdefault indet dim))).
    destruct (for_lt_inv
      (λ j (st : list (list (list T))),
         length st = n1
         ∧ (∃ row, at_ st i = Some row ∧ length row = n1
                   ∧ ∀ j', 0 ≤ j' < j → at_ row j' = Some (cell i j'))
         ∧ (∀ i', i' ≠ i → at_ st i' = at_ A i'))
      0 (Z.of_nat n1)
      (λ j Aders,
         h ← at2 homo_ders i j;
         set_at2 Aders i j (truncateHomogenous h)) A1)
      as (A2 & E2 & HL2 & (row & Erow & Lrow & Crow) & Hother).
    { lia. }
    { split; [unfold A1; by rewrite length_upd|]. split.
      - exists (replicate n1 (vdefault indet dim)).
        unfold A1. rewrite at_upd by lia. rewrite decide_True by done.
        split; [done|]. split; [apply length_replicate|]. intros; lia.
      - intros i' Hi'. unfold A1. rewrite at_upd by lia.
        by rewrite decide_False. }
    { intros j st Hj (HLs & (row & Erow & Lrow & Crow) & Hother).
      rewrite (at2_entry homo_ders _ _ _ _ Hh) by lia. simpl.
      rewrite (set_at2_upd2 _ _ _ _ row) by (done || lia).
      eexists. split; [done|]. split; [by rewrite length_upd2|]. split.
      - eexists. rewrite (at_upd2 _ _ _ _ row) by done.
        rewrite decide_True by done. split; [done|].
        split; [by rewrite length_upd|].
        intros j' Hj'. rewrite at_upd by lia.
        case_decide; [by subst|]. apply Crow. lia.
      - intros i' Hi'. rewrite (at_upd2 _ _ _ _ row) by done.
        rewrite decide_False by done. by apply Hother. }
    exists A2. split; [done|]. split; [done|]. split.
    - intros i' j Hi' Hj. destruct (decide (i' = i)) as [->|Hne].
      + unfold at2. rewrite Erow. simpl. apply Crow. lia.
      + unfold at2. rewrite Hother by done. apply (Hdone i' j); lia.
    - intros i' Hi'. rewrite Hother by lia. apply Hrest. lia. }
  exists A. split; [done|]. intros i j Hi Hj. apply Hdone; lia.
Qed.
Lemma rational_entry_00 (dim : nat)
    (homo_ders Aders surf_ders : list (list (list T))) (A : list T)
    (w : T) :
  at2 Aders 0 0 = Some A →
  at3 homo_ders 0 0 (Z.of_nat dim) = Some w →
  rational_entry dim homo_ders Aders surf_ders 0 0
  = Some (vscale_r A (sdiv (s_of_Z 1) w)).
Proof.
  intros EA Ew. unfold rational_entry. rewrite EA. simpl.
  by rewrite Ew.
Qed.

Lemma last_at (v : list T) (n : nat) (x : T) :
  length v = (n + 1)%nat → at_ v (Z.of_nat n) = Some x →
  list.last v = Some x.
Proof.
  intros Hlen E. rewrite at_lookup, Nat2Z.id in E by lia.
  rewrite last_lookup. rewrite Hlen.
  by replace (Nat.pred (n + 1)) with n by lia.
Qed.

(** The entry (0,0) of [rationalSurfaceDerivatives]: the cartesian part of
    the homogeneous surface point, times the reciprocal of its weight. *)
Lemma rationalSurfaceDerivatives_order00 (indet : T) (dim : nat) (u v : T)
    (degree_u degree_v : nat) (knots_u knots_v : list T)
    (control_points : list (list (list T))) (weights : list (list T))
    (num_ders : Z) (surf_ders : list (list (list T))) (nv : nat) :
  0 ≤ num_ders →
  table_shape control_points (length control_points) nv →
  table_shape weights (length control_points) nv →
  grid_dim dim control_points →
  isValidRelation degree_u (length knots_u) (length control_points) = true →
  isValidRelation degree_v (length knots_v) nv = true →
  span_valid BP degree_u knots_u u →
  span_valid BP degree_v knots_v v →
  ders_shape BP degree_u knots_u u num_ders →
  ders_shape BP degree_v knots_v v num_ders →
  ders_row0_is_basis BP degree_u knots_u u num_ders →
  ders_row0_is_basis BP degree_v knots_v v num_ders →
  ∃ tbl pointw w00,
    rationalSurfaceDerivatives indet BP dim u v degree_u degree_v
      knots_u knots_v control_points weights num_ders surf_ders = Some tbl
    ∧ surfacePoint BP (dim + 1) u v degree_u degree_v knots_u knots_v
        (lifted_grid control_points weights (length control_points) nv)
      = Some pointw
    ∧ list.last pointw = Some w00
    ∧ at2 tbl 0 0
      = Some (vscale_r (truncateHomogenous pointw)
                (sdiv (s_of_Z 1) w00)).
Proof.
  intros Hnd Hcp Hwt Hdim Hru Hrv Hsu Hsv Hdu Hdv Hrow_u Hrow_v.
  unfold rationalSurfaceDerivatives.
  destruct (lift_grid_assign_shape indet dim control_points weights _ nv
              Hcp Hwt Hdim) as (homo_cp & Elift & Hhc & Hhd).
  rewrite Elift.
  rewrite (lift_grid_assign_closed_form indet dim control_points weights
             _ nv Hcp Hwt) in Elift.
  injection Elift as <-.
  set (homo_cp := lifted_grid control_points weights
                    (length control_points) nv) in *.
  simpl.
  assert (Hgrid : grid_valid degree_u degree_v knots_u knots_v homo_cp).
  { exists nv. destruct Hhc as [Hlen Hrows]. rewrite Hlen.
    by repeat split. }
  destruct (surfaceDerivatives_entries indet BP (dim + 1) u v
              degree_u degree_v knots_u knots_v homo_cp num_ders)
    as (homo_ders & Eders & Hhs & Hh); [done..|].
  destruct (surfaceDerivatives_order00 indet (dim + 1) u v
              degree_u degree_v knots_u knots_v homo_cp num_ders)
    as (homo_ders' & Eders' & H00); [done..|].
  rewrite Eders in Eders'. injection Eders' as <-.
  destruct (surfaceDerivatives_table indet BP (dim + 1) u v
              degree_u degree_v knots_u knots_v homo_cp num_ders)
    as (homo_ders' & Eders' & _ & Htbl); [done..|].
  rewrite Eders in Eders'. injection Eders' as <-.
  rewrite Eders. simpl.
  destruct (truncate_ders_entries indet dim num_ders homo_ders Hnd Hhs)
    as (Aders & -> & HA).
  simpl.
  destruct (at2 homo_ders 0 0) as [pointw|] eqn:Epw;
    [|by destruct (Hh 0 0 0 ltac:(lia) ltac:(lia) ltac:(lia)) as [? E0];
        unfold at3 in E0; rewrite Epw in E0].
  assert (Hlenpw : length pointw = (dim + 1)%nat).
  { specialize (Htbl 0 0 ltac:(lia) ltac:(lia)). rewrite Epw in Htbl.
    injection Htbl as ->.
    rewrite decide_True by (unfold surf_computed; lia).
    destruct Hgrid as (nv' & Hcp' & Hru'%bool_decide_eq_true_1
                          & Hrv'%bool_decide_eq_true_1).
    unfold span_valid in Hsu, Hsv.
    unfold surf_der_sum. apply length_weighted_sum.
    intros s Hs. unfold surf_temp_sum. apply length_weighted_sum.
    intros r Hr.
    apply (entry2_length (dim + 1) homo_cp (length homo_cp) nv');
      (done || lia). }
  destruct (Hh 0 0 (Z.of_nat dim)) as [w00 Ew00]; [lia..|].
  assert (Elast : list.last pointw = Some w00).
  { apply (last_at _ dim); [done|]. unfold at3 in Ew00.
    by rewrite Epw in Ew00. }
  set (X := vscale_r (truncateHomogenous pointw) (sdiv (s_of_Z 1) w00)).
  assert (HA00 : at2 Aders 0 0 = Some (truncateHomogenous pointw)).
  { rewrite HA by lia. unfold entry2. unfold at2 in Epw.
    destruct (at_ homo_ders 0) as [row|] eqn:Erow; [|done]. simpl in Epw.
    unfold entry. rewrite Erow. simpl. by rewrite Epw. }
  set (n1 := Z.to_nat (num_ders + 1)) in *.
  set (sd0 := resize n1 [] surf_ders).
  assert (Hlen0 : length sd0 = n1) by apply length_resize.
  assert (HA' : ∀ i j, 0 ≤ i ≤ num_ders → 0 ≤ j ≤ num_ders →
            is_Some (at2 Aders i j)).
  { intros i j Hi Hj. by rewrite HA by lia. }
  assert (Hh' : ∀ i j, 0 ≤ i ≤ num_ders → 0 ≤ j ≤ num_ders →
            is_Some (at3 homo_ders i j (Z.of_nat dim))).
  { intros i j Hi Hj. apply Hh; lia. }
  match goal with |- context [for_lt 0 _ ?body sd0] =>
    destruct (for_lt_inv
      (λ k (sd : list (list (list T))),
         length sd = n1
         ∧ (∀ i j, 0 ≤ i < k → 0 ≤ j ≤ num_ders → is_Some (at2 sd i j))
         ∧ (0 < k → at2 sd 0 0 = Some X)
         ∧ (∀ i, k ≤ i ≤ num_ders → at_ sd i = at_ sd0 i))
      0 (num_ders + 1) body sd0) as (tbl & E & HL & _ & H00' & _)
  end.
  { lia. }
  { split; [done|]. repeat split; intros; (done || lia). }
  { intros k sd Hk (HL & Hsome & Hkeep & Hrest).
    destruct (at_is_Some sd0 k) as [rowk Erowk]; [lia|].
    rewrite Hrest by lia. rewrite Erowk. simpl.
    rewrite set_at_upd by lia. simpl.
    set (sd1 := upd sd k (resize n1 (vdefault indet dim) rowk)).
    destruct (for_lt_inv
      (λ l (st : list (list (list T))),
         length st = n1
         ∧ (∀ i j, 0 ≤ i ≤ k → 0 ≤ j ≤ num_ders → is_Some (at2 st i j))
         ∧ (0 < k ∨ 0 < l → at2 st 0 0 = Some X)
         ∧ (∀ i, k < i ≤ num_ders → at_ st i = at_ sd0 i))
      0 (num_ders - k + 1)
      (λ l surf_ders,
         der ← rational_entry dim homo_ders Aders surf_ders k l;
         set_at2 surf_ders k l der) sd1)
      as (sd2 & E2 & HL2 & Hsome2 & Hkeep2 & Hrest2).
    { lia. }
    { assert (Hsd1 : ∀ i j, at2 sd1 i j
                = if decide (i = k)
                  then at_ (resize n1 (vdefault indet dim) rowk) j
                  else at2 sd i j).
      { intros i j. unfold at2, sd1. rewrite at_upd by lia.
        by case_decide. }
      split; [unfold sd1; by rewrite length_upd|]. split; [|split].
      - intros i j Hi Hj. rewrite Hsd1. case_decide.
        + apply at_is_Some. rewrite length_resize. lia.
        + apply Hsome; lia.
      - intros [Hk0|Hl0]; [|lia]. rewrite Hsd1.
        rewrite decide_False by lia. by apply Hkeep.
      - intros i Hi. unfold sd1. rewrite at_upd by lia.
        rewrite decide_False by lia. apply Hrest. lia. }
    { intros l st Hl (HLs & Hsomes & Hkeeps & Hrests).
      destruct (rational_entry_is_Some dim num_ders homo_ders Aders st k l)
        as [der Eder]; [lia..|done|done|done|].
      rewrite Eder. simpl.
      destruct (at2_is_Some_row st k l) as (row & Erow & Lrow);
        [apply Hsomes; lia|].
      rewrite (set_at2_upd2 _ _ _ _ row) by done.
      eexists. split; [done|].
      assert (Hst : ∀ i j, at2 (upd2 st k l der) i j
                = if decide (i = k ∧ j = l) then Some der else at2 st i j).
      { intros i j. by apply (at2_upd2 _ _ _ _ row). }
      split; [by rewrite length_upd2|]. split; [|split].
      - intros i j Hi Hj. rewrite Hst. case_decide; [by eexists|].
        by apply Hsomes.
      - intros _. rewrite Hst. case_decide as Hkl.
        + destruct Hkl as [<- <-].
          rewrite (rational_entry_00 dim homo_ders Aders st
                     (truncateHomogenous pointw) w00 HA00 Ew00) in Eder.
          by injection Eder as <-.
        + apply Hkeeps. lia.
      - intros i Hi. rewrite (at_upd2 _ _ _ _ row) by done.
        rewrite decide_False by lia. by apply Hrests. }
    exists sd2. split; [done|]. split; [done|]. split; [|split].
    - intros i j Hi Hj. apply Hsome2; lia.
    - intros _. apply Hkeep2. lia.
    - intros i Hi. apply Hrest2. lia. }
  exists tbl, pointw, w00. split; [done|]. split; [by rewrite <- H00|].
  split; [done|]. apply H00'. lia.
Qed.

(** X12. On a valid rational surface, for [num_ders >= 0] and whatever
    table the caller passes in, when row 0 of the basis derivatives is the
    vector of basis values in both directions and multiplying by [1 / w] is
    dividing by [w], the entry (0,0) of [rationalSurfaceDerivatives] is the
    point [rationalSurfacePoint] returns. *)
Theorem rationalSurfaceDerivatives_order00_is_rationalSurfacePoint
    (indet : T) (dim : nat) (u v : T) (degree_u degree_v : nat)
    (knots_u knots_v : list T) (control_points : list (list (list T)))
    (weights : list (list T)) (num_ders : Z)
    (surf_ders : list (list (list T))) (nv : nat) :
  reciprocal_law →
  0 ≤ num_ders →
  table_shape control_points (length control_points) nv →
  table_shape weights (length control_points) nv →
  grid_dim dim control_points →
  isValidRelation degree_u (length knots_u) (length control_points) = true →
  isValidRelation degree_v (length knots_v) nv = true →
  span_valid BP degree_u knots_u u →
  span_valid BP degree_v knots_v v →
  ders_shape BP degree_u knots_u u num_ders →
  ders_shape BP degree_v knots_v v num_ders →
  ders_row0_is_basis BP degree_u knots_u u num_ders →
  ders_row0_is_basis BP degree_v knots_v v num_ders →
  ∃ tbl,
    rationalSurfaceDerivatives indet BP dim u v degree_u degree_v
      knots_u knots_v control_points weights num_ders surf_ders = Some tbl
    ∧ at2 tbl 0 0
      = rationalSurfacePoint BP dim u v degree_u degree_v knots_u knots_v
          control_points weights.
Proof.
  intros Hrec Hnd Hcp Hwt Hdim Hru Hrv Hsu Hsv Hdu Hdv Hrow_u Hrow_v.
  destruct (rationalSurfaceDerivatives_order00 indet dim u v
              degree_u degree_v knots_u knots_v control_points weights
              num_ders surf_ders nv) as (tbl & pointw & w00 & E & Epw
                                         & Elast & E00); [done..|].
  exists tbl. split; [done|]. rewrite E00.
  unfold rationalSurfacePoint.
  rewrite (lift_grid_push_closed_form control_points weights _ nv Hcp Hwt).
  simpl. rewrite Epw. simpl. f_equal.
  unfold homogenousToCartesian. rewrite Elast. simpl.
  unfold vscale_r, vdiv. apply map_ext. intros x. apply Hrec.
Qed.
(** *** A common factor of the weights *)

Lemma cartesianToHomogenous_scaled (c : T) (P : list T) (w : T) :
  (∀ w x : T, smul (smul c w) x = smul c (smul w x)) →
  cartesianToHomogenous P (smul c w)
  = vscale c (cartesianToHomogenous P w).
Proof.
  intros L1. unfold cartesianToHomogenous, vscale.
  rewrite map_app, map_map. simpl. f_equal.
  apply map_ext. intros x. apply L1.
Qed.

Lemma vadd_vscale_scaled (c n : T) (x Q : list T) :
  (∀ n x : T, smul n (smul c x) = smul c (smul n x)) →
  (∀ a b : T, sadd (smul c a) (smul c b) = smul c (sadd a b)) →
  vadd (vscale c x) (vscale n (vscale c Q))
  = vscale c (vadd x (vscale n Q)).
Proof.
  intros L2 L3. unfold vadd, vscale. revert Q.
  induction x as [|a x IH]; intros [|q Q]; simpl; try done.
  by rewrite L2, L3, IH.
Qed.

Lemma weighted_sum_scaled (c : T) (dim : nat) (coefs : Z → T)
    (Q : Z → list T) (n : Z) :
  (∀ n x : T, smul n (smul c x) = smul c (smul n x)) →
  (∀ a b : T, sadd (smul c a) (smul c b) = smul c (sadd a b)) →
  smul c s0 = s0 →
  weighted_sum dim coefs (λ j, vscale c (Q j)) n
  = vscale c (weighted_sum dim coefs Q n).
Proof.
  intros L2 L3 L4. unfold weighted_sum.
  destruct (decide (0 ≤ n)) as [Hn|Hn].
  - apply (foldl_seqZ_inv (λ k x,
      x = vscale c (foldl (λ acc j, vadd acc (vscale (coefs j) (Q j)))
                      (vzero dim) (seqZ 0 k)))); [done| |].
    + simpl. unfold vscale, vzero. induction dim as [|d IH]; [done|].
      simpl. by rewrite L4, <- IH.
    + intros k x Hk ->. rewrite seqZ_app by lia. rewrite foldl_app. simpl.
      by apply vadd_vscale_scaled.
  - unfold seqZ. replace (Z.to_nat n) with O by lia. simpl.
    unfold vscale, vzero. induction dim as [|d IH]; [done|].
    simpl. by rewrite L4, <- IH.
Qed.

Lemma homogenousToCartesian_scaled (c : T) (v : list T) :
  (∀ a b : T, sdiv (smul c a) (smul c b) = sdiv a b) →
  homogenousToCartesian (vscale c v) = homogenousToCartesian v.
Proof.
  intros L5. unfold homogenousToCartesian, truncateHomogenous, vscale.
  rewrite length_map. change (map (smul c) v) with (smul c <$> v).
  rewrite <- fmap_take, fmap_last.
  destruct (list.last v) as [w|] eqn:Ew.
  - simpl. unfold vdiv. change (smul c <$> take (length v - 1) v)
      with (map (smul c) (take (length v - 1) v)).
    rewrite map_map. apply map_ext. intros a. apply L5.
  - apply last_None in Ew. by subst v.
Qed.

(** X13. The weights of a rational curve are homogeneous: on a valid curve
    with one weight per control point, multiplying every weight by a factor
    [c] that cancels in the arithmetic of [T] does not change the point
    [rationalCurvePoint] returns. *)
Theorem rationalCurvePoint_common_weight_factor (c : T) (dim : nat) (u : T)
    (degree : nat) (knots : list T) (control_points : list (list T))
    (weights : list T) :
  scaling_laws c →
  length weights = length control_points →
  isValidRelation degree (length knots) (length control_points) = true →
  span_valid BP degree knots u →
  basis_shape BP degree knots u →
  rationalCurvePoint BP dim u degree knots control_points
    (map (smul c) weights)
  = rationalCurvePoint BP dim u degree knots control_points weights.
Proof.
  intros (L1 & L2 & L3 & L4 & L5) Hlen Hrel%bool_decide_eq_true_1 Hspan HN.
  unfold span_valid in Hspan. unfold basis_shape in HN.
  unfold rationalCurvePoint.
  rewrite !lift_curve_closed_form by (rewrite ?length_map; lia).
  simpl.
  set (Cw := map (λ i, cartesianToHomogenous (entry control_points i)
                         (coef weights i))
                 (seqZ 0 (Z.of_nat (length control_points)))).
  assert (HCw : map (λ i, cartesianToHomogenous (entry control_points i)
                            (coef (map (smul c) weights) i))
                    (seqZ 0 (Z.of_nat (length control_points)))
                = map (vscale c) Cw).
  { unfold Cw. rewrite map_map. apply map_ext_in.
    intros i Hi%list_elem_of_In%elem_of_seqZ.
    rewrite <- cartesianToHomogenous_scaled by done. f_equal.
    unfold coef. rewrite at_map.
    by destruct (at_is_Some weights i ltac:(lia)) as [w ->]. }
  rewrite HCw.
  assert (HlenCw : length Cw = length control_points).
  { unfold Cw. rewrite length_map, length_seqZ. lia. }
  rewrite !curvePoint_weighted_sum
    by (rewrite ?length_map, ?HlenCw; lia || done).
  simpl. f_equal.
  set (span := findSpan BP degree knots u) in *.
  set (N := bsplineBasis BP degree span knots u) in *.
  rewrite (weighted_sum_ext (dim + 1) _ (coef N) _
             (λ j, vscale c (entry Cw (span - Z.of_nat degree + j)))
             _ (λ _ _, eq_refl)).
  - rewrite weighted_sum_scaled by done.
    by apply homogenousToCartesian_scaled.
  - intros j Hj. apply (entry_map (vscale c)). lia.
Qed.

Lemma entry2_lifted_grid (control_points : list (list (list T)))
    (weights : list (list T)) (nu nv : nat) (i j : Z) :
  0 ≤ i < Z.of_nat nu → 0 ≤ j < Z.of_nat nv →
  entry2 (lifted_grid control_points weights nu nv) i j
  = cartesianToHomogenous (entry2 control_points i j)
      (coef (entry weights i) j).
Proof.
  intros Hi Hj. unfold entry2 at 1, lifted_grid, entry at 1 2.
  rewrite at_map, at_seqZ by done. simpl.
  by rewrite at_map, at_seqZ by done.
Qed.

Lemma coef_entry_scaled (c : T) (weights : list (list T)) (nu nv : nat)
    (i j : Z) :
  table_shape weights nu nv →
  0 ≤ i < Z.of_nat nu → 0 ≤ j < Z.of_nat nv →
  coef (entry (map (map (smul c)) weights) i) j
  = smul c (coef (entry weights i) j).
Proof.
  intros Hwt Hi Hj.
  destruct (table_shape_at weights nu nv i Hwt Hi) as (row & E & L).
  unfold entry, coef. rewrite at_map, E. simpl. rewrite at_map.
  by destruct (at_is_Some row j ltac:(lia)) as [w ->].
Qed.

Lemma table_shape_map {A B : Type} (f : A → B) (m : list (list A))
    (r c : nat) :
  table_shape m r c → table_shape (map (map f) m) r c.
Proof.
  intros [Hr Hc]. split; [by rewrite length_map|].
  apply Forall_map. revert Hc. apply Forall_impl.
  intros row Hrow. simpl. by rewrite length_map.
Qed.

(** X14. The weights of a rational surface are homogeneous: on a valid
    surface with one weight per control point, multiplying every weight by
    a factor [c] that cancels in the arithmetic of [T] does not change the
    point [rationalSurfacePoint] returns. *)
Theorem rationalSurfacePoint_common_weight_factor (c : T) (dim : nat)
    (u v : T) (degree_u degree_v : nat) (knots_u knots_v : list T)
    (control_points : list (list (list T))) (weights : list (list T))
    (nv : nat) :
  scaling_laws c →
  table_shape control_points (length control_points) nv →
  table_shape weights (length control_points) nv →
  isValidRelation degree_u (length knots_u) (length control_points) = true →
  isValidRelation degree_v (length knots_v) nv = true →
  span_valid BP degree_u knots_u u →
  span_valid BP degree_v knots_v v →
  basis_shape BP degree_u knots_u u →
  basis_shape BP degree_v knots_v v →
  rationalSurfacePoint BP dim u v degree_u degree_v knots_u knots_v
    control_points (map (map (smul c)) weights)
  = rationalSurfacePoint BP dim u v degree_u degree_v knots_u knots_v
      control_points weights.
Proof.
  intros (L1 & L2 & L3 & L4 & L5) Hcp Hwt Hru%bool_decide_eq_true_1
    Hrv%bool_decide_eq_true_1 Hsu Hsv HNu HNv.
  unfold span_valid in Hsu, Hsv. unfold basis_shape in HNu, HNv.
  set (nu := length control_points) in *.
  unfold rationalSurfacePoint.
  rewrite (lift_grid_push_closed_form control_points
             (map (map (smul c)) weights) nu nv)
    by (done || by apply table_shape_map).
  rewrite (lift_grid_push_closed_form control_points weights nu nv)
    by done.
  simpl.
  rewrite !(surfacePoint_weighted_sum BP (dim + 1) u v degree_u degree_v
              knots_u knots_v _ nu nv)
    by (apply lifted_grid_shape || done || lia).
  simpl. f_equal.
  set (span_u := findSpan BP degree_u knots_u u) in *.
  set (span_v := findSpan BP degree_v knots_v v) in *.
  set (Nu := bsplineBasis BP degree_u span_u knots_u u) in *.
  set (Nv := bsplineBasis BP degree_v span_v knots_v v) in *.
  set (Cw := lifted_grid control_points weights nu nv).
  rewrite (weighted_sum_ext (dim + 1) _ (coef Nv) _
             (λ l, vscale c
                     (weighted_sum (dim + 1) (coef Nu)
                        (λ k, entry2 Cw (span_u - Z.of_nat degree_u + k)
                                (span_v - Z.of_nat degree_v + l))
                        (Z.of_nat degree_u + 1)))
             _ (λ _ _, eq_refl)).
  - rewrite weighted_sum_scaled by done.
    by apply homogenousToCartesian_scaled.
  - intros l Hl. rewrite <- weighted_sum_scaled by done.
    apply weighted_sum_ext; [done|]. intros k Hk. unfold Cw.
    rewrite !entry2_lifted_grid by lia.
    rewrite (coef_entry_scaled c weights nu nv) by (done || lia).
    by apply cartesianToHomogenous_scaled.
Qed.
End Further.

(** ** The premises of the further properties, on the concrete curve and
    surface *)

Lemma Qc_of_Z_1 : s_of_Z (T:=Qc) 1 = Q2Qc 1.
Proof. by apply Qc_this_inj. Qed.

Lemma Qc_combination_laws : combination_laws (T:=Qc).
Proof.
  repeat split; simpl.
  - apply Qcmult_0_l.
  - apply Qcmult_1_l.
  - intros a b x. symmetry. apply Qcmult_plus_distr_l.
Qed.

Lemma Qc_reciprocal_law : reciprocal_law (T:=Qc).
Proof.
  intros x w. rewrite Qc_of_Z_1. simpl. unfold Qcdiv.
  by rewrite Qcmult_1_l.
Qed.

Lemma Qc_scaling_laws : scaling_laws (qc 2 1).
Proof.
  repeat split; simpl.
  - intros w x. symmetry. apply Qcmult_assoc.
  - intros n x. ring.
  - intros a b. ring.
  - intros a b. destruct (decide (b = Q2Qc 0)) as [->|Hb].
    + unfold Qcdiv. replace (qc 2 1 * Q2Qc 0)%Qc with (Q2Qc 0) by ring.
      replace (/ Q2Qc 0)%Qc with (Q2Qc 0) by (by apply Qc_this_inj).
      ring.
    + field. split; [done|]. by intros [=].
Qed.

Lemma CoxDeBoor_valid_bezier2 (num_ders : Z) :
  num_ders = 3 →
  isValidRelation 2 (length knots_bezier2) 3 = true
  ∧ span_valid CoxDeBoor 2 knots_bezier2 (qc 1 2)
  ∧ basis_shape CoxDeBoor 2 knots_bezier2 (qc 1 2)
  ∧ basis_sums_to_one CoxDeBoor 2 knots_bezier2 (qc 1 2)
  ∧ ders_shape CoxDeBoor 2 knots_bezier2 (qc 1 2) num_ders
  ∧ ders_row0_is_basis CoxDeBoor 2 knots_bezier2 (qc 1 2) num_ders.
Proof.
  intros ->. split; [reflexivity|]. split; [by vm_compute|].
  split; [reflexivity|].
  split; [apply Qc_this_inj; vm_compute; reflexivity|].
  split; [|reflexivity].
  split; [reflexivity|]. vm_compute. repeat constructor.
Qed.

Lemma CoxDeBoor_valid_lin (num_ders : Z) :
  num_ders = 2 ∨ num_ders = 1 →
  isValidRelation 1 (length knots_lin) 2 = true
  ∧ span_valid CoxDeBoor 1 knots_lin (qc 1 2)
  ∧ basis_shape CoxDeBoor 1 knots_lin (qc 1 2)
  ∧ basis_sums_to_one CoxDeBoor 1 knots_lin (qc 1 2)
  ∧ ders_shape CoxDeBoor 1 knots_lin (qc 1 2) num_ders
  ∧ ders_row0_is_basis CoxDeBoor 1 knots_lin (qc 1 2) num_ders.
Proof.
  intros [-> | ->]; (split; [reflexivity|]); (split; [by vm_compute|]);
    (split; [reflexivity|]);
    (split; [apply Qc_this_inj; vm_compute; reflexivity|]);
    (split; [|reflexivity]);
    (split; [reflexivity|]); vm_compute; repeat constructor.
Qed.

Lemma grid_2x2_valid : grid_valid 1 1 knots_lin knots_lin grid_2x2.
Proof.
  exists 2%nat. split; [|split; reflexivity].
  split; [reflexivity|]. repeat constructor.
Qed.

Lemma grid_2x2_shape : table_shape grid_2x2 (length grid_2x2) 2.
Proof. split; [reflexivity|]. repeat constructor. Qed.

Lemma weights_2x2_shape : table_shape weights_2x2 (length grid_2x2) 2.
Proof. split; [reflexivity|]. repeat constructor. Qed.

Lemma grid_2x2_dim : grid_dim 2 grid_2x2.
Proof. repeat constructor. Qed.

Lemma surfacePoint_is_tensor_sum_witness :
  surfacePoint CoxDeBoor 2 (qc 1 2) (qc 1 2) 1 1 knots_lin knots_lin
    grid_2x2
  = Some
      (weighted_sum 2
         (coef (bsplineBasis CoxDeBoor 1
                  (findSpan CoxDeBoor 1 knots_lin (qc 1 2))
                  knots_lin (qc 1 2)))
         (λ l,
            weighted_sum 2
              (coef (bsplineBasis CoxDeBoor 1
                       (findSpan CoxDeBoor 1 knots_lin (qc 1 2))
                       knots_lin (qc 1 2)))
              (λ k,
                 entry2 grid_2x2
                   (findSpan CoxDeBoor 1 knots_lin (qc 1 2)
                    - Z.of_nat 1 + k)
                   (findSpan CoxDeBoor 1 knots_lin (qc 1 2)
                    - Z.of_nat 1 + l))
              (Z.of_nat 1 + 1))
         (Z.of_nat 1 + 1)).
Proof.
  destruct (CoxDeBoor_valid_lin 2) as (_ & Hs & HN & _); [by left|].
  exact (surfacePoint_is_tensor_sum CoxDeBoor 2 (qc 1 2) (qc 1 2) 1 1
           knots_lin knots_lin grid_2x2 grid_2x2_valid Hs Hs HN HN).
Defined.

Lemma curveDerivatives_ignores_default_storage_witness :
  curveDerivatives (qc 7 1) CoxDeBoor 2 (qc 1 2) 2 knots_bezier2 cps_arch 3
  = curveDerivatives (qc 0 1) CoxDeBoor 2 (qc 1 2) 2 knots_bezier2
      cps_arch 3
  ∧ is_Some (curveDerivatives (qc 7 1) CoxDeBoor 2 (qc 1 2) 2
               knots_bezier2 cps_arch 3).
Proof.
  destruct (CoxDeBoor_valid_bezier2 3 eq_refl)
    as (Hrel & Hs & _ & _ & Hd & _).
  by apply (curveDerivatives_ignores_default_storage CoxDeBoor).
Defined.

Lemma curveDerivatives_order0_is_curvePoint_witness :
  ∃ curve_ders,
    curveDerivatives (qc 7 1) CoxDeBoor 2 (qc 1 2) 2 knots_bezier2
      cps_arch 3 = Some curve_ders
    ∧ at_ curve_ders 0
      = curvePoint CoxDeBoor 2 (qc 1 2) 2 knots_bezier2 cps_arch.
Proof.
  destruct (CoxDeBoor_valid_bezier2 3 eq_refl)
    as (Hrel & Hs & _ & _ & Hd & Hr).
  by apply (curveDerivatives_order0_is_curvePoint CoxDeBoor).
Defined.

Lemma surfaceDerivatives_order00_is_surfacePoint_witness :
  ∃ surf_ders,
    surfaceDerivatives (qc 7 1) CoxDeBoor 2 (qc 1 2) (qc 1 2) 1 1
      knots_lin knots_lin grid_2x2 2 = Some surf_ders
    ∧ at2 surf_ders 0 0
      = surfacePoint CoxDeBoor 2 (qc 1 2) (qc 1 2) 1 1
          knots_lin knots_lin grid_2x2.
Proof.
  destruct (CoxDeBoor_valid_lin 2) as (_ & Hs & _ & _ & Hd & Hr);
    [by left|].
  apply (surfaceDerivatives_order00_is_surfacePoint CoxDeBoor);
    (done || lia || apply grid_2x2_valid).
Defined.

Lemma surfaceDerivatives_shape_and_zeros_witness :
  ∃ surf_ders,
    surfaceDerivatives (qc 7 1) CoxDeBoor 2 (qc 1 2) (qc 1 2) 1 1
      knots_lin knots_lin grid_2x2 2 = Some surf_ders
    ∧ table_shape surf_ders (Z.to_nat (2 + 1)) (Z.to_nat (2 + 1))
    ∧ ∀ k l, Z.of_nat 1 < k ≤ 2 → Z.of_nat 1 < l ≤ 2 →
             at2 surf_ders k l = Some (vzero 2).
Proof.
  destruct (CoxDeBoor_valid_lin 2) as (_ & Hs & _ & _ & Hd & _);
    [by left|].
  apply (surfaceDerivatives_shape_and_zeros CoxDeBoor);
    (done || lia || apply grid_2x2_valid).
Defined.

Lemma rationalSurfaceDerivatives_leaves_upper_triangle_witness :
  ∃ tbl,
    rationalSurfaceDerivatives (qc 5 1) CoxDeBoor 2 (qc 1 2) (qc 1 2) 1 1
      knots_lin knots_lin grid_2x2 weights_2x2 1 table_stale = Some tbl
    ∧ (∀ k l, 0 ≤ k ≤ 1 → 0 ≤ l ≤ 1 → 1 < k + l →
         at2 tbl k l = at2 (resized_table (qc 5 1) 2 1 table_stale) k l)
    ∧ (table_stale = [] →
       ∀ k l, 0 ≤ k ≤ 1 → 0 ≤ l ≤ 1 → 1 < k + l →
         at2 tbl k l = Some (vdefault (qc 5 1) 2)).
Proof.
  destruct (CoxDeBoor_valid_lin 1) as (Hrel & Hs & _ & _ & Hd & _);
    [by right|].
  apply (rationalSurfaceDerivatives_leaves_upper_triangle CoxDeBoor
           (qc 5 1) 2 (qc 1 2) (qc 1 2) 1 1 knots_lin knots_lin grid_2x2
           weights_2x2 1 table_stale 2);
    (done || lia || apply grid_2x2_shape || apply weights_2x2_shape
     || apply grid_2x2_dim).
Defined.

Lemma rational_curve_reads_one_weight_per_point_witness :
  rationalCurvePoint CoxDeBoor 2 (qc 1 2) 2 knots_bezier2 cps_arch
    [qc 1 1; qc 1 1] = None
  ∧ rationalCurvePoint CoxDeBoor 2 (qc 1 2) 2 knots_bezier2 cps_arch
      (take (length cps_arch) [qc 1 1; qc 2 1; qc 1 1; qc 9 1])
    = rationalCurvePoint CoxDeBoor 2 (qc 1 2) 2 knots_bezier2 cps_arch
        [qc 1 1; qc 2 1; qc 1 1; qc 9 1].
Proof.
  split.
  - apply (proj1 (rational_curve_reads_one_weight_per_point CoxDeBoor
                    (qc 0 1) 2 (qc 1 2) 2 knots_bezier2 cps_arch
                    [qc 1 1; qc 1 1] 1)).
    simpl. lia.
  - apply (proj2 (rational_curve_reads_one_weight_per_point CoxDeBoor
                    (qc 0 1) 2 (qc 1 2) 2 knots_bezier2 cps_arch
                    [qc 1 1; qc 2 1; qc 1 1; qc 9 1] 1)).
    simpl. lia.
Defined.

Lemma curvePoint_of_coinciding_points_witness :
  curvePoint CoxDeBoor (length [qc 3 1; qc 4 1]) (qc 1 2) 2 knots_bezier2
    (replicate 3 [qc 3 1; qc 4 1]) = Some [qc 3 1; qc 4 1].
Proof.
  destruct (CoxDeBoor_valid_bezier2 3 eq_refl)
    as (Hrel & Hs & HN & Hsum & _).
  apply (curvePoint_of_coinciding_points CoxDeBoor); try done.
  apply Qc_combination_laws.
Defined.

Lemma surfacePoint_of_coinciding_points_witness :
  surfacePoint CoxDeBoor (length [qc 3 1; qc 4 1]) (qc 1 2) (qc 1 2) 1 1
    knots_lin knots_lin (replicate 2 (replicate 2 [qc 3 1; qc 4 1]))
  = Some [qc 3 1; qc 4 1].
Proof.
  destruct (CoxDeBoor_valid_lin 2) as (Hrel & Hs & HN & Hsum & _);
    [by left|].
  apply (surfacePoint_of_coinciding_points CoxDeBoor); try done.
  apply Qc_combination_laws.
Defined.

Lemma rationalSurfaceDerivatives_order00_is_rationalSurfacePoint_witness :
  ∃ tbl,
    rationalSurfaceDerivatives (qc 5 1) CoxDeBoor 2 (qc 1 2) (qc 1 2) 1 1
      knots_lin knots_lin grid_2x2 weights_2x2 2 table_stale = Some tbl
    ∧ at2 tbl 0 0
      = rationalSurfacePoint CoxDeBoor 2 (qc 1 2) (qc 1 2) 1 1
          knots_lin knots_lin grid_2x2 weights_2x2.
Proof.
  destruct (CoxDeBoor_valid_lin 2) as (Hrel & Hs & _ & _ & Hd & Hr);
    [by left|].
  apply (rationalSurfaceDerivatives_order00_is_rationalSurfacePoint
           CoxDeBoor (qc 5 1) 2 (qc 1 2) (qc 1 2) 1 1 knots_lin knots_lin
           grid_2x2 weights_2x2 2 table_stale 2);
    (done || lia || apply grid_2x2_shape || apply weights_2x2_shape
     || apply grid_2x2_dim || apply Qc_reciprocal_law).
Defined.

Lemma rationalCurvePoint_common_weight_factor_witness :
  rationalCurvePoint CoxDeBoor 2 (qc 1 2) 2 knots_bezier2 cps_arch
    (map (smul (qc 2 1)) [qc 1 1; qc 2 1; qc 1 1])
  = rationalCurvePoint CoxDeBoor 2 (qc 1 2) 2 knots_bezier2 cps_arch
      [qc 1 1; qc 2 1; qc 1 1].
Proof.
  destruct (CoxDeBoor_valid_bezier2 3 eq_refl) as (Hrel & Hs & HN & _).
  apply (rationalCurvePoint_common_weight_factor CoxDeBoor); try done.
  apply Qc_scaling_laws.
Defined.

Lemma rationalSurfacePoint_common_weight_factor_witness :
  rationalSurfacePoint CoxDeBoor 2 (qc 1 2) (qc 1 2) 1 1 knots_lin
    knots_lin grid_2x2 (map (map (smul (qc 2 1))) weights_2x2)
  = rationalSurfacePoint CoxDeBoor 2 (qc 1 2) (qc 1 2) 1 1 knots_lin
      knots_lin grid_2x2 weights_2x2.
Proof.
  destruct (CoxDeBoor_valid_lin 2) as (Hrel & Hs & HN & _); [by left|].
  apply (rationalSurfacePoint_common_weight_factor CoxDeBoor (qc 2 1) 2
           (qc 1 2) (qc 1 2) 1 1 knots_lin knots_lin grid_2x2
           weights_2x2 2);
    (done || apply grid_2x2_shape || apply weights_2x2_shape
     || apply Qc_scaling_laws).
Defined.
